(** * penne/evaluate.py: threshold calibration and dataset evaluation

    A shallow embedding of [src/penne/evaluate.py].  The functions of the
    [penne] package that the file calls but does not define (dataset
    partitions, path resolution, inference, the four metric accumulators)
    are fields of the record [Penne]; everything else is translated from
    the source line by line.  The command line ([parse_args], [main]) and
    the progress bar are left out.

    Numbers.  Python [int]s and [float]s are modelled as canonical
    rationals [Qc], whose Leibniz equality is numeric equality (as for
    dictionary keys, where [0 == 0.0]).  The only arithmetic the file
    performs on thresholds is [(left + right) / 2] and [right - left]
    starting from [0] and [1]; every value it produces is [k / 2^n] with
    [n <= 8], on which binary64 arithmetic is exact, and [2^-7] and
    [2^-8] lie on either side of the double nearest to [0.005].

    The training loop of [src/penne/train.py] is embedded in the module
    [Train], after the definitions for [evaluate.py]. *)

From Stdlib Require Import ZArith QArith Qcanon List String Ascii Bool Lia.
From Stdlib Require PrimFloat Uint63.
From stdpp Require Import base option list gmap strings.

Local Open Scope string_scope.

(** ** Numbers *)

Abbreviation number := Qc.

Definition num_of_nat (n : nat) : number := Q2Qc (inject_Z (Z.of_nat n)).

(** [x < y] and [x == y] on numbers, as booleans. *)
Definition num_ltb (x y : number) : bool := negb (Qle_bool (this y) (this x)).
Definition num_eqb (x y : number) : bool := Qeq_bool (this x) (this y).

(** The literal [0.005] of line 171. *)
Definition lit_0_005 : number := Q2Qc (5 # 1000).

(** ** Outcomes and the evaluation monad *)

Inductive exn : Type :=
| FileNotFoundError (path : string)
| KeyError (key : string)
| ValueError
| CollaboratorError (what : string).

(** A call returns or raises. *)
Inductive result (A : Type) : Type :=
| Ok (a : A)
| Raise (e : exn).
Arguments Ok {A} a.
Arguments Raise {A} e.

Definition result_bind {A B} (r : result A) (k : A -> result B) : result B :=
  match r with
  | Ok a => k a
  | Raise e => Raise e
  end.

(** ** Arrays, dictionaries, files *)

(** A two-dimensional numpy array, as its list of rows. *)
Definition ndarray := list (list number).

(** [a.shape[1]] *)
Definition shape1 (a : ndarray) : nat :=
  match a with
  | [] => 0
  | r :: _ => length r
  end.

(** [a[:, :n]] *)
Definition slice_cols (n : nat) (a : ndarray) : ndarray := map (take n) a.

(** A metric bundle: a dict from metric name to value. *)
Abbreviation scores := (gmap string number).

(** An insertion-ordered Python dict, as the list of its items in insertion
    order; [assoc_set] keeps the position of a key that is already there. *)
Section Assoc.
Context {K V : Type} (eqb : K -> K -> bool).

Fixpoint assoc_get (d : list (K * V)) (k : K) : option V :=
  match d with
  | [] => None
  | (k', v) :: d' => if eqb k' k then Some v else assoc_get d' k
  end.

Fixpoint assoc_set (d : list (K * V)) (k : K) (v : V) : list (K * V) :=
  match d with
  | [] => [(k, v)]
  | (k', v') :: d' =>
      if eqb k' k then (k', v) :: d' else (k', v') :: assoc_set d' k v
  end.
End Assoc.

(** The calibration result table [hparam_results]. *)
Abbreviation table := (list (number * scores)).

(** What [json.dump] is given in this file. *)
Inductive json : Type :=
| JScores (s : scores)
| JTable (t : table)
| JPerStem (t : list (string * scores)).

(** A file is a saved array or a text file holding the documents dumped
    into it since it was opened for writing ([Text []] is the empty
    file). *)
Inductive file : Type :=
| Npy (a : ndarray)
| Text (docs : list json).

Abbreviation files := (gmap string file).

(** The world: the files on disk and what has been printed (line 130 prints
    the threshold of every call of [evaluate_at_threshold]). *)
Record world : Type := World { fs : files; stdout : list number }.

(** A computation runs in a world and leaves a world, also when it raises.
    Its outcome is [None] only when the fuel of the [while] loop of line 171
    ran out before the loop ended. *)
Definition M (A : Type) : Type := world -> option (result A) * world.

Definition ret {A} (a : A) : M A := fun w => (Some (Ok a), w).
Definition out_of_fuel {A} : M A := fun w => (None, w).
Definition bind {A B} (m : M A) (k : A -> M B) : M B :=
  fun w =>
    match m w with
    | (Some (Ok a), w') => k a w'
    | (Some (Raise e), w') => (Some (Raise e), w')
    | (None, w') => (None, w')
    end.
(** A computation that only reads the files. *)
Definition reading {A} (f : files -> result A) : M A :=
  fun w => (Some (f (fs w)), w).
Definition lift {A} (r : result A) : M A := fun w => (Some r, w).

Declare Scope eval_scope.
Delimit Scope eval_scope with eval.
Notation "x <- m ;; k" := (bind m (fun x => k))
  (at level 100, m at next level, right associativity) : eval_scope.
Notation "m ;;; k" := (bind m (fun _ => k))
  (at level 100, right associativity) : eval_scope.
Notation "x <-? r ;; k" := (result_bind r (fun x => k))
  (at level 100, r at next level, right associativity) : eval_scope.

(** [print(f'evaluating at {thresh_val}')] *)
Definition print_evaluating (thresh_val : number) : M unit :=
  fun w => (Some (Ok tt), World (fs w) (stdout w ++ [thresh_val])).

(** [np.load(path)] *)
Definition np_load (path : string) (d : files) : result ndarray :=
  match d !! path with
  | Some (Npy a) => Ok a
  | Some (Text _) => Raise ValueError
  | None => Raise (FileNotFoundError path)
  end.

(** [np.save(path, a)] *)
Definition np_save (path : string) (a : ndarray) : M unit :=
  fun w => (Some (Ok tt), World (<[path := Npy a]> (fs w)) (stdout w)).

(** [open(path, 'w')]: the file is created, or truncated if it exists. *)
Definition open_w (path : string) : M unit :=
  fun w => (Some (Ok tt), World (<[path := Text []]> (fs w)) (stdout w)).

(** [json.dump(doc, file)] on a file opened by [open_w].  The documents
    dumped are dicts of numbers, which the docstrings require to be JSON
    serializable: the dump is one whole write. *)
Definition json_dump (doc : json) (path : string) : M unit :=
  fun w =>
    match fs w !! path with
    | Some (Text docs) =>
        (Some (Ok tt), World (<[path := Text (docs ++ [doc])]> (fs w)) (stdout w))
    | _ => (Some (Raise ValueError), w)
    end.

(** [d[key]] on a metric bundle. *)
Definition index (d : scores) (key : string) : result number :=
  match d !! key with
  | Some v => Ok v
  | None => Raise (KeyError key)
  end.

(** ** The collaborators in [penne] *)

(** The interface shared by [penne.metrics.F1], [WRMSE], [RPA] and [RCA]:
    [update] with positional arrays, [__call__], [reset]. *)
Class Metric (acc res : Type) : Type := {
  update : acc -> list ndarray -> result acc;
  compute : acc -> res;
  reset : acc -> acc
}.

Record Penne : Type := {
  EVAL_DIR : string;
  MAX_FMAX : number;
  (** [penne.data] *)
  partitions : string -> gmap string (list string);
  stem_to_file : string -> string -> string;
  stem_to_annotation : string -> string -> string;
  stem_to_cache_frames : string -> string -> bool -> string;
  (** [penne.load.pitch_annotation(name, annotation_file).numpy()] *)
  pitch_annotation : string -> string -> result ndarray;
  (** [penne.predict_from_file(audio_file, ..., fmax=fmax, pad=pad)]:
      pitch, periodicity, seconds, infers *)
  predict_from_file :
    string -> number -> bool -> result (ndarray * ndarray * number * number);
  (** lines 101-106 on the loaded frames: normalisation, [penne.ar_loop],
      [bins_to_frequency]; pitch and periodicity *)
  ar_predict : ndarray -> result (ndarray * ndarray);
  (** [penne.metrics] *)
  f1_acc : Type;
  wrmse_acc : Type;
  rpa_acc : Type;
  rca_acc : Type;
  (** [penne.metrics.F1(penne.threshold.At(thresh_val))] *)
  F1 : number -> f1_acc;
  WRMSE : wrmse_acc;
  RPA : rpa_acc;
  RCA : rca_acc;
  F1_metric :: Metric f1_acc (number * number * number);
  WRMSE_metric :: Metric wrmse_acc number;
  RPA_metric :: Metric rpa_acc number;
  RCA_metric :: Metric rca_acc number
}.

(** [a / b] on paths *)
Definition path_join (a b : string) : string := a ++ "/" ++ b.

Section Evaluate.
Context (penne : Penne).
Local Open Scope eval_scope.

(** The arguments of [from_stems] that its inner functions close over. *)
Context (name model_name : string).

Definition model_eval_dir : string :=
  path_join (path_join (EVAL_DIR penne) name) model_name.
Definition pitch_dir : string := path_join model_eval_dir "pitch".
Definition periodicity_dir : string := path_join model_eval_dir "periodicity".

(** [total_seconds], [total_frames], [total_infers] *)
Record totals : Type := Totals {
  total_seconds : number;
  total_frames : number;
  total_infers : number
}.

(** Lines 139-153 (and their copy, lines 207-221): the annotation and the
    saved predictions of one stem, the predictions cut to the annotation's
    length for PTDB. *)
Definition load_stem (stem : string) (d : files)
  : result (ndarray * ndarray * ndarray) :=
  let annotation_file := stem_to_annotation penne name stem in
  np_annotation <-? pitch_annotation penne name annotation_file ;;
  np_pitch <-? np_load (path_join pitch_dir (stem ++ ".npy")) d ;;
  np_periodicity <-? np_load (path_join periodicity_dir (stem ++ ".npy")) d ;;
  if String.eqb name "PTDB" && (shape1 np_annotation <? shape1 np_pitch)%nat
  then Ok (slice_cols (shape1 np_annotation) np_pitch,
           np_annotation,
           slice_cols (shape1 np_annotation) np_periodicity)
  else Ok (np_pitch, np_annotation, np_periodicity).

(** The four accumulators of one scoring call. *)
Record accs : Type := Accs {
  f1 : f1_acc penne;
  wrmse : wrmse_acc penne;
  rpa : rpa_acc penne;
  rca : rca_acc penne
}.

(** Lines 155-158 (and 223-226). *)
Definition update_metrics (a : accs) (x : ndarray * ndarray * ndarray)
  : result accs :=
  let '(np_pitch, np_annotation, np_periodicity) := x in
  f1' <-? update (f1 a) [np_pitch; np_annotation; np_periodicity] ;;
  wrmse' <-? update (wrmse a) [np_pitch; np_annotation; np_periodicity] ;;
  rpa' <-? update (rpa a) [np_pitch; np_annotation] ;;
  rca' <-? update (rca a) [np_pitch; np_annotation] ;;
  Ok (Accs f1' wrmse' rpa' rca').

(** Lines 161-164 and the first six items of the dict of line 166 (the
    whole dict of line 234). *)
Definition metric_bundle (a : accs) : scores :=
  let '(precision, recall, f1_val) := compute (f1 a) in
  let wrmse_val := compute (wrmse a) in
  let rpa_val := compute (rpa a) in
  let rca_val := compute (rca a) in
  <["precision" := precision]> (<["recall" := recall]> (<["f1" := f1_val]> (
  <["wrmse" := wrmse_val]> (<["rpa" := rpa_val]> (<["rca" := rca_val]> ∅))))).

(** Lines 138-158: the loop over the stems. *)
Fixpoint score_stems (a : accs) (stems : list string) (d : files)
  : result accs :=
  match stems with
  | [] => Ok a
  | stem :: rest =>
      x <-? load_stem stem d ;;
      a' <-? update_metrics a x ;;
      score_stems a' rest d
  end.

Definition new_accs (thresh_val : number) : accs :=
  Accs (F1 penne thresh_val) (WRMSE penne) (RPA penne) (RCA penne).

(** Lines 129-166.  [t] holds the values of the three totals at the time
    of the call. *)
Definition evaluate_at_threshold (t : totals)
    (thresh_val : number) (stems : list string) : M scores :=
  print_evaluating thresh_val ;;;
  a <- reading (score_stems (new_accs thresh_val) stems) ;;
  ret (<["seconds" := total_seconds t]> (<["frames" := total_frames t]> (
       <["infers" := total_infers t]> (metric_bundle a)))).

(** Lines 196-240. *)
Fixpoint per_stem_loop (a : accs) (res : list (string * scores))
    (stems : list string) (d : files) : result (list (string * scores)) :=
  match stems with
  | [] => Ok res
  | stem :: rest =>
      x <-? load_stem stem d ;;
      a' <-? update_metrics a x ;;
      let res' := assoc_set String.eqb res stem (metric_bundle a') in
      let a'' := Accs (reset (f1 a')) (reset (wrmse a'))
                      (reset (rpa a')) (reset (rca a')) in
      per_stem_loop a'' res' rest d
  end.

Definition evaluate_per_stem (thresh_val : number) (stems : list string)
  : M (list (string * scores)) :=
  reading (per_stem_loop (new_accs thresh_val) [] stems).

(** *** The prediction pass, lines 94-125 *)

(** The body of the loop of line 98 for one stem. *)
Definition predict_stem (ar : bool) (t : totals) (stem : string) : M totals :=
  x <- (if ar then
          frames <- reading (np_load (stem_to_cache_frames penne name stem false)) ;;
          y <- lift (ar_predict penne frames) ;;
          ret (y, t)
        else
          let audio_file := stem_to_file penne name stem in
          let fmax := if String.eqb name "PTDB" then Q2Qc 550%Q else MAX_FMAX penne in
          y <- lift (predict_from_file penne audio_file fmax
                       (negb (String.eqb name "PTDB"))) ;;
          let '(pitch, periodicity, seconds, infers) := y in
          ret ((pitch, periodicity),
               Totals (total_seconds t + seconds)%Qc
                      (total_frames t + num_of_nat (shape1 pitch))%Qc
                      (total_infers t + infers)%Qc)) ;;
  let '((np_pitch, np_periodicity), t') := x in
  np_save (path_join pitch_dir (stem ++ ".npy")) np_pitch ;;;
  np_save (path_join periodicity_dir (stem ++ ".npy")) np_periodicity ;;;
  ret t'.

Fixpoint predict_loop (ar : bool) (t : totals) (stems : list string) : M totals :=
  match stems with
  | [] => ret t
  | stem :: rest => t' <- predict_stem ar t stem ;; predict_loop ar t' rest
  end.

Definition predict_all (skip_predictions ar : bool)
    (hparam_stems test_stems : list string) : M totals :=
  let t := Totals 0%Qc 0%Qc 0%Qc in
  if negb skip_predictions
  then predict_loop ar t (hparam_stems ++ test_stems)
  else ret t.

(** *** The calibration loop, lines 168-188 *)

Record search : Type := Search {
  left : number;
  right : number;
  hparam_results : table
}.

(** Lines 172-177 for [side = left], lines 178-183 for [side = right]:
    the memoized F1 of [side], or a fresh evaluation that is recorded. *)
Definition f1_of (t : totals) (hparam_stems : list string)
    (side : number) (results : table) : M (number * table) :=
  match assoc_get num_eqb results side with
  | Some s => ret (default 0%Qc (s !! "f1"), results)
  | None =>
      scores <- evaluate_at_threshold t side hparam_stems ;;
      let results' := assoc_set num_eqb results side scores in
      f1_val <- lift (index scores "f1") ;;
      ret (f1_val, results')
  end.

(** One execution of the loop body, lines 172-188. *)
Definition iteration (t : totals) (hparam_stems : list string) (s : search)
  : M search :=
  x <- f1_of t hparam_stems (left s) (hparam_results s) ;;
  let '(left_f1, results1) := x in
  y <- f1_of t hparam_stems (right s) results1 ;;
  let '(right_f1, results2) := y in
  let center := ((left s + right s) / 2)%Qc in
  if num_ltb left_f1 right_f1
  then ret (Search center (right s) results2)
  else ret (Search (left s) center results2).

(** [while right-left > 0.005: ...]; one unit of fuel per execution of the
    body. *)
Fixpoint calibrate (fuel : nat) (t : totals) (hparam_stems : list string)
    (s : search) : M search :=
  if num_ltb lit_0_005 (right s - left s)%Qc then
    match fuel with
    | O => out_of_fuel
    | S fuel' =>
        s' <- iteration t hparam_stems s ;;
        calibrate fuel' t hparam_stems s'
    end
  else ret s.

(** [max(hparam_results, key=lambda x: hparam_results[x]['f1'])]: the
    first key, in insertion order, whose F1 no later key exceeds. *)
Fixpoint max_from (results : table) (best : number) (best_f1 : number)
    (keys : list number) : result number :=
  match keys with
  | [] => Ok best
  | x :: rest =>
      s <-? match assoc_get num_eqb results x with
            | Some s => Ok s
            | None => Raise (KeyError "")
            end ;;
      v <-? index s "f1" ;;
      if num_ltb best_f1 v
      then max_from results x v rest
      else max_from results best best_f1 rest
  end.

Definition best_threshold (results : table) : result number :=
  match map fst results with
  | [] => Raise ValueError
  | x :: rest =>
      s <-? match assoc_get num_eqb results x with
            | Some s => Ok s
            | None => Raise (KeyError "")
            end ;;
      v <-? index s "f1" ;;
      max_from results x v rest
  end.

(** *** [from_stems], lines 71-245

    Directories are not modelled: lines 86-92 (and 63-65 in
    [dataset_to_file]) only create them when they are missing.  The
    arguments [model] and [device] are those of the collaborators. *)

Definition from_stems (fuel : nat) (skip_predictions : bool)
    (hparam_stems test_stems : list string) (ar : bool) : M scores :=
  t <- predict_all skip_predictions ar hparam_stems test_stems ;;
  s <- calibrate fuel t hparam_stems (Search 0%Qc 1%Qc []) ;;
  let file := path_join model_eval_dir
                ("hparam_" ++ model_name ++ "_on_" ++ name ++ ".json") in
  open_w file ;;;
  json_dump (JTable (hparam_results s)) file ;;;
  best_thresh <- lift (best_threshold (hparam_results s)) ;;
  let file := path_join model_eval_dir
                ("per_stem_" ++ model_name ++ "_on_" ++ name ++ ".json") in
  open_w file ;;;
  res <- evaluate_per_stem best_thresh test_stems ;;
  json_dump (JPerStem res) file ;;;
  evaluate_at_threshold t best_thresh test_stems.

(** *** [dataset], lines 22-47 *)

(** [hparam_stems] of lines 38-39. *)
Definition hparam_stems_of (train : list string) : list string :=
  take (length train / 5) train.

Definition dataset (fuel : nat) (partition : string)
    (skip_predictions ar : bool) : M scores :=
  train <- lift (match partitions penne name !! "train" with
                 | Some l => Ok l
                 | None => Raise (KeyError "train")
                 end) ;;
  let hparam_stems := hparam_stems_of train in
  test_stems <- lift (match partitions penne name !! partition with
                      | Some l => Ok l
                      | None => Raise (KeyError partition)
                      end) ;;
  from_stems fuel skip_predictions hparam_stems test_stems ar.

(** *** [dataset_to_file], lines 50-68 *)

Definition dataset_to_file (fuel : nat) (partition : string)
    (skip_predictions ar : bool) : M unit :=
  let file := path_join model_eval_dir (model_name ++ "_on_" ++ name ++ ".json") in
  open_w file ;;;
  r <- dataset fuel partition skip_predictions ar ;;
  json_dump (JScores r) file.

End Evaluate.

(** ** Notions used to state the properties *)

(** [2^n] and the dyadic rational [k / 2^n]. *)
Fixpoint pow2 (n : nat) : positive :=
  match n with
  | O => 1
  | S n' => (pow2 n')~0
  end.

Definition dyadic (k : Z) (n : nat) : number := Q2Qc (k # pow2 n).

(** The binary64 float that Python computes for [k / 2^n], and the check
    that on the bounds [k / 2^n] and [(k + 1) / 2^n] the float operations of
    lines 171 and 184 are exact: the centre is [(2k + 1) / 2^(n+1)], the
    bounds keep their value, and the guard holds exactly when [n < 8].
    The literal [0.005] is the double nearest to [5 / 1000], which is what
    the correctly rounded division of [5] by [1000] gives. *)
Definition binary64_0_005 : PrimFloat.float :=
  PrimFloat.div (PrimFloat.of_uint63 (Uint63.of_Z 5))
                (PrimFloat.of_uint63 (Uint63.of_Z 1000)).

Definition binary64_of_dyadic (k n : nat) : PrimFloat.float :=
  PrimFloat.div (PrimFloat.of_uint63 (Uint63.of_Z (Z.of_nat k)))
                (PrimFloat.of_uint63 (Uint63.of_Z (2 ^ Z.of_nat n))).

Definition binary64_exact_at (n k : nat) : bool :=
  let l := binary64_of_dyadic k n in
  let r := binary64_of_dyadic (k + 1) n in
  let two := PrimFloat.of_uint63 (Uint63.of_Z 2) in
  PrimFloat.eqb (PrimFloat.div (PrimFloat.add l r) two)
                (binary64_of_dyadic (2 * k + 1) (S n))
  && PrimFloat.eqb l (binary64_of_dyadic (2 * k) (S n))
  && PrimFloat.eqb r (binary64_of_dyadic (2 * k + 2) (S n))
  && PrimFloat.eqb
       (PrimFloat.mul l (PrimFloat.of_uint63 (Uint63.of_Z (2 ^ Z.of_nat n))))
       (PrimFloat.of_uint63 (Uint63.of_Z (Z.of_nat k)))
  && Bool.eqb (PrimFloat.ltb binary64_0_005 (PrimFloat.sub r l)) (n <? 8)%nat.

(** The keys of a table, in insertion order. *)
Definition keys (results : table) : list number := map fst results.

Section Curve.
Context (penne : Penne) (name model_name : string).
Context (t : totals) (stems : list string) (d : files).

(** What [evaluate_at_threshold(x, stems)] returns when the files on disk
    are [d]. *)
Definition scores_at (x : number) : result scores :=
  result_bind (score_stems penne name model_name (new_accs penne x) stems d)
    (fun a =>
       Ok (<["seconds" := total_seconds t]> (<["frames" := total_frames t]> (
           <["infers" := total_infers t]> (metric_bundle penne a))))).

(** The F1 of threshold [x] on [stems]. *)
Definition F1_curve (x : number) : result number :=
  result_bind (scores_at x) (fun s => index s "f1").

(** Every entry of the table is what scoring its threshold returns. *)
Definition table_sound (results : table) : Prop :=
  Forall (fun e => scores_at (fst e) = Ok (snd e)) results.

(** The invariant of the calibration loop: the files are untouched, the
    thresholds printed since the loop began (after [out0]) are the keys of
    the table, no key occurs twice, and every entry is sound. *)
Definition calibration_inv (out0 : list number) (results : table) (w : world)
  : Prop :=
  fs w = d /\
  stdout w = (out0 ++ keys results)%list /\
  NoDup (keys results) /\
  table_sound results.
End Curve.

(** The search as the specification words it, on a curve [F] that needs no
    table: compare the F1 of the two bounds, move one bound to the
    centre, repeat while the bounds are more than [0.005] apart. *)
Definition bisect_step (F : number -> result number) (lr : number * number)
  : result (number * number) :=
  let '(l, r) := lr in
  result_bind (F l) (fun fl =>
  result_bind (F r) (fun fr =>
  let center := ((l + r) / 2)%Qc in
  Ok (if num_ltb fl fr then (center, r) else (l, center)))).

Fixpoint bisect (fuel : nat) (F : number -> result number)
    (lr : number * number) : option (result (number * number)) :=
  if num_ltb lit_0_005 (snd lr - fst lr)%Qc then
    match fuel with
    | O => None
    | S fuel' =>
        match bisect_step F lr with
        | Ok lr' => bisect fuel' F lr'
        | Raise e => Some (Raise e)
        end
    end
  else Some (Ok lr).

Definition bounds (s : search) : number * number :=
  (left s, right s).

Definition outcome_map {A B} (f : A -> B) (o : option (result A))
  : option (result B) :=
  match o with
  | Some (Ok a) => Some (Ok (f a))
  | Some (Raise e) => Some (Raise e)
  | None => None
  end.

(** [n] executions of the loop body lead from one configuration to
    another. *)
Inductive loop_steps (penne : Penne) (name model_name : string)
    (t : totals) (hparam_stems : list string)
  : nat -> search * world -> search * world -> Prop :=
| loop_here c : loop_steps penne name model_name t hparam_stems 0 c c
| loop_more n s w s' w' c :
    loop_steps penne name model_name t hparam_stems n c (s, w) ->
    num_ltb lit_0_005 (right s - left s)%Qc = true ->
    iteration penne name model_name t hparam_stems s w = (Some (Ok s'), w') ->
    loop_steps penne name model_name t hparam_stems (S n) c (s', w').

(** The F1 recorded for key [x]. *)
Definition f1_in (results : table) (x : number) : number :=
  match assoc_get num_eqb results x with
  | Some s => default 0%Qc (s !! "f1")
  | None => 0%Qc
  end.

(** [b] is the first key of the table, in insertion order, with the
    greatest F1: the keys before it have a smaller F1, the keys after it
    none greater. *)
Definition first_argmax (results : table) (b : number) : Prop :=
  exists before after : list number,
    keys results = (before ++ b :: after)%list /\
    Forall (fun x => (f1_in results x < f1_in results b)%Qc) before /\
    Forall (fun x => (f1_in results x <= f1_in results b)%Qc) after.

(** The entry of key [x] has an F1. *)
Definition has_f1 (results : table) (x : number) : Prop :=
  exists s v, assoc_get num_eqb results x = Some s /\ s !! "f1" = Some v.

(** What one stem adds to the three totals in windowed-batch mode (lines
    116-118), and the totals after a list of stems. *)
Definition contribution (penne : Penne) (name : string) (stem : string)
  : number * number * number :=
  match predict_from_file penne (stem_to_file penne name stem)
          (if String.eqb name "PTDB" then Q2Qc 550%Q else MAX_FMAX penne)
          (negb (String.eqb name "PTDB")) with
  | Ok (pitch, _, seconds, infers) => (seconds, num_of_nat (shape1 pitch), infers)
  | Raise _ => (0%Qc, 0%Qc, 0%Qc)
  end.

Definition add_contributions (penne : Penne) (name : string)
    (t : totals) (stems : list string) : totals :=
  fold_left (fun acc stem =>
               let '(seconds, frames, infers) := contribution penne name stem in
               Totals (total_seconds acc + seconds)%Qc
                      (total_frames acc + frames)%Qc
                      (total_infers acc + infers)%Qc)
            stems t.

(** C2 as stated: when the F1 of the two bounds is equal, [right] stays and
    [left] moves to the centre. *)
Definition tie_moves_left_bound (penne : Penne) (name model_name : string)
    (t : totals) (hparam_stems : list string) (w0 : world) : Prop :=
  forall n s w s' w',
    loop_steps penne name model_name t hparam_stems n (Search 0 1 [], w0) (s, w) ->
    iteration penne name model_name t hparam_stems s w = (Some (Ok s'), w') ->
    F1_curve penne name model_name t hparam_stems (fs w0) (left s)
    = F1_curve penne name model_name t hparam_stems (fs w0) (right s) ->
    right s' = right s /\ left s' = ((left s + right s) / 2)%Qc.

Section Stated.
Context (penne : Penne) (name model_name : string).

(** The triple [x] handed to the metric updates for [stem] when the files
    are [d]: the annotation as loaded; the predictions cut to the
    annotation's length for PTDB when they are longer, and as loaded
    otherwise. *)
Definition cut_for_ptdb (d : files) (stem : string)
    (x : ndarray * ndarray * ndarray) : Prop :=
  exists np_annotation np_pitch np_periodicity,
    pitch_annotation penne name (stem_to_annotation penne name stem)
    = Ok np_annotation /\
    np_load (path_join (pitch_dir penne name model_name) (stem ++ ".npy")) d
    = Ok np_pitch /\
    np_load (path_join (periodicity_dir penne name model_name) (stem ++ ".npy")) d
    = Ok np_periodicity /\
    snd (fst x) = np_annotation /\
    (name = "PTDB" -> (shape1 np_annotation < shape1 np_pitch)%nat ->
       fst (fst x) = slice_cols (shape1 np_annotation) np_pitch /\
       snd x = slice_cols (shape1 np_annotation) np_periodicity /\
       shape1 (fst (fst x)) = shape1 np_annotation) /\
    (name <> "PTDB" \/ (shape1 np_pitch <= shape1 np_annotation)%nat ->
       fst (fst x) = np_pitch /\ snd x = np_periodicity).

(** The updates of lines 155-158 applied to a list of triples in turn. *)
Fixpoint update_all (a : accs penne) (xs : list (ndarray * ndarray * ndarray))
  : result (accs penne) :=
  match xs with
  | [] => Ok a
  | x :: rest =>
      result_bind (update_metrics penne a x) (fun a' => update_all a' rest)
  end.

(** The body of the loop of line 206 applied to a list of stems and their
    triples in turn: the updates of lines 223-226, the row of line 234 and
    the resets of lines 236-239. *)
Fixpoint record_all (a : accs penne) (res : list (string * scores))
    (stems : list string) (xs : list (ndarray * ndarray * ndarray))
  : result (list (string * scores)) :=
  match stems, xs with
  | stem :: stems', x :: xs' =>
      result_bind (update_metrics penne a x) (fun a' =>
        record_all
          (Accs penne (reset (f1 penne a')) (reset (wrmse penne a'))
                      (reset (rpa penne a')) (reset (rca penne a')))
          (assoc_set String.eqb res stem (metric_bundle penne a'))
          stems' xs')
  | _, _ => Ok res
  end.

(** C6 as stated: predictions longer than the annotation are cut, whatever
    the dataset. *)
Definition cut_whenever_longer (d : files) (stem : string) : Prop :=
  forall np_annotation np_pitch np_periodicity,
    pitch_annotation penne name (stem_to_annotation penne name stem)
    = Ok np_annotation ->
    np_load (path_join (pitch_dir penne name model_name) (stem ++ ".npy")) d
    = Ok np_pitch ->
    np_load (path_join (periodicity_dir penne name model_name) (stem ++ ".npy")) d
    = Ok np_periodicity ->
    (shape1 np_annotation < shape1 np_pitch)%nat ->
    load_stem penne name model_name stem d
    = Ok (slice_cols (shape1 np_annotation) np_pitch, np_annotation,
          slice_cols (shape1 np_annotation) np_periodicity).
End Stated.

(** The number of frames of the prediction saved for [stem]. *)
Definition frames_saved (penne : Penne) (name model_name : string)
    (d : files) (stem : string) : number :=
  match np_load (path_join (pitch_dir penne name model_name) (stem ++ ".npy")) d with
  | Ok np_pitch => num_of_nat (shape1 np_pitch)
  | Raise _ => 0%Qc
  end.

(** C8 as stated: in either mode the frame total grows by the frames of
    every stem predicted. *)
Definition totals_count_in_both_modes (penne : Penne) (name model_name : string)
    (ar : bool) (stems : list string) (w : world) : Prop :=
  forall t w',
    predict_loop penne name model_name ar (Totals 0 0 0) stems w
    = (Some (Ok t), w') ->
    total_frames t
    = fold_left (fun acc stem =>
                   (acc + frames_saved penne name model_name (fs w') stem)%Qc)
        stems 0%Qc.

(** The last character of a string. *)
Fixpoint last_char (s : string) : option ascii :=
  match s with
  | EmptyString => None
  | String c EmptyString => Some c
  | String _ s' => last_char s'
  end.

(** [m] leaves the file at [path] as it is, whatever its outcome. *)
Definition preserves {A} (path : string) (m : M A) : Prop :=
  forall w, fs (snd (m w)) !! path = fs w !! path.

Section Artifacts.
Context (penne : Penne) (name model_name : string).

(** The three JSON artifacts. *)
Definition aggregate_file : string :=
  path_join (model_eval_dir penne name model_name)
    (model_name ++ "_on_" ++ name ++ ".json").
Definition hparam_file : string :=
  path_join (model_eval_dir penne name model_name)
    ("hparam_" ++ model_name ++ "_on_" ++ name ++ ".json").
Definition per_stem_file : string :=
  path_join (model_eval_dir penne name model_name)
    ("per_stem_" ++ model_name ++ "_on_" ++ name ++ ".json").

(** C9 as stated, for the aggregate record: a run of [dataset_to_file]
    that does not return leaves the aggregate file as it found it. *)
Definition written_only_on_success (fuel : nat) (partition : string)
    (skip_predictions ar : bool) (w : world) : Prop :=
  let out := dataset_to_file penne name model_name fuel partition
               skip_predictions ar w in
  (forall u, fst out <> Some (Ok u)) ->
  fs (snd out) !! aggregate_file = fs w !! aggregate_file.
End Artifacts.

(** ** Notions used to state further properties *)

(** [x] is a multiple of [1 / 2^m] between [0] and [1]. *)
Definition on_grid (m : nat) (x : number) : Prop :=
  exists j, (0 <= j <= 2 ^ Z.of_nat m)%Z /\ x = dyadic j m.

(** The table after [n] executions of the loop body, for [n >= 1]: it has
    [n + 1] entries, its keys lie on the grid of step [1 / 2^(n-1)], and
    the bounds are one bound of the previous execution, which is a key, and
    the centre of the previous bounds, which is not yet one. *)
Definition table_grid (n : nat) (s : search) : Prop :=
  match n with
  | O => hparam_results s = [] /\ left s = dyadic 0 0 /\ right s = dyadic (0 + 1) 0
  | S m =>
      length (hparam_results s) = (m + 2)%nat /\
      hd_error (keys (hparam_results s)) = Some 0%Qc /\
      Forall (on_grid m) (keys (hparam_results s)) /\
      exists k, (0 <= k < 2 ^ Z.of_nat m)%Z /\
        dyadic k m ∈ keys (hparam_results s) /\
        dyadic (k + 1) m ∈ keys (hparam_results s) /\
        ((left s = dyadic (2 * k + 1) (S m) /\ right s = dyadic (k + 1) m) \/
         (left s = dyadic k m /\ right s = dyadic (2 * k + 1) (S m)))
  end.

Section PredictionFiles.
Context (penne : Penne) (name model_name : string).

(** [pitch_dir / f'{stem}.npy'] and [periodicity_dir / f'{stem}.npy'] *)
Definition pitch_file (stem : string) : string :=
  path_join (pitch_dir penne name model_name) (stem ++ ".npy").
Definition periodicity_file (stem : string) : string :=
  path_join (periodicity_dir penne name model_name) (stem ++ ".npy").
End PredictionFiles.

(** [s] has no separator.  For such a stem [dir / f'{stem}.npy'] is the
    file of that name in [dir], which is what [path_join] writes; in
    pathlib an absolute right operand would replace [dir], and a stem
    through [..] would name a file of another directory. *)
Fixpoint no_separator (s : string) : bool :=
  match s with
  | EmptyString => true
  | String c rest => negb (Ascii.eqb c "/") && no_separator rest
  end.

(** [s] is one component of a path: it has no separator and is not empty,
    [.] or [..], so that joining it to a directory adds it as it is. *)
Definition component (s : string) : bool :=
  no_separator s && negb (String.eqb s "") && negb (String.eqb s ".")
  && negb (String.eqb s "..").

(** Lines 236-239: the four accumulators after [reset]. *)
Definition reset_accs (penne : Penne) (a : accs penne) : accs penne :=
  Accs penne (reset (f1 penne a)) (reset (wrmse penne a))
             (reset (rpa penne a)) (reset (rca penne a)).

(** [reset] undoes the updates: it fixes the fresh accumulators of
    threshold [b] and gives the same result before and after an update. *)
Definition reset_restores (penne : Penne) (b : number) : Prop :=
  reset_accs penne (new_accs penne b) = new_accs penne b /\
  forall a x a', update_metrics penne a x = Ok a' ->
                 reset_accs penne a' = reset_accs penne a.

(** ** A small instance of the collaborators

    The F1 of a threshold is read off a given curve, the other metrics are
    constantly [0]; every annotation has two frames and every windowed
    prediction three. *)
Module Fixture.

Definition curve_metric (curve : number -> number)
  : Metric number (number * number * number) :=
  {| update a _ := Ok a; compute a := (0%Qc, 0%Qc, curve a); reset a := a |}.

Definition zero_metric : Metric unit number :=
  {| update a _ := Ok a; compute _ := 0%Qc; reset a := a |}.

Definition three_frames : ndarray := [[Q2Qc 100; Q2Qc 110; Q2Qc 120]].
Definition two_frames : ndarray := [[Q2Qc 100; Q2Qc 110]].

Definition penne (curve : number -> number) : Penne := {|
  EVAL_DIR := "eval";
  MAX_FMAX := Q2Qc 2006;
  partitions _ :=
    <["train" := ["a"; "b"; "c"; "d"; "e"; "f"; "g"] ]>
      (<["test" := ["t"] ]> ∅);
  stem_to_file n s := n ++ "/" ++ s ++ ".wav";
  stem_to_annotation n s := n ++ "/" ++ s ++ ".f0";
  stem_to_cache_frames n s _ := n ++ "/" ++ s ++ "-frames.npy";
  pitch_annotation _ _ := Ok two_frames;
  predict_from_file _ _ _ :=
    Ok (three_frames, three_frames, Q2Qc (1 # 4), Q2Qc 2);
  ar_predict frames := Ok (frames, frames);
  f1_acc := number;
  wrmse_acc := unit;
  rpa_acc := unit;
  rca_acc := unit;
  F1 thresh_val := thresh_val;
  WRMSE := tt;
  RPA := tt;
  RCA := tt;
  F1_metric := curve_metric curve;
  WRMSE_metric := zero_metric;
  RPA_metric := zero_metric;
  RCA_metric := zero_metric
|}.

(** F1 is [0] at every threshold. *)
Definition flat (_ : number) : number := 0%Qc.

(** F1 is [1] at thresholds [1] and [1/2] and [0] elsewhere. *)
Definition two_peaks (x : number) : number :=
  if num_eqb x 1 || num_eqb x (Q2Qc (1 # 2)) then 1%Qc else 0%Qc.

Definition no_totals : totals := Totals 0 0 0.
Definition empty_world : world := World ∅ [].

(** A disk that holds three-frame predictions for stem ["t"] of model
    ["m"] on the dataset [name]. *)
Definition predicted (name : string) : world :=
  World (<["eval/" ++ name ++ "/m/pitch/t.npy" := Npy three_frames]>
           (<["eval/" ++ name ++ "/m/periodicity/t.npy" := Npy three_frames]> ∅))
        [].

(** A disk that holds the cached input frames of stem ["t"]. *)
Definition cached : world :=
  World (<["MDB/t-frames.npy" := Npy three_frames]> ∅) [].

Definition returned {A} (default : A) (o : option (result A)) : A :=
  match o with
  | Some (Ok a) => a
  | _ => default
  end.

Definition start : search * world := (Search 0 1 [], empty_world).

Definition step_config (curve : number -> number) (c : search * world)
  : search * world :=
  match iteration (penne curve) "MDB" "m" no_totals [] (fst c) (snd c) with
  | (Some (Ok s), w) => (s, w)
  | _ => c
  end.

Definition after (curve : number -> number) (n : nat) : search * world :=
  Nat.iter n (step_config curve) start.
End Fixture.

(** ** A second instance: an accumulator that counts frames

    As [Fixture.penne], but RPA reports the number of frames it has been
    given since the last [reset]. *)
Module Scenario.

Definition frames_metric : Metric nat number :=
  {| update a args := Ok (a + shape1 (hd [] args))%nat;
     compute a := num_of_nat a;
     reset _ := 0%nat |}.

Definition penne (curve : number -> number) : Penne := {|
  EVAL_DIR := "eval";
  MAX_FMAX := Q2Qc 2006;
  partitions _ :=
    <["train" := ["a"; "b"] ]> (<["test" := ["t"; "u"] ]> ∅);
  stem_to_file n s := n ++ "/" ++ s ++ ".wav";
  stem_to_annotation n s := n ++ "/" ++ s ++ ".f0";
  stem_to_cache_frames n s _ := n ++ "/" ++ s ++ "-frames.npy";
  pitch_annotation _ _ := Ok Fixture.two_frames;
  predict_from_file file _ _ :=
    if String.eqb file "MDB/u.wav"
    then Ok (Fixture.two_frames, Fixture.two_frames, Q2Qc (1 # 4), Q2Qc 1)
    else Ok (Fixture.three_frames, Fixture.three_frames, Q2Qc (1 # 4), Q2Qc 2);
  ar_predict frames := Ok (frames, frames);
  f1_acc := number;
  wrmse_acc := unit;
  rpa_acc := nat;
  rca_acc := unit;
  F1 thresh_val := thresh_val;
  WRMSE := tt;
  RPA := 0%nat;
  RCA := tt;
  F1_metric := Fixture.curve_metric curve;
  WRMSE_metric := Fixture.zero_metric;
  RPA_metric := frames_metric;
  RCA_metric := Fixture.zero_metric
|}.

(** The disk after the windowed prediction pass over the stems ["t"] and
    ["u"]. *)
Definition predicted : world :=
  snd (predict_loop (penne Fixture.flat) "MDB" "m" false Fixture.no_totals
         ["t"; "u"] Fixture.empty_world).

End Scenario.

(** * penne/train.py

    A shallow embedding of [src/penne/train.py]: the class [AverageMeter],
    [my_acc], the two loops of [main] over the batches and its loop over
    the epochs.  What the model, the loss [my_loss], the optimizer, the
    metrics of [penne], Tensorboard and the plots do is observed, not
    computed: they are parameters that return or raise.  Writing a
    checkpoint is an event of the log of a run, and does not fail.  The
    set-up of [main] (lines 91-146) and [parse_args] are left out.

    The arithmetic of Python floats is a parameter: [val * n] for a float
    and an int, [+] on floats, [/] of a float by a non-zero int, and the
    true division of two ints.  Integers are [Z]; the int [0] that [reset]
    stores is the float zero. *)
Class PyFloat (F : Type) : Type := {
  float_zero : F;
  float_mul_int : F -> Z -> F;
  float_add : F -> F -> F;
  float_div_int : F -> Z -> F;
  int_true_div : Z -> Z -> F
}.

Module Train.

Inductive exn : Type :=
| ZeroDivisionError
| TorchError (what : string)
| External (what : string).

Inductive outcome (A : Type) : Type :=
| Returns (a : A)
| Raises (e : exn).
Arguments Returns {A} a.
Arguments Raises {A} e.

Definition outcome_bind {A B} (r : outcome A) (k : A -> outcome B) : outcome B :=
  match r with
  | Returns a => k a
  | Raises e => Raises e
  end.

Declare Scope train_scope.
Delimit Scope train_scope with train.
Notation "x <-! r ;; k" := (outcome_bind r (fun x => k))
  (at level 100, r at next level, right associativity) : train_scope.
Local Open Scope train_scope.

Section WithFloat.
Context {F : Type} `{PyFloat F}.

(** ** [AverageMeter], lines 25-45 *)

Record AverageMeter : Type := Meter {
  val : F;
  avg : F;
  sum : F;
  count : Z
}.

(** [reset], lines 35-39, which [__init__] calls. *)
Definition reset (m : AverageMeter) : AverageMeter :=
  Meter float_zero float_zero float_zero 0.

Definition fresh : AverageMeter := Meter float_zero float_zero float_zero 0.

(** [update], lines 41-45.  The object is mutated field by field: when
    the division of line 45 raises, the first three assignments have
    happened.  The outcome is the object after the call, and the exception
    if the call raised. *)
Definition update (m : AverageMeter) (v : F) (n : Z)
  : AverageMeter * option exn :=
  let sum' := float_add (sum m) (float_mul_int v n) in
  let count' := (count m + n)%Z in
  if (count' =? 0)%Z
  then (Meter v (avg m) sum' count', Some ZeroDivisionError)
  else (Meter v (float_div_int sum' count') sum' count', None).

(** A run of calls of [update] on one meter, up to the first that raises. *)
Fixpoint updates (m : AverageMeter) (calls : list (F * Z))
  : AverageMeter * option exn :=
  match calls with
  | [] => (m, None)
  | (v, n) :: rest =>
      match update m v n with
      | (m', None) => updates m' rest
      | (m', Some e) => (m', Some e)
      end
  end.

(** ** [my_acc], lines 58-60 *)

(** [argmax] along a row: the index of the first greatest entry. *)
Fixpoint argmax_from (best_i : Z) (best : number) (i : Z) (row : list number) : Z :=
  match row with
  | [] => best_i
  | x :: rest =>
      if num_ltb best x
      then argmax_from i x (i + 1) rest
      else argmax_from best_i best (i + 1) rest
  end.

Definition argmax (row : list number) : outcome Z :=
  match row with
  | [] => Raises (TorchError "argmax over a dimension of size 0")
  | x :: rest => Returns (argmax_from 0 x 1 rest)
  end.

(** [y_hat.argmax(dim=1)] for a matrix given by its rows. *)
Fixpoint argmax_dim1 (y_hat : list (list number)) : outcome (list Z) :=
  match y_hat with
  | [] => Returns []
  | row :: rest =>
      i <-! argmax row ;;
      indices <-! argmax_dim1 rest ;;
      Returns (i :: indices)
  end.

Fixpoint eq_elementwise (a b : list Z) : list bool :=
  match a, b with
  | x :: a', z :: b' => (x =? z)%Z :: eq_elementwise a' b'
  | _, _ => []
  end.

(** [a.eq(b)] for vectors: elementwise when the sizes agree, a vector of
    size one is broadcast, any other pair of sizes is refused. *)
Definition tensor_eq (a b : list Z) : outcome (list bool) :=
  if (length a =? length b)%nat then Returns (eq_elementwise a b)
  else match a, b with
       | [x], _ => Returns (map (fun z => (x =? z)%Z) b)
       | _, [z] => Returns (map (fun x => (x =? z)%Z) a)
       | _, _ => Raises (TorchError "sizes do not match")
       end.

(** [t.sum().item()] for a vector of booleans. *)
Fixpoint tensor_sum (t : list bool) : Z :=
  match t with
  | [] => 0
  | h :: rest => (if h then 1 else 0) + tensor_sum rest
  end.

Definition true_div (a b : Z) : outcome F :=
  if (b =? 0)%Z then Raises ZeroDivisionError else Returns (int_true_div a b).

Definition my_acc (y_hat : list (list number)) (y : list Z) : outcome F :=
  argmax_y_hat <-! argmax_dim1 y_hat ;;
  matches <-! tensor_eq argmax_y_hat y ;;
  true_div (tensor_sum matches) (Z.of_nat (length y)).

(** ** The loops over the batches, lines 162-185 and 208-228

    What the model and the loss give on a batch is observed, not computed:
    [observe] stands for lines 165-167 (212-214) and returns the output of
    the model, the targets, the loss and [x.size(0)]; [record] stands for
    the updates of the metrics (lines 171-178, 218-225) and [optimize] for
    the step of the optimizer (lines 183-185), which validation has not. *)
Section Batches.
Context {B : Type}.
Context (observe : B -> outcome (list (list number) * list Z * F * Z)).
Context (record : B -> outcome unit).
Context (optimize : B -> outcome unit).

Record meters : Type := Meters {
  losses : AverageMeter;
  accs : AverageMeter
}.

(** The body of the loop, after the test of the limit. *)
Definition batch_step (training : bool) (b : B) (m : meters) : outcome meters :=
  o <-! observe b ;;
  let '(output, y, loss, size0) := o in
  acc <-! my_acc output y ;;
  _ <-! record b ;;
  match update (losses m) loss size0 with
  | (_, Some e) => Raises e
  | (losses', None) =>
      match update (accs m) acc size0 with
      | (_, Some e) => Raises e
      | (accs', None) =>
          _ <-! (if training then optimize b else Returns tt) ;;
          Returns (Meters losses' accs')
      end
  end.

(** [for t, batch in enumerate(loader): if t > limit: break; ...], from
    index [t] on. *)
Fixpoint batch_loop (training : bool) (limit : Z) (t : Z) (loader : list B)
    (m : meters) : outcome meters :=
  match loader with
  | [] => Returns m
  | b :: rest =>
      if (limit <? t)%Z then Returns m
      else m' <-! batch_step training b m ;;
           batch_loop training limit (t + 1) rest m'
  end.

(** Lines 153-156 and one of the two loops: the meters of the epoch. *)
Definition run_batches (training : bool) (limit : Z) (loader : list B)
  : outcome meters :=
  batch_loop training limit 0 loader (Meters fresh fresh).

(** [x.size(0)] as observed on a batch. *)
Definition size0_of (b : B) : Z :=
  match observe b with
  | Returns (_, _, _, size0) => size0
  | Raises _ => 0
  end.

End Batches.
End WithFloat.

(** The number of samples that a run of calls of [update] declares. *)
Definition samples {F : Type} (calls : list (F * Z)) : Z :=
  fold_right (fun c s => (snd c + s)%Z) 0%Z calls.

(** [i] is the index of the first greatest entry of [row]. *)
Definition first_max (row : list number) (i : Z) : Prop :=
  (0 <= i)%Z /\
  exists v, row !! Z.to_nat i = Some v /\
    (forall j w, row !! j = Some w -> (w <= v)%Qc) /\
    (forall j w, (j < Z.to_nat i)%nat -> row !! j = Some w -> (w < v)%Qc).

(** ** The loop over the epochs, lines 152-301

    The two averages that an epoch hands to the control of the loop enter
    it through the comparisons of lines 248 and 261 only.  The validation
    accuracy is an average of ratios of integers, a finite float, and is
    the rational that it denotes.  The validation loss is any float, not
    a number and the infinities included. *)

Inductive pyfloat : Type :=
| Finite (x : number)
| PosInf
| NegInf
| NaN.

(** [a < b] on floats: false as soon as one side is not a number. *)
Definition float_ltb (a b : pyfloat) : bool :=
  match a, b with
  | NaN, _ => false
  | _, NaN => false
  | _, NegInf => false
  | NegInf, _ => true
  | PosInf, _ => false
  | Finite _, PosInf => true
  | Finite x, Finite y => num_ltb x y
  end.

Record Constants : Type := {
  EARLY_STOP_PATIENCE : Z;
  CHECKPOINT_FREQ : Z;
  LOG_EXAMPLE_FREQUENCY : Z
}.

(** What a run leaves behind, in order: the line printed at line 230, the
    line printed at line 254, and the checkpoints and plots written. *)
Inductive event : Type :=
| Validated (epoch : Z) (val_loss : pyfloat) (val_accuracy : number)
| StoppedEarly (epoch : Z)
| SavedBest (epoch : Z) (val_loss : pyfloat)
| SavedEpoch (epoch : Z)
| LoggedExample (epoch : Z)
| SavedLatest.

Record control : Type := Control {
  early_stop_count : Z;
  last_val_acc : number;
  best_loss : pyfloat
}.

Definition T (A : Type) : Type := list event -> outcome A * list event.

Definition tret {A} (a : A) : T A := fun log => (Returns a, log).

Definition tbind {A B} (m : T A) (k : A -> T B) : T B :=
  fun log =>
    match m log with
    | (Returns a, log') => k a log'
    | (Raises e, log') => (Raises e, log')
    end.

Definition emit (e : event) : T unit := fun log => (Returns tt, log ++ [e])%list.

Definition tlift {A} (r : outcome A) : T A := fun log => (r, log).

Notation "x <~ m ;; k" := (tbind m (fun x => k))
  (at level 100, m at next level, right associativity) : train_scope.
Notation "m ;;~ k" := (tbind m (fun _ => k))
  (at level 100, right associativity) : train_scope.

(** [a % b == 0] for Python ints. *)
Definition divides_py (a b : Z) : outcome bool :=
  if (b =? 0)%Z then Raises ZeroDivisionError else Returns (a mod b =? 0)%Z.

Definition num_leb (x y : number) : bool := Qle_bool (this x) (this y).

Section Epochs.
Context (constants : Constants).
(** Lines 153-228 of an epoch: the validation loss and accuracy. *)
Context (run_epoch : Z -> outcome (pyfloat * number)).
(** Lines 238-242. *)
Context (log_scalars : Z -> outcome unit).
(** Lines 281-290. *)
Context (log_example : Z -> outcome unit).

(** Lines 248-252. *)
Definition note_accuracy (val_accuracy : number) (c : control) : control :=
  if num_leb (val_accuracy - last_val_acc c)%Qc 0%Qc
  then Control (early_stop_count c + 1) (last_val_acc c) (best_loss c)
  else Control 0 val_accuracy (best_loss c).

(** [val_loss < best_loss], line 261. *)
Definition improves (val_loss : pyfloat) (c : control) : bool :=
  float_ltb val_loss (best_loss c).

(** Lines 261-268. *)
Definition save_best (epoch : Z) (val_loss : pyfloat) (c : control) : T control :=
  if improves val_loss c && (5 <? epoch)%Z
  then emit (SavedBest epoch val_loss) ;;~
       tret (Control (early_stop_count c) (last_val_acc c) val_loss)
  else tret c.

(** Lines 270-276. *)
Definition save_epoch (epoch : Z) : T unit :=
  due <~ tlift (divides_py epoch (CHECKPOINT_FREQ constants)) ;;
  if due then emit (SavedEpoch epoch) else tret tt.

(** Lines 280-290; [or] does not evaluate its second operand when the
    first holds. *)
Definition plot_example (epoch : Z) : T unit :=
  due <~ (if (epoch <? 5)%Z then tret true
          else tlift (divides_py epoch (LOG_EXAMPLE_FREQUENCY constants))) ;;
  if due then tlift (log_example epoch) ;;~ emit (LoggedExample epoch)
  else tret tt.

(** The body of the loop of line 152; the boolean tells whether [break]
    was reached. *)
Definition epoch_body (epoch : Z) (c : control) : T (control * bool) :=
  v <~ tlift (run_epoch epoch) ;;
  let '(val_loss, val_accuracy) := v in
  emit (Validated epoch val_loss val_accuracy) ;;~
  tlift (log_scalars epoch) ;;~
  let c := note_accuracy val_accuracy c in
  if (EARLY_STOP_PATIENCE constants <=? early_stop_count c)%Z
  then emit (StoppedEarly epoch) ;;~ tret (c, true)
  else
    c <~ save_best epoch val_loss c ;;
    save_epoch epoch ;;~
    plot_example epoch ;;~
    tret (c, false).

Fixpoint epochs_loop (epochs : list Z) (c : control) : T control :=
  match epochs with
  | [] => tret c
  | epoch :: rest =>
      r <~ epoch_body epoch c ;;
      let '(c', stop) := r in
      if stop then tret c' else epochs_loop rest c'
  end.

(** [range(1, max_epochs + 1)]. *)
Definition epoch_range (max_epochs : Z) : list Z :=
  map Z.of_nat (seq 1 (Z.to_nat max_epochs)).

(** Lines 122-128: the state before the first epoch. *)
Definition initial : control := Control 0 0%Qc PosInf.

(** [main] from line 152 on. *)
Definition main (max_epochs : Z) : T unit :=
  epochs_loop (epoch_range max_epochs) initial ;;~
  emit SavedLatest.

(** The states in which the loop over the epochs, started in control
    state [c0] with log [log0], begins an iteration: [reaches c0 log0 done c
    log] after the epochs [done], none of which reached the [break]. *)
Inductive reaches (c0 : control) (log0 : list event)
  : list Z -> control -> list event -> Prop :=
| reaches_here : reaches c0 log0 [] c0 log0
| reaches_more done c log epoch c' log' :
    reaches c0 log0 done c log ->
    epoch_body epoch c log = (Returns (c', false), log') ->
    reaches c0 log0 (done ++ [epoch]) c' log'.

End Epochs.

(** *** Reading a log *)

(** The validation accuracies of the epochs of a log, in order. *)
Definition accuracies (log : list event) : list number :=
  omap (fun ev => match ev with Validated _ _ a => Some a | _ => None end) log.

Definition num_max (x y : number) : number := if num_ltb x y then y else x.

(** The best accuracy among [accs], and [0] if none is positive. *)
Definition running_best (accs : list number) : number :=
  fold_left num_max accs 0%Qc.

(** None of the accuracies [suf], which follow [pre], exceeds the best of
    [pre]: the epochs of [suf] brought no improvement. *)
Definition stale (pre suf : list number) : Prop :=
  Forall (fun a => (a <= running_best pre)%Qc) suf.

(** The epoch and loss of the last [SavedBest] of a log: what [best.ckpt]
    holds in the end. *)
Fixpoint best_saved (log : list event) : option (Z * pyfloat) :=
  match log with
  | [] => None
  | ev :: rest =>
      match best_saved rest with
      | Some b => Some b
      | None =>
          match ev with
          | SavedBest epoch val_loss => Some (epoch, val_loss)
          | _ => None
          end
      end
  end.
End Train.

(** ** Notions used to state the properties of the loop over the epochs *)

(** What lines 248-252 maintain: the accuracy to beat is the best so far,
    and the counter is the length of the longest run of epochs without
    improvement that ends the history. *)
Definition control_inv (c : Train.control) (accs : list number) : Prop :=
  Train.last_val_acc c = Train.running_best accs /\
  (exists pre suf,
     accs = (pre ++ suf)%list /\
     Z.of_nat (length suf) = Train.early_stop_count c /\
     Train.stale pre suf) /\
  (forall pre suf,
     accs = (pre ++ suf)%list -> Train.stale pre suf ->
     (Z.of_nat (length suf) <= Train.early_stop_count c)%Z).

(** The events of an epoch that returns to the head of the loop. *)
Definition epoch_events (FREQ e : Z) (l : Train.pyfloat) (a : number) (best : bool)
    (plots : list Train.event) : list Train.event :=
  ([Train.Validated e l a]
     ++ (if best then [Train.SavedBest e l] else [])
     ++ (if (e mod FREQ =? 0)%Z then [Train.SavedEpoch e] else [])
     ++ plots)%list.

(** ** A training session

    Floats are binary64; the integers converted are small enough to be
    converted exactly.  Ten epochs are allowed, with a patience of two:
    the validation accuracy rises up to the sixth epoch and then falls
    back; the validation loss is not a number in the sixth epoch and
    least in the seventh. *)
Module Session.

Definition float_of_int (z : Z) : PrimFloat.float :=
  match z with
  | Z0 => PrimFloat.zero
  | Zpos _ => PrimFloat.of_uint63 (Uint63.of_Z z)
  | Zneg p => PrimFloat.opp (PrimFloat.of_uint63 (Uint63.of_Z (Zpos p)))
  end.

#[global] Instance binary64 : PyFloat PrimFloat.float := {|
  float_zero := PrimFloat.zero;
  float_mul_int v n := PrimFloat.mul v (float_of_int n);
  float_add := PrimFloat.add;
  float_div_int v n := PrimFloat.div v (float_of_int n);
  int_true_div a b := PrimFloat.div (float_of_int a) (float_of_int b)
|}.

Definition half : PrimFloat.float := PrimFloat.div (float_of_int 1) (float_of_int 2).
Definition quarter : PrimFloat.float := PrimFloat.div (float_of_int 1) (float_of_int 4).

(** A batch is what is observed on it. *)
Definition batch : Type := list (list number) * list Z * PrimFloat.float * Z.

Definition observe (b : batch) : Train.outcome batch := Train.Returns b.
Definition record (_ : batch) : Train.outcome unit := Train.Returns tt.

Definition logits : list (list number) :=
  [[Q2Qc 1; Q2Qc 3; Q2Qc 2]; [Q2Qc 5; Q2Qc 4; Q2Qc 5]].

Definition loader : list batch :=
  [(logits, [1; 0]%Z, half, 2%Z);
   (logits, [1; 2]%Z, quarter, 2%Z);
   (logits, [0; 1]%Z, half, 2%Z)].

Definition constants : Train.Constants := {|
  Train.EARLY_STOP_PATIENCE := 2;
  Train.CHECKPOINT_FREQ := 3;
  Train.LOG_EXAMPLE_FREQUENCY := 4
|}.

Definition run_epoch (epoch : Z) : Train.outcome (Train.pyfloat * number) :=
  Train.Returns
    (if (epoch <=? 5)%Z then Train.Finite 1%Qc
     else if (epoch =? 6)%Z then Train.NaN
     else if (epoch =? 7)%Z then Train.Finite (Q2Qc 2)
     else Train.Finite (Q2Qc 3),
     if (epoch <=? 6)%Z then Q2Qc (epoch # 10) else Q2Qc (1 # 2)).

Definition quiet (_ : Z) : Train.outcome unit := Train.Returns tt.

Definition run : Train.outcome unit * list Train.event :=
  Train.main constants run_epoch quiet quiet 10 [].

End Session.

(** * Properties *)

(** ** Numbers *)

Lemma num_eqb_eq (x y : number) : num_eqb x y = true <-> x = y.
Proof.
  unfold num_eqb. rewrite Qeq_bool_iff. split.
  - apply Qc_is_canon.
  - intros ->. reflexivity.
Qed.

Lemma num_eqb_neq (x y : number) : num_eqb x y = false <-> x <> y.
Proof.
  rewrite <- num_eqb_eq. destruct (num_eqb x y); split; congruence.
Qed.

Lemma num_ltb_lt (x y : number) : num_ltb x y = true <-> (x < y)%Qc.
Proof.
  unfold num_ltb, Qclt.
  rewrite negb_true_iff, <- not_true_iff_false, Qle_bool_iff.
  split; [apply Qnot_le_lt | apply Qlt_not_le].
Qed.

Lemma num_ltb_ge (x y : number) : num_ltb x y = false <-> (y <= x)%Qc.
Proof.
  unfold num_ltb, Qcle. rewrite negb_false_iff. apply Qle_bool_iff.
Qed.

Lemma dyadic_mid k n :
  ((dyadic k n + dyadic (k + 1) n) / 2)%Qc = dyadic (2 * k + 1) (S n).
Proof.
  apply Qc_is_canon. unfold dyadic.
  unfold Qcdiv, Qcmult, Qcplus, Qcinv, Q2Qc, this. rewrite !Qred_correct.
  unfold Qeq. simpl. lia.
Qed.

Lemma dyadic_lift k n : dyadic k n = dyadic (2 * k) (S n).
Proof.
  apply Qc_is_canon. unfold dyadic. simpl. rewrite !Qred_correct.
  unfold Qeq. simpl. lia.
Qed.

Lemma dyadic_width k n : (dyadic (k + 1) n - dyadic k n)%Qc = dyadic 1 n.
Proof.
  apply Qc_is_canon. unfold dyadic.
  unfold Qcminus, Qcopp, Qcplus, Q2Qc, this. rewrite !Qred_correct.
  unfold Qeq. simpl. lia.
Qed.

Lemma dyadic_lt k k' n : (k < k')%Z -> (dyadic k n < dyadic k' n)%Qc.
Proof.
  intros H. unfold Qclt, dyadic. simpl. rewrite !Qred_correct.
  unfold Qlt. simpl. nia.
Qed.

Lemma dyadic_le k k' n : (k <= k')%Z -> (dyadic k n <= dyadic k' n)%Qc.
Proof.
  intros H. unfold Qcle, dyadic. simpl. rewrite !Qred_correct.
  unfold Qle. simpl. nia.
Qed.

Lemma dyadic_0 n : dyadic 0 n = 0%Qc.
Proof. apply Qc_is_canon. unfold dyadic. simpl. rewrite Qred_correct. reflexivity. Qed.

Lemma pow2_Z n : Z.pos (pow2 n) = (2 ^ Z.of_nat n)%Z.
Proof.
  induction n as [| n IH].
  - reflexivity.
  - rewrite Nat2Z.inj_succ, Z.pow_succ_r by lia. rewrite <- IH. reflexivity.
Qed.

Lemma dyadic_full n : dyadic (2 ^ Z.of_nat n) n = 1%Qc.
Proof.
  apply Qc_is_canon. unfold dyadic. simpl. rewrite !Qred_correct.
  rewrite <- pow2_Z. unfold Qeq. simpl. lia.
Qed.

Lemma pow2_ge n : (8 <= n)%nat -> (256 <= pow2 n)%positive.
Proof. induction 1; simpl; [reflexivity | lia]. Qed.

(** The loop guard on an interval of width [1 / 2^n]. *)
Lemma guard_dyadic n : num_ltb lit_0_005 (dyadic 1 n) = (n <? 8)%nat.
Proof.
  destruct (Nat.ltb_spec n 8) as [H | H].
  - do 8 (destruct n as [| n]; [reflexivity |]). lia.
  - apply not_true_iff_false. rewrite num_ltb_lt.
    pose proof (pow2_ge n H) as Hp.
    unfold Qclt, lit_0_005, dyadic. simpl. rewrite !Qred_correct.
    unfold Qlt. simpl. lia.
Qed.

(** On every interval the loop can reach, binary64 arithmetic agrees with
    the exact arithmetic of the model. *)
Lemma binary64_exact :
  forallb (fun n => forallb (binary64_exact_at n) (seq 0 (2 ^ n))) (seq 0 9)
  = true.
Proof. vm_compute. reflexivity. Qed.

(** ** Tables *)

Lemma assoc_get_None (results : table) k :
  assoc_get num_eqb results k = None <-> k ∉ keys results.
Proof.
  induction results as [| [k' v] results IH]; simpl.
  - split; [intros _; apply not_elem_of_nil | reflexivity].
  - rewrite not_elem_of_cons. destruct (num_eqb k' k) eqn:E.
    + apply num_eqb_eq in E. split; [discriminate | intros [H _]; congruence].
    + apply num_eqb_neq in E. rewrite IH. split; [intros H; split; congruence | tauto].
Qed.

Lemma assoc_get_Some (results : table) k s :
  assoc_get num_eqb results k = Some s -> (k, s) ∈ results.
Proof.
  induction results as [| [k' v] results IH]; simpl; [discriminate |].
  destruct (num_eqb k' k) eqn:E.
  - apply num_eqb_eq in E. intros [= ->]. subst. apply list_elem_of_here.
  - intros H. apply list_elem_of_further, IH, H.
Qed.

Lemma elem_of_keys (results : table) k s : (k, s) ∈ results -> k ∈ keys results.
Proof.
  intros H. apply list_elem_of_In. apply list_elem_of_In in H.
  apply (in_map fst) in H. exact H.
Qed.

Lemma assoc_set_fresh (results : table) k (s : scores) :
  assoc_get num_eqb results k = None ->
  assoc_set num_eqb results k s = (results ++ [(k, s)])%list.
Proof.
  induction results as [| [k' v] results IH]; simpl; [reflexivity |].
  destruct (num_eqb k' k); [discriminate |].
  intros H. rewrite IH by exact H. reflexivity.
Qed.

Lemma assoc_get_In (results : table) k :
  k ∈ keys results -> exists s, assoc_get num_eqb results k = Some s.
Proof.
  intros H. destruct (assoc_get num_eqb results k) eqn:E; [eauto |].
  apply assoc_get_None in E. contradiction.
Qed.

Section Scoring.
Context (penne : Penne) (name model_name : string).
Context (t : totals) (stems : list string).

Local Abbreviation evaluate := (evaluate_at_threshold penne name model_name t).
Local Abbreviation curve := (scores_at penne name model_name t stems).

Lemma evaluate_at_threshold_run x w :
  evaluate x stems w
  = (Some (curve (fs w) x), World (fs w) (stdout w ++ [x])).
Proof.
  unfold evaluate_at_threshold, scores_at, bind, print_evaluating, reading, ret.
  simpl. destruct (score_stems _ _ _ _ _ _); reflexivity.
Qed.

Lemma scores_at_f1 d x s :
  curve d x = Ok s -> exists v, s !! "f1" = Some v.
Proof.
  unfold scores_at. destruct (score_stems _ _ _ _ _ _) as [a | e]; simpl; [| discriminate].
  intros [= <-]. unfold metric_bundle.
  destruct (compute (f1 penne a)) as [[precision recall] f1_val].
  exists f1_val. reflexivity.
Qed.

Context (d : files) (out0 : list number).

Local Abbreviation F := (F1_curve penne name model_name t stems d).
Local Abbreviation Inv := (calibration_inv penne name model_name t stems d out0).

Lemma f1_of_run side results w :
  f1_of penne name model_name t stems side results w =
  match assoc_get num_eqb results side with
  | Some s => (Some (Ok (default 0%Qc (s !! "f1"), results)), w)
  | None =>
      (Some (result_bind (curve (fs w) side) (fun s =>
             result_bind (index s "f1") (fun v =>
             Ok (v, assoc_set num_eqb results side s)))),
       World (fs w) (stdout w ++ [side]))
  end.
Proof.
  unfold f1_of. destruct (assoc_get num_eqb results side); [reflexivity |].
  unfold bind. rewrite evaluate_at_threshold_run.
  destruct (curve (fs w) side) as [s | e]; simpl; [| reflexivity].
  unfold lift. destruct (index s "f1"); reflexivity.
Qed.

Lemma f1_of_inv side results w :
  Inv results w ->
  match f1_of penne name model_name t stems side results w with
  | (Some (Ok (v, results')), w') =>
      F side = Ok v /\ Inv results' w' /\
      (exists more, results' = (results ++ more)%list) /\
      side ∈ keys results'
  | (Some (Raise e), w') =>
      F side = Raise e /\ fs w' = d /\
      stdout w' = (out0 ++ keys results ++ [side])%list /\
      side ∉ keys results
  | (None, _) => False
  end.
Proof.
  intros (Hfs & Hout & Hnd & Hsound). rewrite f1_of_run.
  destruct (assoc_get num_eqb results side) as [s |] eqn:Hget.
  - pose proof (assoc_get_Some _ _ _ Hget) as Hin.
    assert (Hs : curve d side = Ok s).
    { unfold table_sound in Hsound. rewrite Forall_forall in Hsound.
      apply (Hsound (side, s)), Hin. }
    destruct (scores_at_f1 _ _ _ Hs) as [v Hv].
    split; [| split; [| split]].
    + unfold F1_curve. rewrite Hs. simpl. unfold index. rewrite Hv. reflexivity.
    + repeat split; assumption.
    + exists []. symmetry. apply app_nil_r.
    + apply (elem_of_keys _ _ _ Hin).
  - pose proof (proj1 (assoc_get_None _ _) Hget) as Hnotin.
    rewrite Hfs. unfold F1_curve.
    destruct (curve d side) as [s | e] eqn:Hs; simpl.
    + destruct (scores_at_f1 _ _ _ Hs) as [v Hv].
      unfold index. rewrite Hv. simpl.
      rewrite (assoc_set_fresh _ _ _ Hget).
      split; [reflexivity |]. split; [| split].
      * unfold calibration_inv, keys. simpl. rewrite map_app. simpl.
        split; [reflexivity |]. split; [rewrite Hout, app_assoc; reflexivity |].
        split.
        -- apply NoDup_app. split; [exact Hnd |]. split.
           ++ intros x Hx Hx'. apply list_elem_of_singleton in Hx'. subst. contradiction.
           ++ apply NoDup_singleton.
        -- apply Forall_app. split; [exact Hsound |].
           apply Forall_singleton. exact Hs.
      * eexists. reflexivity.
      * unfold keys. rewrite map_app. apply elem_of_app. right.
        apply list_elem_of_here.
    + split; [reflexivity |]. split; [reflexivity |].
      split; [| exact Hnotin]. rewrite Hout, app_assoc. reflexivity.
Qed.

Lemma iteration_inv s w :
  Inv (hparam_results s) w ->
  match iteration penne name model_name t stems s w with
  | (Some (Ok s'), w') =>
      bisect_step F (bounds s) = Ok (bounds s') /\
      Inv (hparam_results s') w' /\
      (exists more, hparam_results s' = (hparam_results s ++ more)%list) /\
      left s ∈ keys (hparam_results s') /\
      right s ∈ keys (hparam_results s')
  | (Some (Raise e), w') =>
      bisect_step F (bounds s) = Raise e /\ fs w' = d /\
      exists calls, stdout w' = (out0 ++ calls)%list /\ NoDup calls
  | (None, _) => False
  end.
Proof.
  intros HI. unfold iteration, bind, bisect_step, bounds.
  pose proof (f1_of_inv (left s) _ _ HI) as H1.
  destruct (f1_of _ _ _ _ _ (left s) _ w) as [[[[left_f1 results1] | e] |] w1].
  - destruct H1 as (HF1 & HI1 & [more1 Hmore1] & Hin1).
    pose proof (f1_of_inv (right s) _ _ HI1) as H2.
    destruct (f1_of _ _ _ _ _ (right s) _ w1) as [[[[right_f1 results2] | e] |] w2].
    + destruct H2 as (HF2 & HI2 & [more2 Hmore2] & Hin2).
      rewrite HF1, HF2. simpl.
      assert (Hkeep : left s ∈ keys results2).
      { subst results2. unfold keys in *. rewrite map_app.
        apply elem_of_app. left. exact Hin1. }
      assert (Hext : exists more, results2 = (hparam_results s ++ more)%list).
      { exists (more1 ++ more2)%list. rewrite Hmore2, Hmore1, app_assoc. reflexivity. }
      destruct (num_ltb left_f1 right_f1); unfold ret; simpl; auto.
    + destruct H2 as (HF2 & Hfs2 & Hout2 & Hnotin2).
      rewrite HF1, HF2. simpl. split; [reflexivity |]. split; [exact Hfs2 |].
      exists (keys results1 ++ [right s])%list. split; [exact Hout2 |].
      destruct HI1 as (_ & _ & Hnd1 & _).
      apply NoDup_app. split; [exact Hnd1 |]. split; [| apply NoDup_singleton].
      intros x Hx Hx'. apply list_elem_of_singleton in Hx'. subst. contradiction.
    + exact H2.
  - destruct H1 as (HF1 & Hfs1 & Hout1 & Hnotin1).
    rewrite HF1. simpl. split; [reflexivity |]. split; [exact Hfs1 |].
    exists (keys (hparam_results s) ++ [left s])%list. split; [exact Hout1 |].
    destruct HI as (_ & _ & Hnd & _).
    apply NoDup_app. split; [exact Hnd |]. split; [| apply NoDup_singleton].
    intros x Hx Hx'. apply list_elem_of_singleton in Hx'. subst. contradiction.
  - exact H1.
Qed.

Lemma calibrate_inv fuel : forall s w,
  Inv (hparam_results s) w ->
  match calibrate penne name model_name fuel t stems s w with
  | (o, w') =>
      outcome_map bounds o = bisect fuel F (bounds s) /\
      fs w' = d /\
      (exists calls, stdout w' = (out0 ++ calls)%list /\ NoDup calls) /\
      (forall s', o = Some (Ok s') ->
         Inv (hparam_results s') w' /\
         exists more, hparam_results s' = (hparam_results s ++ more)%list)
  end.
Proof.
  induction fuel as [| fuel IH]; intros s w HI;
    cbn [calibrate bisect bounds fst snd];
    destruct (num_ltb lit_0_005 (right s - left s)) eqn:Hguard.
  - unfold out_of_fuel. simpl. destruct HI as (Hfs & Hout & Hnd & Hsound).
    split; [reflexivity |]. split; [exact Hfs |].
    split; [eauto |]. discriminate.
  - unfold ret. simpl. split; [reflexivity |].
    split; [apply HI |]. split; [destruct HI as (_ & Hout & Hnd & _); eauto |].
    intros s' [= <-]. split; [exact HI |]. exists []. symmetry. apply app_nil_r.
  - unfold bind. pose proof (iteration_inv s w HI) as Hit.
    destruct (iteration _ _ _ _ _ s w) as [[[s1 | e] |] w1].
    + destruct Hit as (Hstep & HI1 & [more1 Hmore1] & _).
      rewrite Hstep. specialize (IH s1 w1 HI1).
      destruct (calibrate _ _ _ fuel _ _ s1 w1) as [o w'].
      destruct IH as (Href & Hfs & Hcalls & Hok).
      split; [exact Href |]. split; [exact Hfs |]. split; [exact Hcalls |].
      intros s' Hs'. destruct (Hok s' Hs') as [HI' [more Hmore]].
      split; [exact HI' |]. exists (more1 ++ more)%list.
      rewrite Hmore, Hmore1, app_assoc. reflexivity.
    + destruct Hit as (Hstep & Hfs & Hcalls).
      rewrite Hstep. simpl.
      split; [reflexivity |]. split; [exact Hfs |]. split; [exact Hcalls |].
      discriminate.
    + contradiction.
  - unfold ret. simpl. split; [reflexivity |].
    split; [apply HI |]. split; [destruct HI as (_ & Hout & Hnd & _); eauto |].
    intros s' [= <-]. split; [exact HI |]. exists []. symmetry. apply app_nil_r.
Qed.
End Scoring.

(** ** The search on dyadic intervals *)

Lemma bisect_step_dyadic F k n lr :
  bisect_step F (dyadic k n, dyadic (k + 1) n) = Ok lr ->
  exists k', (k' = 2 * k \/ k' = 2 * k + 1)%Z /\
             lr = (dyadic k' (S n), dyadic (k' + 1) (S n)).
Proof.
  unfold bisect_step.
  destruct (F (dyadic k n)) as [fl | e]; simpl; [| discriminate].
  destruct (F (dyadic (k + 1) n)) as [fr | e]; simpl; [| discriminate].
  rewrite dyadic_mid. destruct (num_ltb fl fr); intros [= <-].
  - exists (2 * k + 1)%Z. split; [right; reflexivity |].
    rewrite (dyadic_lift (k + 1) n). do 2 f_equal. lia.
  - exists (2 * k)%Z. split; [left; reflexivity |].
    rewrite (dyadic_lift k n). reflexivity.
Qed.

Lemma guard_dyadic_interval k n :
  num_ltb lit_0_005 (dyadic (k + 1) n - dyadic k n) = (n <? 8)%nat.
Proof. rewrite dyadic_width. apply guard_dyadic. Qed.

(** With a curve that always returns, the search on an interval of width
    [1 / 2^n] runs out of fuel below [8 - n] and ends on an interval of
    width [1 / 2^8] otherwise. *)
Lemma bisect_dyadic F (HF : forall x, exists v, F x = Ok v) fuel :
  forall n k, (n <= 8)%nat ->
    ((fuel < 8 - n)%nat ->
       bisect fuel F (dyadic k n, dyadic (k + 1) n) = None) /\
    ((8 - n <= fuel)%nat ->
       exists k', bisect fuel F (dyadic k n, dyadic (k + 1) n)
                  = Some (Ok (dyadic k' 8, dyadic (k' + 1) 8))).
Proof.
  induction fuel as [| fuel IH]; intros n k Hn;
    cbn [bisect fst snd]; rewrite guard_dyadic_interval.
  - split; intros H.
    + destruct (Nat.ltb_spec n 8); [reflexivity | lia].
    + assert (n = 8)%nat as -> by lia. simpl. eauto.
  - destruct (Nat.ltb_spec n 8) as [Hlt | Hge].
    + destruct (HF (dyadic k n)) as [fl Hfl], (HF (dyadic (k + 1) n)) as [fr Hfr].
      destruct (bisect_step F (dyadic k n, dyadic (k + 1) n)) as [lr | e] eqn:Hstep.
      * destruct (bisect_step_dyadic _ _ _ _ Hstep) as (k' & _ & ->).
        destruct (IH (S n) k' ltac:(lia)) as [IH1 IH2].
        split; intros H; [apply IH1 | apply IH2]; lia.
      * unfold bisect_step in Hstep. rewrite Hfl, Hfr in Hstep. discriminate.
    + assert (n = 8)%nat as -> by lia. split; [lia | eauto].
Qed.

(** Whatever the curve returns or raises, fuel [8 - n] is enough on an
    interval of width [1 / 2^n]. *)
Lemma bisect_terminates F fuel :
  forall n k, (n <= 8)%nat -> (8 - n <= fuel)%nat ->
    bisect fuel F (dyadic k n, dyadic (k + 1) n) <> None.
Proof.
  induction fuel as [| fuel IH]; intros n k Hn Hfuel;
    cbn [bisect fst snd]; rewrite guard_dyadic_interval.
  - assert (n = 8)%nat as -> by lia. discriminate.
  - destruct (Nat.ltb_spec n 8) as [Hlt | Hge]; [| discriminate].
    destruct (bisect_step F (dyadic k n, dyadic (k + 1) n)) as [lr | e] eqn:Hstep;
      [| discriminate].
    destruct (bisect_step_dyadic _ _ _ _ Hstep) as (k' & _ & ->).
    apply IH; lia.
Qed.

(** ** The arg-max of line 194 *)

Lemma f1_in_has results x s v :
  assoc_get num_eqb results x = Some s -> s !! "f1" = Some v ->
  f1_in results x = v.
Proof. intros H1 H2. unfold f1_in. rewrite H1, H2. reflexivity. Qed.

Lemma max_from_spec results : forall rest pre best mid,
  Forall (has_f1 results) rest ->
  Forall (fun x => (f1_in results x < f1_in results best)%Qc) pre ->
  Forall (fun x => (f1_in results x <= f1_in results best)%Qc) mid ->
  exists b before after,
    max_from results best (f1_in results best) rest = Ok b /\
    (pre ++ best :: mid ++ rest = before ++ b :: after)%list /\
    Forall (fun x => (f1_in results x < f1_in results b)%Qc) before /\
    Forall (fun x => (f1_in results x <= f1_in results b)%Qc) after.
Proof.
  induction rest as [| x rest IH]; intros pre best mid Hrest Hpre Hmid.
  - exists best, pre, mid. rewrite app_nil_r. simpl. auto.
  - apply Forall_cons in Hrest as [(s & v & Hs & Hv) Hrest]. simpl.
    rewrite Hs. simpl. unfold index. rewrite Hv. simpl.
    rewrite <- (f1_in_has _ _ _ _ Hs Hv).
    destruct (num_ltb (f1_in results best) (f1_in results x)) eqn:Hcmp.
    + apply num_ltb_lt in Hcmp.
      destruct (IH (pre ++ best :: mid)%list x [] Hrest) as (b & before & after & H).
      * apply Forall_app. split; [| apply Forall_cons; split].
        -- eapply Forall_impl; [exact Hpre |]. intros y Hy. simpl in Hy.
           eapply Qclt_trans; eassumption.
        -- exact Hcmp.
        -- eapply Forall_impl; [exact Hmid |]. intros y Hy. simpl in Hy.
           eapply Qcle_lt_trans; eassumption.
      * constructor.
      * exists b, before, after. rewrite <- app_assoc in H. simpl in H. exact H.
    + apply num_ltb_ge in Hcmp.
      destruct (IH pre best (mid ++ [x])%list Hrest Hpre) as (b & before & after & H).
      * apply Forall_app. split; [exact Hmid |]. apply Forall_singleton. exact Hcmp.
      * exists b, before, after. rewrite <- app_assoc in H. simpl in H. exact H.
Qed.

Lemma best_threshold_spec results :
  results <> [] -> Forall (has_f1 results) (keys results) ->
  exists b, best_threshold results = Ok b /\ first_argmax results b.
Proof.
  intros Hne Hall. unfold best_threshold, first_argmax.
  change (map fst results) with (keys results).
  destruct (keys results) as [| x rest] eqn:Hkeys.
  - destruct results; [contradiction | discriminate].
  - apply Forall_cons in Hall as [(s & v & Hs & Hv) Hrest].
    rewrite Hs. simpl. unfold index. rewrite Hv. simpl.
    rewrite <- (f1_in_has _ _ _ _ Hs Hv).
    destruct (max_from_spec results rest [] x [] Hrest) as (b & before & after & H);
      [constructor | constructor |].
    exists b. split; [apply H |]. exists before, after. apply H.
Qed.

Lemma table_sound_has_f1 penne name model_name t stems d results :
  table_sound penne name model_name t stems d results ->
  Forall (has_f1 results) (keys results).
Proof.
  intros Hsound. apply Forall_forall. intros x Hx.
  destruct (assoc_get_In _ _ Hx) as [s Hs].
  pose proof (assoc_get_Some _ _ _ Hs) as Hin.
  unfold table_sound in Hsound. rewrite Forall_forall in Hsound.
  destruct (scores_at_f1 _ _ _ _ _ _ _ _ (Hsound _ Hin)) as [v Hv].
  exists s, v. auto.
Qed.

(** ** Reachable configurations of the loop *)

Section Loop.
Context (penne : Penne) (name model_name : string).
Context (t : totals) (stems : list string).

Local Abbreviation steps := (loop_steps penne name model_name t stems).
Local Abbreviation run fuel := (calibrate penne name model_name fuel t stems).
Local Abbreviation body := (iteration penne name model_name t stems).

Lemma inv_init w :
  calibration_inv penne name model_name t stems (fs w) (stdout w) [] w.
Proof.
  repeat split.
  - simpl. rewrite app_nil_r. reflexivity.
  - constructor.
  - constructor.
Qed.

Lemma loop_steps_first n : forall s w s1 w1 c,
  num_ltb lit_0_005 (right s - left s)%Qc = true ->
  body s w = (Some (Ok s1), w1) ->
  steps n (s1, w1) c ->
  steps (S n) (s, w) c.
Proof.
  intros s w s1 w1 c Hguard Hbody Hsteps.
  remember (s1, w1) as c1 eqn:Hc1.
  induction Hsteps as [c1 | n s2 w2 s3 w3 c1 Hsteps IH Hguard2 Hbody2]; subst c1.
  - eapply loop_more; [apply loop_here | exact Hguard | exact Hbody].
  - eapply loop_more; [apply IH; reflexivity | exact Hguard2 | exact Hbody2].
Qed.

(** A run that returns has executed the body some number of times and
    stopped at the first configuration whose bounds are close enough. *)
Lemma calibrate_loop_steps fuel : forall s w s' w',
  run fuel s w = (Some (Ok s'), w') ->
  exists n, (n <= fuel)%nat /\ steps n (s, w) (s', w') /\
            num_ltb lit_0_005 (right s' - left s')%Qc = false.
Proof.
  induction fuel as [| fuel IH]; intros s w s' w'; cbn [calibrate];
    destruct (num_ltb lit_0_005 (right s - left s)) eqn:Hguard.
  - discriminate.
  - intros [= <- <-]. exists 0%nat. split; [lia |]. split; [constructor | exact Hguard].
  - unfold bind. destruct (body s w) as [[[s1 | e] |] w1] eqn:Hbody; try discriminate.
    intros Hrun. destruct (IH _ _ _ _ Hrun) as (n & Hn & Hsteps & Hstop).
    exists (S n). split; [lia |]. split; [| exact Hstop].
    eapply loop_steps_first; eassumption.
  - intros [= <- <-]. exists 0%nat. split; [lia |]. split; [constructor | exact Hguard].
Qed.

Lemma dyadic_init : 0%Qc = dyadic 0 0 /\ 1%Qc = dyadic (0 + 1) 0.
Proof. split; apply Qc_is_canon; reflexivity. Qed.

Lemma loop_steps_inv w0 n s w :
  steps n (Search 0 1 [], w0) (s, w) ->
  calibration_inv penne name model_name t stems (fs w0) (stdout w0)
    (hparam_results s) w /\
  (n <= 8)%nat /\
  (exists k, (0 <= k < 2 ^ Z.of_nat n)%Z /\
             left s = dyadic k n /\ right s = dyadic (k + 1) n) /\
  ((1 <= n)%nat ->
     0%Qc ∈ keys (hparam_results s) /\ 1%Qc ∈ keys (hparam_results s)).
Proof.
  remember (Search 0 1 [], w0) as c0 eqn:Hc0.
  remember (s, w) as c eqn:Hc. intros Hsteps. revert s w Hc.
  induction Hsteps as [| n s1 w1 s2 w2 c1 Hsteps IH Hguard Hbody]; intros s w Hc.
  - subst. injection Hc as <- <-. split; [apply inv_init |]. split; [lia |].
    split; [| lia]. exists 0%Z. simpl.
    pose proof dyadic_init as [H0 H1]. split; [lia | split; assumption].
  - injection Hc as <- <-.
    destruct (IH Hc0 s1 w1 eq_refl) as (HI & Hn & (k & Hk & Hl & Hr) & Hkeys).
    pose proof (iteration_inv _ _ _ _ _ _ _ s1 w1 HI) as Hit.
    rewrite Hbody in Hit. destruct Hit as (Hstep & HI2 & [more Hmore] & Hin0 & Hin1).
    rewrite Hl, Hr, guard_dyadic_interval in Hguard. apply Nat.ltb_lt in Hguard.
    unfold bounds in Hstep. rewrite Hl, Hr in Hstep.
    destruct (bisect_step_dyadic _ _ _ _ Hstep) as (k' & Hk' & Heq).
    apply pair_equal_spec in Heq as [Hl2 Hr2].
    split; [exact HI2 |]. split; [lia |]. split.
    + exists k'. split; [| split; assumption].
      rewrite Nat2Z.inj_succ, Z.pow_succ_r by lia. lia.
    + intros _. destruct n as [| n].
      * assert (k = 0%Z) as -> by (simpl in Hk; lia).
        destruct dyadic_init as [H0 H1]. rewrite H0, H1, <- Hl, <- Hr.
        split; assumption.
      * destruct (Hkeys ltac:(lia)) as [H0 H1].
        rewrite Hmore. unfold keys in *. rewrite map_app.
        split; apply elem_of_app; left; assumption.
Qed.

Lemma dyadic_unit_interval k n :
  (0 <= k < 2 ^ Z.of_nat n)%Z ->
  (0 <= dyadic k n)%Qc /\ (dyadic k n < dyadic (k + 1) n)%Qc /\
  (dyadic (k + 1) n <= 1)%Qc.
Proof.
  intros Hk. split; [| split].
  - rewrite <- (dyadic_0 n). apply dyadic_le. lia.
  - apply dyadic_lt. lia.
  - rewrite <- (dyadic_full n). apply dyadic_le. lia.
Qed.
End Loop.

(** ** The calibration loop *)

(** C1.  Every execution of the loop body compares the F1 of [left] and of
    [right] (freshly scored or taken from the table), and moves [left] to
    the centre when the F1 of [right] is greater and [right] otherwise; and
    the whole loop, started at [left = 0], [right = 1], is the search
    [bisect], which repeats that step exactly while
    [right - left > 0.005]. *)
Theorem calibrate_refines_bisect penne name model_name t hparam_stems w :
  (forall n s w',
     loop_steps penne name model_name t hparam_stems n (Search 0 1 [], w) (s, w') ->
     outcome_map bounds (fst (iteration penne name model_name t hparam_stems s w'))
     = Some (bisect_step (F1_curve penne name model_name t hparam_stems (fs w))
               (left s, right s))) /\
  (forall fuel,
     outcome_map bounds
       (fst (calibrate penne name model_name fuel t hparam_stems (Search 0 1 []) w))
     = bisect fuel (F1_curve penne name model_name t hparam_stems (fs w))
         (0%Qc, 1%Qc)).
Proof.
  split.
  - intros n s w' Hsteps.
    destruct (loop_steps_inv _ _ _ _ _ _ _ _ _ Hsteps) as (HI & _).
    pose proof (iteration_inv _ _ _ _ _ _ _ s w' HI) as Hit.
    destruct (iteration _ _ _ _ _ s w') as [[[s1 | e] |] w1]; simpl.
    + destruct Hit as (Hstep & _). rewrite <- Hstep. reflexivity.
    + destruct Hit as (Hstep & _). rewrite <- Hstep. reflexivity.
    + contradiction.
  - intros fuel.
    pose proof (calibrate_inv penne name model_name t hparam_stems (fs w) (stdout w)
                  fuel (Search 0 1 []) w (inv_init _ _ _ _ _ w)) as H.
    destruct (calibrate _ _ _ _ _ _ _ w) as [o w']. apply H.
Qed.


(** C5.  The loop always ends: with fuel 8 or more a run returns or raises,
    whatever the scoring does.  When scoring returns at every threshold, it
    ends after exactly [8 = ceil (log2 (1 / 0.005))] executions of its
    body: with less fuel than 8 it is still running, with 8 or more it
    returns, and the bounds are then [1 / 2^8 <= 0.005] apart. *)
Theorem calibration_takes_eight_iterations penne name model_name t hparam_stems w :
  Z.to_nat (Z.log2_up (1000 / 5)) = 8%nat /\
  (forall fuel, (8 <= fuel)%nat ->
     fst (calibrate penne name model_name fuel t hparam_stems (Search 0 1 []) w)
     <> None) /\
  ((forall x, exists v,
       F1_curve penne name model_name t hparam_stems (fs w) x = Ok v) ->
   (forall fuel, (fuel < 8)%nat ->
      fst (calibrate penne name model_name fuel t hparam_stems (Search 0 1 []) w)
      = None) /\
   (forall fuel, (8 <= fuel)%nat ->
      exists s,
        fst (calibrate penne name model_name fuel t hparam_stems (Search 0 1 []) w)
        = Some (Ok s) /\
        (right s - left s)%Qc = dyadic 1 8 /\
        (right s - left s <= lit_0_005)%Qc)).
Proof.
  split; [reflexivity |].
  assert (Href : forall fuel,
    outcome_map bounds
      (fst (calibrate penne name model_name fuel t hparam_stems (Search 0 1 []) w))
    = bisect fuel (F1_curve penne name model_name t hparam_stems (fs w))
        (dyadic 0 0, dyadic (0 + 1) 0)).
  { intros fuel. destruct dyadic_init as [<- <-].
    pose proof (calibrate_inv penne name model_name t hparam_stems (fs w) (stdout w)
                  fuel (Search 0 1 []) w (inv_init _ _ _ _ _ w)) as H.
    destruct (calibrate _ _ _ _ _ _ _ w) as [o w']. apply H. }
  split.
  - intros fuel Hfuel Hnone. specialize (Href fuel). rewrite Hnone in Href.
    symmetry in Href. revert Href. apply bisect_terminates; lia.
  - intros Hreturns.
    split; intros fuel Hfuel; specialize (Href fuel);
      destruct (bisect_dyadic _ Hreturns fuel 0 0 ltac:(lia)) as [Hlow Hhigh].
    + rewrite Hlow in Href by lia.
      destruct (fst (calibrate _ _ _ _ _ _ _ w)) as [[? | ?] |];
        [discriminate.. | reflexivity].
    + destruct Hhigh as [k' Hk']; [lia |]. rewrite Hk' in Href.
      destruct (fst (calibrate _ _ _ _ _ _ _ w)) as [[s | ?] |]; try discriminate.
      exists s. split; [reflexivity |]. simpl in Href.
      injection Href as Hl Hr. rewrite Hl, Hr, dyadic_width.
      split; [reflexivity |]. apply num_ltb_ge. apply (guard_dyadic 8).
Qed.

(** When the loop returns, the table holds [0] and [1], and line 194 picks
    the first key of greatest F1. *)
Lemma calibrate_final penne name model_name t hparam_stems fuel w0 s w :
  calibrate penne name model_name fuel t hparam_stems (Search 0 1 []) w0
  = (Some (Ok s), w) ->
  0%Qc ∈ keys (hparam_results s) /\ 1%Qc ∈ keys (hparam_results s) /\
  hparam_results s <> [] /\
  exists b, best_threshold (hparam_results s) = Ok b /\
            first_argmax (hparam_results s) b.
Proof.
  intros Hrun.
  destruct (calibrate_loop_steps _ _ _ _ _ _ _ _ _ _ Hrun) as (n & _ & Hsteps & Hstop).
  destruct (loop_steps_inv _ _ _ _ _ _ _ _ _ Hsteps)
    as (HI & Hn & (k & Hk & Hl & Hr) & Hkeys).
  rewrite Hl, Hr, guard_dyadic_interval in Hstop. apply Nat.ltb_ge in Hstop.
  destruct Hkeys as [H0 H1]; [lia |].
  assert (Hne : hparam_results s <> []).
  { intros Heq. rewrite Heq in H0. apply elem_of_nil in H0. exact H0. }
  repeat split; try assumption.
  destruct HI as (_ & _ & _ & Hsound).
  apply (best_threshold_spec _ Hne (table_sound_has_f1 _ _ _ _ _ _ _ Hsound)).
Qed.

(** C10.  In every configuration reached by the loop, after [n] executions
    of the body, [0 <= left < right <= 1], the bounds are the dyadic
    rationals [k / 2^n] and [(k + 1) / 2^n] with [n <= 8], and from the
    first execution on the table has entries for [0] and [1]; so when the
    loop returns the table is not empty and line 194 finds a threshold. *)
Theorem calibration_invariant penne name model_name t hparam_stems w0 :
  (forall n s w,
     loop_steps penne name model_name t hparam_stems n (Search 0 1 [], w0) (s, w) ->
     (0 <= left s)%Qc /\ (left s < right s)%Qc /\ (right s <= 1)%Qc /\
     (n <= 8)%nat /\
     (exists k, (0 <= k < 2 ^ Z.of_nat n)%Z /\
                left s = dyadic k n /\ right s = dyadic (k + 1) n) /\
     ((1 <= n)%nat ->
        0%Qc ∈ keys (hparam_results s) /\ 1%Qc ∈ keys (hparam_results s))) /\
  (forall fuel s w,
     calibrate penne name model_name fuel t hparam_stems (Search 0 1 []) w0
     = (Some (Ok s), w) ->
     0%Qc ∈ keys (hparam_results s) /\ 1%Qc ∈ keys (hparam_results s) /\
     hparam_results s <> [] /\
     exists b, best_threshold (hparam_results s) = Ok b).
Proof.
  split.
  - intros n s w Hsteps.
    destruct (loop_steps_inv _ _ _ _ _ _ _ _ _ Hsteps)
      as (_ & Hn & (k & Hk & Hl & Hr) & Hkeys).
    destruct (dyadic_unit_interval k n Hk) as (H0 & Hlt & H1).
    rewrite Hl, Hr. repeat split; try assumption; try apply Hkeys; eauto.
  - intros fuel s w Hrun.
    destruct (calibrate_final _ _ _ _ _ _ _ _ _ Hrun) as (H0 & H1 & Hne & b & Hb & _).
    eauto.
Qed.

Lemma bisect_flat F c (HF : forall x, F x = Ok c) fuel :
  forall n, (n <= 8)%nat -> (8 - n <= fuel)%nat ->
    bisect fuel F (dyadic 0 n, dyadic (0 + 1) n)
    = Some (Ok (dyadic 0 8, dyadic (0 + 1) 8)).
Proof.
  assert (Hstep : forall n, bisect_step F (dyadic 0 n, dyadic (0 + 1) n)
                            = Ok (dyadic 0 (S n), dyadic (0 + 1) (S n))).
  { intros n. unfold bisect_step. rewrite !HF. simpl.
    rewrite (proj2 (num_ltb_ge c c)) by apply Qcle_refl.
    rewrite dyadic_mid, !dyadic_0. reflexivity. }
  induction fuel as [| fuel IH]; intros n Hn Hfuel;
    cbn [bisect fst snd]; rewrite guard_dyadic_interval.
  - assert (n = 8)%nat as -> by lia. reflexivity.
  - destruct (Nat.ltb_spec n 8) as [Hlt | Hge].
    + rewrite Hstep. apply IH; lia.
    + assert (n = 8)%nat as -> by lia. reflexivity.
Qed.

(** C2, as the code has it.  In an execution of the loop body in which
    the F1 of [left] equals the F1 of [right], [left] stays and [right]
    moves to the centre; so when the F1 is the same at every threshold the
    loop returns with [left = 0] and [right = 1 / 2^8]. *)
Theorem tie_moves_right_bound penne name model_name t hparam_stems w0 :
  (forall n s w s' w',
     loop_steps penne name model_name t hparam_stems n (Search 0 1 [], w0) (s, w) ->
     iteration penne name model_name t hparam_stems s w = (Some (Ok s'), w') ->
     F1_curve penne name model_name t hparam_stems (fs w0) (left s)
     = F1_curve penne name model_name t hparam_stems (fs w0) (right s) ->
     left s' = left s /\ right s' = ((left s + right s) / 2)%Qc) /\
  (forall c fuel,
     (forall x, F1_curve penne name model_name t hparam_stems (fs w0) x = Ok c) ->
     (8 <= fuel)%nat ->
     exists s,
       fst (calibrate penne name model_name fuel t hparam_stems (Search 0 1 []) w0)
       = Some (Ok s) /\
       left s = 0%Qc /\ right s = dyadic 1 8).
Proof.
  split.
  - intros n s w s' w' Hsteps Hbody Htie.
    destruct (loop_steps_inv _ _ _ _ _ _ _ _ _ Hsteps) as (HI & _).
    pose proof (iteration_inv _ _ _ _ _ _ _ s w HI) as Hit.
    rewrite Hbody in Hit. destruct Hit as (Hstep & _).
    unfold bisect_step, bounds in Hstep. rewrite Htie in Hstep.
    destruct (F1_curve _ _ _ _ _ _ (right s)) as [v | e]; simpl in Hstep;
      [| discriminate].
    rewrite (proj2 (num_ltb_ge v v)) in Hstep by apply Qcle_refl.
    injection Hstep as Hl Hr. split; congruence.
  - intros c fuel Hflat Hfuel.
    pose proof (calibrate_inv penne name model_name t hparam_stems (fs w0) (stdout w0)
                  fuel (Search 0 1 []) w0 (inv_init _ _ _ _ _ w0)) as H.
    destruct (calibrate _ _ _ _ _ _ _ w0) as [o w']. destruct H as (Href & _).
    unfold bounds in Href at 2. simpl in Href.
    destruct dyadic_init as [H0 H1]. rewrite H0, H1 in Href at 1.
    rewrite (bisect_flat _ c Hflat fuel 0) in Href by lia.
    destruct o as [[s | ?] |]; try discriminate.
    exists s. split; [reflexivity |]. injection Href as Hl Hr.
    rewrite Hl, Hr, dyadic_0. split; reflexivity.
Qed.

(** ** Sequencing *)

Lemma bind_ok {A B} (m : M A) (k : A -> M B) w b w' :
  bind m k w = (Some (Ok b), w') ->
  exists a w1, m w = (Some (Ok a), w1) /\ k a w1 = (Some (Ok b), w').
Proof.
  unfold bind. destruct (m w) as [[[a | e] |] w1]; try discriminate. eauto.
Qed.

Lemma lift_ok {A} (r : result A) w a w' :
  lift r w = (Some (Ok a), w') -> r = Ok a /\ w' = w.
Proof. unfold lift. intros [= -> ->]. auto. Qed.

Lemma evaluate_per_stem_run penne name model_name x stems w :
  evaluate_per_stem penne name model_name x stems w
  = (Some (per_stem_loop penne name model_name (new_accs penne x) [] stems (fs w)), w).
Proof. reflexivity. Qed.

(** What a returning run of [from_stems] went through. *)
Lemma from_stems_ok penne name model_name fuel
    skip_predictions hparam_stems test_stems ar w r w' :
  from_stems penne name model_name fuel skip_predictions hparam_stems test_stems ar w
  = (Some (Ok r), w') ->
  exists t s w1 w2 b,
    predict_all penne name model_name skip_predictions ar hparam_stems test_stems w
    = (Some (Ok t), w1) /\
    calibrate penne name model_name fuel t hparam_stems (Search 0 1 []) w1
    = (Some (Ok s), w2) /\
    best_threshold (hparam_results s) = Ok b /\
    (exists w3 res,
       evaluate_per_stem penne name model_name b test_stems w3 = (Some (Ok res), w3)) /\
    (exists out, stdout w' = (out ++ [b])%list) /\
    scores_at penne name model_name t test_stems (fs w') b = Ok r.
Proof.
  unfold from_stems. intros H.
  apply bind_ok in H as (t & w1 & Hpredict & H).
  apply bind_ok in H as (s & w2 & Hcal & H).
  apply bind_ok in H as ([] & w3 & _ & H).
  apply bind_ok in H as ([] & w4 & _ & H).
  apply bind_ok in H as (b & w5 & Hbest & H).
  apply lift_ok in Hbest as [Hbest ->].
  apply bind_ok in H as ([] & w6 & _ & H).
  apply bind_ok in H as (res & w7 & Hper & H).
  apply bind_ok in H as ([] & w8 & _ & H).
  rewrite evaluate_at_threshold_run in H. injection H as Hr Hw'.
  exists t, s, w1, w2, b. split; [exact Hpredict |]. split; [exact Hcal |].
  split; [exact Hbest |]. split.
  - exists w6, res. rewrite evaluate_per_stem_run in Hper |- *.
    injection Hper as Hper <-. rewrite Hper. reflexivity.
  - subst w'. simpl. split; [eauto | exact Hr].
Qed.

(** C3.  When [from_stems] returns, the threshold of the final scoring of
    the test stems (the last threshold printed, at which both the per-stem
    table and the returned record are computed) is the first key of
    greatest F1 among all entries of the table the loop returned. *)
Theorem final_threshold_is_argmax penne name model_name fuel
    skip_predictions hparam_stems test_stems ar w r w' :
  from_stems penne name model_name fuel skip_predictions hparam_stems test_stems ar w
  = (Some (Ok r), w') ->
  exists t s w1 w2 b,
    predict_all penne name model_name skip_predictions ar hparam_stems test_stems w
    = (Some (Ok t), w1) /\
    calibrate penne name model_name fuel t hparam_stems (Search 0 1 []) w1
    = (Some (Ok s), w2) /\
    best_threshold (hparam_results s) = Ok b /\
    first_argmax (hparam_results s) b /\
    (exists w3 res,
       evaluate_per_stem penne name model_name b test_stems w3 = (Some (Ok res), w3)) /\
    (exists out, stdout w' = (out ++ [b])%list) /\
    scores_at penne name model_name t test_stems (fs w') b = Ok r.
Proof.
  intros Hrun.
  destruct (from_stems_ok _ _ _ _ _ _ _ _ _ _ _ Hrun)
    as (t & s & w1 & w2 & b & Hpredict & Hcal & Hbest & Hper & Hout & Hr).
  exists t, s, w1, w2, b.
  destruct (calibrate_final _ _ _ _ _ _ _ _ _ Hcal) as (_ & _ & _ & b' & Hb' & Harg).
  assert (b' = b) as -> by congruence.
  repeat split; assumption.
Qed.

(** ** Scoring one stem *)

Lemma shape1_slice_cols n a :
  (n < shape1 a)%nat -> shape1 (slice_cols n a) = n.
Proof.
  destruct a as [| r a]; simpl; [lia |]. intros H.
  rewrite length_take. lia.
Qed.

Lemma load_stem_cut penne name model_name d stem x :
  load_stem penne name model_name stem d = Ok x ->
  cut_for_ptdb penne name model_name d stem x.
Proof.
  unfold load_stem, cut_for_ptdb.
  destruct (pitch_annotation penne name _) as [ann | ?]; simpl; [| discriminate].
  destruct (np_load (path_join (pitch_dir _ _ _) _) d) as [p0 | ?]; simpl;
    [| discriminate].
  destruct (np_load (path_join (periodicity_dir _ _ _) _) d) as [per0 | ?]; simpl;
    [| discriminate].
  intros H. exists ann, p0, per0. do 3 (split; [reflexivity |]).
  destruct (String.eqb_spec name "PTDB") as [Hname | Hname];
    destruct (Nat.ltb_spec (shape1 ann) (shape1 p0)) as [Hlen | Hlen];
    simpl in H; injection H as <-; simpl;
    (split; [reflexivity |]); split;
    try (intros; lia); try (intros; contradiction); try tauto.
  - intros _ _. repeat split. apply shape1_slice_cols, Hlen.
  - intros [? | ?]; [contradiction | lia].
Qed.

Lemma score_stems_updates penne name model_name d stems : forall a a',
  score_stems penne name model_name a stems d = Ok a' ->
  exists xs,
    Forall2 (cut_for_ptdb penne name model_name d) stems xs /\
    update_all penne a xs = Ok a'.
Proof.
  induction stems as [| stem rest IH]; intros a a'; simpl.
  - intros [= <-]. exists []. split; [constructor | reflexivity].
  - destruct (load_stem _ _ _ stem d) as [x | ?] eqn:Hload; simpl; [| discriminate].
    destruct (update_metrics penne a x) as [a1 | ?] eqn:Hupd; simpl; [| discriminate].
    intros H. destruct (IH _ _ H) as (xs & Hxs & Hall).
    exists (x :: xs). split.
    + constructor; [apply load_stem_cut, Hload | exact Hxs].
    + simpl. rewrite Hupd. exact Hall.
Qed.

Lemma per_stem_loop_updates penne name model_name d stems : forall a res res',
  per_stem_loop penne name model_name a res stems d = Ok res' ->
  exists xs,
    Forall2 (cut_for_ptdb penne name model_name d) stems xs /\
    record_all penne a res stems xs = Ok res'.
Proof.
  induction stems as [| stem rest IH]; intros a res res'; simpl.
  - intros [= <-]. exists []. split; [constructor | reflexivity].
  - destruct (load_stem _ _ _ stem d) as [x | ?] eqn:Hload; simpl; [| discriminate].
    destruct (update_metrics penne a x) as [a1 | ?] eqn:Hupd; simpl; [| discriminate].
    intros H. destruct (IH _ _ _ H) as (xs & Hxs & Hall).
    exists (x :: xs). split.
    + constructor; [apply load_stem_cut, Hload | exact Hxs].
    + simpl. rewrite Hupd. exact Hall.
Qed.

(** C6, as the code has it.  In both scoring loops the metric updates of a
    stem receive the annotation as loaded and, for the dataset PTDB only,
    predictions (pitch and periodicity) cut to the annotation's length
    when the loaded pitch is longer; when it is not longer, or for any
    other dataset, the predictions are passed on as loaded.  The
    accumulators of [evaluate_at_threshold] and the rows of
    [evaluate_per_stem] are those obtained by updating with these triples
    in turn. *)
Theorem predictions_cut_for_ptdb penne name model_name d stems :
  (forall a a',
     score_stems penne name model_name a stems d = Ok a' ->
     exists xs,
       Forall2 (cut_for_ptdb penne name model_name d) stems xs /\
       update_all penne a xs = Ok a') /\
  (forall a res res',
     per_stem_loop penne name model_name a res stems d = Ok res' ->
     exists xs,
       Forall2 (cut_for_ptdb penne name model_name d) stems xs /\
       record_all penne a res stems xs = Ok res').
Proof.
  split.
  - apply score_stems_updates.
  - apply per_stem_loop_updates.
Qed.

(** C7.  For every dataset name, [dataset] runs [from_stems] with, as
    hyperparameter stems, the first [floor (len / 5)] stems of the training
    partition, in their order. *)
Theorem hparam_stems_first_fifth penne name model_name fuel partition
    skip_predictions ar train test_stems :
  partitions penne name !! "train" = Some train ->
  partitions penne name !! partition = Some test_stems ->
  (forall w,
     dataset penne name model_name fuel partition skip_predictions ar w
     = from_stems penne name model_name fuel skip_predictions
         (hparam_stems_of train) test_stems ar w) /\
  length (hparam_stems_of train) = (length train / 5)%nat /\
  (5 * length (hparam_stems_of train) <= length train
   < 5 * (length (hparam_stems_of train) + 1))%nat /\
  (exists rest, train = (hparam_stems_of train ++ rest)%list) /\
  (forall i, (i < length train / 5)%nat ->
     hparam_stems_of train !! i = train !! i).
Proof.
  intros Htrain Htest.
  assert (Hlen : length (hparam_stems_of train) = (length train / 5)%nat).
  { unfold hparam_stems_of. rewrite length_take.
    pose proof (Nat.Div0.div_le_upper_bound (length train) 5 (length train)).
    pose proof (Nat.Div0.mul_div_le (length train) 5). lia. }
  split; [| split; [exact Hlen | split; [| split]]].
  - intros w. unfold dataset, bind, lift. rewrite Htrain, Htest. reflexivity.
  - rewrite Hlen. pose proof (Nat.Div0.mul_div_le (length train) 5).
    pose proof (Nat.mul_succ_div_gt (length train) 5 ltac:(lia)). lia.
  - exists (drop (length train / 5) train). unfold hparam_stems_of.
    symmetry. apply take_drop.
  - intros i Hi. unfold hparam_stems_of. apply lookup_take_lt. exact Hi.
Qed.

(** ** The prediction pass *)

Lemma predict_stem_windowed penne name model_name t stem w t' w' :
  predict_stem penne name model_name false t stem w = (Some (Ok t'), w') ->
  t' = add_contributions penne name t [stem].
Proof.
  unfold predict_stem, add_contributions, contribution, bind, lift, ret, np_save.
  simpl.
  destruct (predict_from_file penne _ _ _) as [[[[pitch periodicity] seconds] infers] | e];
    [| discriminate].
  intros [= <- _]. reflexivity.
Qed.

Lemma predict_stem_ar penne name model_name t stem w t' w' :
  predict_stem penne name model_name true t stem w = (Some (Ok t'), w') ->
  t' = t.
Proof.
  unfold predict_stem, bind, lift, ret, reading, np_save. simpl.
  destruct (np_load _ (fs w)) as [frames | e]; [| discriminate].
  destruct (ar_predict penne frames) as [[pitch periodicity] | e]; [| discriminate].
  intros [= <- _]. reflexivity.
Qed.

Lemma predict_loop_windowed penne name model_name stems : forall t w t' w',
  predict_loop penne name model_name false t stems w = (Some (Ok t'), w') ->
  t' = add_contributions penne name t stems.
Proof.
  induction stems as [| stem rest IH]; intros t w t' w'; cbn [predict_loop].
  - intros [= <- _]. reflexivity.
  - unfold bind at 1.
    destruct (predict_stem _ _ _ false t stem w) as [[[t1 | e] |] w1] eqn:Hstem;
      try discriminate.
    intros H. apply IH in H. apply predict_stem_windowed in Hstem.
    subst. reflexivity.
Qed.

Lemma predict_loop_ar penne name model_name stems : forall t w t' w',
  predict_loop penne name model_name true t stems w = (Some (Ok t'), w') ->
  t' = t.
Proof.
  induction stems as [| stem rest IH]; intros t w t' w'; cbn [predict_loop].
  - intros [= <- _]. reflexivity.
  - unfold bind at 1.
    destruct (predict_stem _ _ _ true t stem w) as [[[t1 | e] |] w1] eqn:Hstem;
      try discriminate.
    intros H. apply IH in H. apply predict_stem_ar in Hstem. congruence.
Qed.

Lemma scores_at_totals penne name model_name t stems d x s :
  scores_at penne name model_name t stems d x = Ok s ->
  s !! "seconds" = Some (total_seconds t) /\
  s !! "frames" = Some (total_frames t) /\
  s !! "infers" = Some (total_infers t).
Proof.
  unfold scores_at.
  destruct (score_stems _ _ _ _ _ _) as [a | e]; simpl; [| discriminate].
  intros [= <-]. unfold metric_bundle.
  destruct (compute (f1 penne a)) as [[precision recall] f1_val].
  repeat split.
Qed.

Lemma predict_all_totals penne name model_name skip_predictions ar
    hparam_stems test_stems w t w1 :
  predict_all penne name model_name skip_predictions ar hparam_stems test_stems w
  = (Some (Ok t), w1) ->
  t = if skip_predictions || ar then Totals 0 0 0
      else add_contributions penne name (Totals 0 0 0)
             (hparam_stems ++ test_stems)%list.
Proof.
  unfold predict_all. destruct skip_predictions; simpl.
  - intros [= <- _]. reflexivity.
  - destruct ar; [apply predict_loop_ar | apply predict_loop_windowed].
Qed.

(** ** Paths *)

Lemma append_inv_head (a x y : string) : a ++ x = a ++ y -> x = y.
Proof. induction a as [| c a IH]; simpl; [auto | intros [= H]; auto]. Qed.

Lemma length_append (a b : string) :
  String.length (a ++ b) = (String.length a + String.length b)%nat.
Proof. induction a as [| c a IH]; simpl; [reflexivity | rewrite IH; reflexivity]. Qed.

Lemma last_char_append (a b : string) :
  b <> "" -> last_char (a ++ b) = last_char b.
Proof.
  intros Hb. induction a as [| c a IH]; simpl; [reflexivity |].
  rewrite <- IH. destruct (a ++ b) eqn:E; [| reflexivity].
  destruct a; simpl in E; [contradiction | discriminate].
Qed.

Lemma append_assoc (a b c : string) : (a ++ b) ++ c = a ++ b ++ c.
Proof.
  induction a as [| x a IH]; [reflexivity |].
  change (String x ((a ++ b) ++ c) = String x (a ++ b ++ c)).
  f_equal. exact IH.
Qed.

Lemma last_char_json (a x : string) :
  last_char (path_join a (x ++ ".json")) = Some "n"%char.
Proof.
  unfold path_join. rewrite <- !append_assoc.
  rewrite last_char_append by discriminate. reflexivity.
Qed.

Lemma last_char_npy (a x : string) :
  last_char (path_join a (x ++ ".npy")) = Some "y"%char.
Proof.
  unfold path_join. rewrite <- !append_assoc.
  rewrite last_char_append by discriminate. reflexivity.
Qed.

Lemma path_join_inj (a x y : string) : path_join a x = path_join a y -> x = y.
Proof.
  unfold path_join. intros H. apply append_inv_head in H.
  injection H as H. exact H.
Qed.

Section Paths.
Context (penne : Penne) (name model_name : string).

Lemma hparam_not_per_stem :
  hparam_file penne name model_name <> per_stem_file penne name model_name.
Proof. intros H. apply path_join_inj in H. discriminate H. Qed.

Lemma aggregate_not_hparam :
  aggregate_file penne name model_name <> hparam_file penne name model_name.
Proof.
  intros H. apply path_join_inj in H. apply (f_equal String.length) in H.
  rewrite (length_append "hparam_") in H. simpl in H. lia.
Qed.

Lemma aggregate_not_per_stem :
  aggregate_file penne name model_name <> per_stem_file penne name model_name.
Proof.
  intros H. apply path_join_inj in H. apply (f_equal String.length) in H.
  rewrite (length_append "per_stem_") in H. simpl in H. lia.
Qed.

End Paths.

Section Frames.
Context (penne : Penne) (name model_name : string).

Local Abbreviation agg := (aggregate_file penne name model_name).
Local Abbreviation hp := (hparam_file penne name model_name).
Local Abbreviation ps := (per_stem_file penne name model_name).

Lemma last_char_artifacts :
  last_char agg = Some "n"%char /\ last_char hp = Some "n"%char /\
  last_char ps = Some "n"%char.
Proof.
  unfold aggregate_file, hparam_file, per_stem_file, path_join.
  repeat split; rewrite <- !append_assoc;
    rewrite last_char_append by discriminate; reflexivity.
Qed.

(** ** What a computation leaves untouched *)

Lemma preserves_bind {A B} path (m : M A) (k : A -> M B) :
  preserves path m -> (forall a, preserves path (k a)) ->
  preserves path (bind m k).
Proof.
  intros Hm Hk w. unfold bind. specialize (Hm w).
  destruct (m w) as [[[a | e] |] w1]; simpl in *; try exact Hm.
  rewrite <- Hm. apply Hk.
Qed.

Lemma preserves_ret {A} path (a : A) : preserves path (ret a).
Proof. intros w. reflexivity. Qed.

Lemma preserves_lift {A} path (r : result A) : preserves path (lift r).
Proof. intros w. reflexivity. Qed.

Lemma preserves_reading {A} path (f : files -> result A) :
  preserves path (reading f).
Proof. intros w. reflexivity. Qed.

Lemma preserves_np_save path q a : path <> q -> preserves path (np_save q a).
Proof. intros H w. simpl. apply lookup_insert_ne. congruence. Qed.

Lemma preserves_open_w path q : path <> q -> preserves path (open_w q).
Proof. intros H w. simpl. apply lookup_insert_ne. congruence. Qed.

Lemma preserves_json_dump path q doc : path <> q -> preserves path (json_dump doc q).
Proof.
  intros H w. unfold json_dump.
  destruct (fs w !! q) as [[a | docs] |]; simpl; try reflexivity.
  apply lookup_insert_ne. congruence.
Qed.

Lemma preserves_evaluate_at_threshold path t x stems :
  preserves path (evaluate_at_threshold penne name model_name t x stems).
Proof. intros w. rewrite evaluate_at_threshold_run. reflexivity. Qed.

Lemma preserves_calibrate path fuel t stems s :
  preserves path (calibrate penne name model_name fuel t stems s).
Proof.
  revert s. induction fuel as [| fuel IH]; intros s; cbn [calibrate];
    destruct (num_ltb lit_0_005 (right s - left s)); try (intros w; reflexivity).
  apply preserves_bind; [| exact IH].
  unfold iteration. apply preserves_bind.
  - unfold f1_of. destruct (assoc_get _ _ _); [apply preserves_ret |].
    apply preserves_bind; [apply preserves_evaluate_at_threshold |].
    intros sc. apply preserves_bind; [apply preserves_lift | intros; apply preserves_ret].
  - intros [left_f1 results1]. apply preserves_bind.
    + unfold f1_of. destruct (assoc_get _ _ _); [apply preserves_ret |].
      apply preserves_bind; [apply preserves_evaluate_at_threshold |].
      intros sc. apply preserves_bind; [apply preserves_lift | intros; apply preserves_ret].
    + intros [right_f1 results2]. destruct (num_ltb left_f1 right_f1); apply preserves_ret.
Qed.

Lemma preserves_predict_loop path ar stems :
  last_char path = Some "n"%char ->
  forall t, preserves path (predict_loop penne name model_name ar t stems).
Proof.
  intros Hpath. assert (Hnpy : forall a x, path <> path_join a (x ++ ".npy")).
  { intros a x H. rewrite H, last_char_npy in Hpath. discriminate Hpath. }
  induction stems as [| stem rest IH]; intros t; cbn [predict_loop];
    [apply preserves_ret |].
  apply preserves_bind; [| exact IH].
  unfold predict_stem. apply preserves_bind.
  - destruct ar.
    + apply preserves_bind; [apply preserves_reading |]. intros frames.
      apply preserves_bind; [apply preserves_lift | intros; apply preserves_ret].
    + apply preserves_bind; [apply preserves_lift |].
      intros [[[pitch periodicity] seconds] infers]. apply preserves_ret.
  - intros [[np_pitch np_periodicity] t'].
    apply preserves_bind; [apply preserves_np_save, Hnpy |]. intros _.
    apply preserves_bind; [apply preserves_np_save, Hnpy |]. intros _.
    apply preserves_ret.
Qed.

Lemma preserves_from_stems path fuel skip_predictions hparam_stems test_stems ar :
  last_char path = Some "n"%char -> path <> hp -> path <> ps ->
  preserves path (from_stems penne name model_name fuel skip_predictions
                    hparam_stems test_stems ar).
Proof.
  intros Hpath Hhp Hps. unfold from_stems.
  apply preserves_bind.
  { unfold predict_all. destruct (negb skip_predictions);
      [apply preserves_predict_loop, Hpath | apply preserves_ret]. }
  intros t. apply preserves_bind; [apply preserves_calibrate |]. intros s.
  apply preserves_bind; [apply preserves_open_w, Hhp |]. intros _.
  apply preserves_bind; [apply preserves_json_dump, Hhp |]. intros _.
  apply preserves_bind; [apply preserves_lift |]. intros b.
  apply preserves_bind; [apply preserves_open_w, Hps |]. intros _.
  apply preserves_bind; [apply preserves_reading |]. intros res.
  apply preserves_bind; [apply preserves_json_dump, Hps |]. intros _.
  apply preserves_evaluate_at_threshold.
Qed.

Lemma preserves_dataset path fuel partition skip_predictions ar :
  last_char path = Some "n"%char -> path <> hp -> path <> ps ->
  preserves path (dataset penne name model_name fuel partition skip_predictions ar).
Proof.
  intros Hpath Hhp Hps. unfold dataset.
  apply preserves_bind; [apply preserves_lift |]. intros train.
  apply preserves_bind; [apply preserves_lift |]. intros test_stems.
  apply preserves_from_stems; assumption.
Qed.
End Frames.

(** ** The three artifacts *)

Section Written.
Context (penne : Penne) (name model_name : string) (fuel : nat).

Local Abbreviation agg := (aggregate_file penne name model_name).
Local Abbreviation hp := (hparam_file penne name model_name).
Local Abbreviation ps := (per_stem_file penne name model_name).

(** The run of [from_stems] once the prediction pass and the loop have
    returned. *)
Lemma from_stems_after_calibration skip_predictions hparam_stems test_stems ar
    w t w1 s w2 :
  predict_all penne name model_name skip_predictions ar hparam_stems test_stems w
  = (Some (Ok t), w1) ->
  calibrate penne name model_name fuel t hparam_stems (Search 0 1 []) w1
  = (Some (Ok s), w2) ->
  exists b,
    best_threshold (hparam_results s) = Ok b /\
    let d := <[ps := Text []]> (<[hp := Text [JTable (hparam_results s)] ]> (fs w2)) in
    let out := from_stems penne name model_name fuel skip_predictions
                 hparam_stems test_stems ar w in
    fs (snd out) !! hp = Some (Text [JTable (hparam_results s)]) /\
    fs (snd out) !! ps
    = Some (Text match per_stem_loop penne name model_name (new_accs penne b) []
                         test_stems d with
                 | Ok res => [JPerStem res]
                 | Raise _ => []
                 end) /\
    (forall e,
       per_stem_loop penne name model_name (new_accs penne b) [] test_stems d
       = Raise e ->
       fst out = Some (Raise e)).
Proof.
  intros Hpredict Hcal.
  destruct (calibrate_final _ _ _ _ _ _ _ _ _ Hcal) as (_ & _ & _ & b & Hb & _).
  exists b. split; [exact Hb |]. intros d out.
  assert (Hout : out =
    bind (evaluate_per_stem penne name model_name b test_stems)
         (fun res => bind (json_dump (JPerStem res) ps)
            (fun _ => evaluate_at_threshold penne name model_name t b test_stems))
         (World d (stdout w2))).
  { subst out d. unfold from_stems.
    unfold bind at 1. rewrite Hpredict. unfold bind at 1. rewrite Hcal.
    unfold bind at 1. cbn [open_w fs stdout].
    unfold bind at 1. unfold json_dump at 1. cbn [fs stdout].
    rewrite lookup_insert_eq. rewrite insert_insert_eq. cbn [app].
    unfold bind at 1. unfold lift at 1. rewrite Hb.
    unfold bind at 1. cbn [open_w fs stdout]. reflexivity. }
  rewrite Hout. clear Hout out. unfold bind. rewrite evaluate_per_stem_run.
  cbn [fs].
  assert (Hps : ps <> hp).
  { intros H. symmetry in H. exact (hparam_not_per_stem _ _ _ H). }
  destruct (per_stem_loop _ _ _ _ _ _ d) as [res | e]; cbn [fst snd fs].
  - unfold json_dump. cbn [fs stdout].
    subst d. rewrite lookup_insert_eq. rewrite insert_insert_eq. cbn [app].
    rewrite evaluate_at_threshold_run. cbn [fst snd fs].
    split; [| split; [apply lookup_insert_eq | discriminate]].
    rewrite lookup_insert_ne by exact Hps. apply lookup_insert_eq.
  - subst d. split; [| split; [apply lookup_insert_eq |]].
    + rewrite lookup_insert_ne by exact Hps. apply lookup_insert_eq.
    + intros e' [= <-]. reflexivity.
Qed.

(** The run of [from_stems] when the prediction pass or the loop does not
    return. *)
Lemma from_stems_before_calibration skip_predictions hparam_stems test_stems ar w :
  (forall s,
     fst (bind (predict_all penne name model_name skip_predictions ar
                  hparam_stems test_stems)
               (fun t => calibrate penne name model_name fuel t hparam_stems
                           (Search 0 1 [])) w) <> Some (Ok s)) ->
  let out := from_stems penne name model_name fuel skip_predictions
               hparam_stems test_stems ar w in
  (forall r, fst out <> Some (Ok r)) /\
  fs (snd out) !! hp = fs w !! hp /\
  fs (snd out) !! ps = fs w !! ps.
Proof.
  intros Hfail out.
  destruct (last_char_artifacts penne name model_name) as (_ & Hhp & Hps).
  assert (Hpred : forall path, last_char path = Some "n"%char ->
            preserves path (predict_all penne name model_name skip_predictions ar
                              hparam_stems test_stems)).
  { intros path Hpath. unfold predict_all. destruct (negb skip_predictions);
      [apply preserves_predict_loop, Hpath | apply preserves_ret]. }
  pose proof (Hpred hp Hhp w) as Hp1. pose proof (Hpred ps Hps w) as Hp2.
  assert (H : exists o w', out = (o, w') /\ (forall r, o <> Some (Ok r)) /\
                           fs w' !! hp = fs w !! hp /\ fs w' !! ps = fs w !! ps).
  { subst out. unfold from_stems. unfold bind at 1. unfold bind at 1 in Hfail.
    destruct (predict_all _ _ _ _ _ _ _ w) as [[[t | e] |] w1]; cbn [fst snd] in *;
      try (eexists _, _; split; [reflexivity |];
           split; [intros ?; discriminate | split; assumption]).
    pose proof (preserves_calibrate penne name model_name hp fuel t hparam_stems
                  (Search 0 1 []) w1) as Hc1.
    pose proof (preserves_calibrate penne name model_name ps fuel t hparam_stems
                  (Search 0 1 []) w1) as Hc2.
    unfold bind at 1.
    destruct (calibrate _ _ _ _ _ _ _ w1) as [[[s | e] |] w2]; cbn [fst snd] in *;
      try (eexists _, _; split; [reflexivity |];
           split; [intros ?; discriminate | split; congruence]).
    exfalso. exact (Hfail s eq_refl). }
  destruct H as (o & w' & -> & Ho & H1 & H2). auto.
Qed.

(** The run of [dataset_to_file]. *)
Lemma dataset_to_file_run partition skip_predictions ar w :
  let w1 := World (<[agg := Text [] ]> (fs w)) (stdout w) in
  let out := dataset_to_file penne name model_name fuel partition
               skip_predictions ar w in
  fst out
  = outcome_map (fun _ => tt)
      (fst (dataset penne name model_name fuel partition skip_predictions ar w1)) /\
  fs (snd out) !! agg
  = Some (Text match fst (dataset penne name model_name fuel partition
                            skip_predictions ar w1) with
               | Some (Ok r) => [JScores r]
               | _ => []
               end).
Proof.
  intros w1 out.
  destruct (last_char_artifacts penne name model_name) as (Hagg & _ & _).
  pose proof (preserves_dataset penne name model_name agg fuel partition
                skip_predictions ar Hagg
                (aggregate_not_hparam _ _ _) (aggregate_not_per_stem _ _ _) w1) as Hkeep.
  assert (Hout : out =
    match dataset penne name model_name fuel partition skip_predictions ar w1 with
    | (Some (Ok r), w2) => json_dump (JScores r) agg w2
    | (Some (Raise e), w2) => (Some (Raise e), w2)
    | (None, w2) => (None, w2)
    end) by reflexivity.
  rewrite Hout. clear Hout out.
  destruct (dataset _ _ _ _ _ _ _ w1) as [[[r | e] |] w2]; cbn [fst snd] in *.
  - unfold json_dump. rewrite Hkeep. subst w1. cbn [fs].
    rewrite lookup_insert_eq. cbn [fst snd fs app outcome_map].
    split; [reflexivity | apply lookup_insert_eq].
  - split; [reflexivity |]. rewrite Hkeep. subst w1. apply lookup_insert_eq.
  - split; [reflexivity |]. rewrite Hkeep. subst w1. apply lookup_insert_eq.
Qed.
End Written.


(** ** The totals of the prediction pass *)

(** C8.  In windowed-batch mode the prediction pass adds to the three
    totals the seconds, frames and inference calls of every stem it
    processes (lines 116-118); in autoregressive mode it processes the stems
    and leaves the totals as they were.  When [from_stems] returns, the
    totals of its prediction pass, which are [0] when the predictions are
    reused or the mode is autoregressive, are what the returned record
    reports and what every entry of the table that the run has written to
    the hyperparameter file reports. *)
Theorem totals_missed_in_autoregressive_mode penne name model_name :
  (forall stems t w t' w',
     predict_loop penne name model_name false t stems w = (Some (Ok t'), w') ->
     t' = add_contributions penne name t stems) /\
  (forall stems t w t' w',
     predict_loop penne name model_name true t stems w = (Some (Ok t'), w') ->
     t' = t) /\
  (forall fuel skip_predictions hparam_stems test_stems ar w r w',
     from_stems penne name model_name fuel skip_predictions
       hparam_stems test_stems ar w = (Some (Ok r), w') ->
     let t := if skip_predictions || ar then Totals 0 0 0
              else add_contributions penne name (Totals 0 0 0)
                     (hparam_stems ++ test_stems)%list in
     (exists w1,
        predict_all penne name model_name skip_predictions ar
          hparam_stems test_stems w = (Some (Ok t), w1)) /\
     r !! "seconds" = Some (total_seconds t) /\
     r !! "frames" = Some (total_frames t) /\
     r !! "infers" = Some (total_infers t) /\
     exists results,
       fs w' !! hparam_file penne name model_name
       = Some (Text [JTable results]) /\
       Forall (fun e => snd e !! "seconds" = Some (total_seconds t) /\
                        snd e !! "frames" = Some (total_frames t) /\
                        snd e !! "infers" = Some (total_infers t))
         results).
Proof.
  split; [apply predict_loop_windowed |]. split; [apply predict_loop_ar |].
  intros fuel skip_predictions hparam_stems test_stems ar w r w' Hrun t.
  destruct (from_stems_ok _ _ _ _ _ _ _ _ _ _ _ Hrun)
    as (t0 & s & w1 & w2 & b & Hpredict & Hcal & _ & _ & _ & Hr).
  pose proof (predict_all_totals _ _ _ _ _ _ _ _ _ _ Hpredict) as Ht.
  fold t in Ht. subst t0.
  destruct (scores_at_totals _ _ _ _ _ _ _ _ Hr) as (Hs & Hf & Hi).
  split; [exists w1; exact Hpredict |].
  do 3 (split; [assumption |]).
  exists (hparam_results s). split.
  - destruct (from_stems_after_calibration penne name model_name fuel _ _ _ _ _ _ _ _ _
                Hpredict Hcal) as (b' & _ & Hhp & _).
    cbn zeta in Hhp. rewrite Hrun in Hhp. exact Hhp.
  - destruct (calibrate_loop_steps _ _ _ _ _ _ _ _ _ _ Hcal) as (n & _ & Hsteps & _).
    destruct (loop_steps_inv _ _ _ _ _ _ _ _ _ Hsteps) as ((_ & _ & _ & Hsound) & _).
    eapply Forall_impl; [exact Hsound |].
    intros e He. simpl in He. apply (scores_at_totals _ _ _ _ _ _ _ _ He).
Qed.

(** ** The thresholds of the calibration *)

Lemma dyadic_inj a b n : dyadic a n = dyadic b n -> a = b.
Proof.
  unfold dyadic. intros H. apply Q2Qc_eq_iff in H.
  unfold Qeq in H. simpl in H. nia.
Qed.

Lemma on_grid_lift m x : on_grid m x -> on_grid (S m) x.
Proof.
  intros (j & Hj & ->). exists (2 * j)%Z. split; [| apply dyadic_lift].
  rewrite Nat2Z.inj_succ, Z.pow_succ_r by lia. lia.
Qed.

Lemma odd_off_grid m k (ks : list number) :
  Forall (on_grid m) ks -> dyadic (2 * k + 1) (S m) ∉ ks.
Proof.
  intros Hall Hin. rewrite Forall_forall in Hall.
  destruct (Hall _ Hin) as (j & _ & Hj).
  rewrite (dyadic_lift j m) in Hj. apply dyadic_inj in Hj. lia.
Qed.

Section TableGrowth.
Context (penne : Penne) (name model_name : string).
Context (t : totals) (stems : list string).

(** What one look-up of lines 172-183 does to the table. *)
Lemma f1_of_table side results w v results' w' :
  f1_of penne name model_name t stems side results w
  = (Some (Ok (v, results')), w') ->
  ((side ∈ keys results) /\ results' = results) \/
  ((side ∉ keys results) /\ exists sc, results' = (results ++ [(side, sc)])%list).
Proof.
  rewrite f1_of_run.
  destruct (assoc_get num_eqb results side) as [sc |] eqn:Hget.
  - intros [= _ <- _]. left. split; [| reflexivity].
    apply (elem_of_keys _ _ sc), assoc_get_Some, Hget.
  - destruct (scores_at _ _ _ _ _ _ side) as [sc | e]; simpl; [| discriminate].
    destruct (index sc "f1") as [v' | e]; simpl; [| discriminate].
    intros [= _ <- _]. right. split; [apply assoc_get_None, Hget |].
    exists sc. apply assoc_set_fresh, Hget.
Qed.

Lemma iteration_table s w s' w' :
  iteration penne name model_name t stems s w = (Some (Ok s'), w') ->
  exists results1,
    (((left s ∈ keys (hparam_results s)) /\ results1 = hparam_results s) \/
     ((left s ∉ keys (hparam_results s)) /\
      exists sc, results1 = (hparam_results s ++ [(left s, sc)])%list)) /\
    (((right s ∈ keys results1) /\ hparam_results s' = results1) \/
     ((right s ∉ keys results1) /\
      exists sc, hparam_results s' = (results1 ++ [(right s, sc)])%list)).
Proof.
  unfold iteration, bind.
  destruct (f1_of _ _ _ _ _ (left s) _ w) as [[[[left_f1 results1] | e] |] w1] eqn:H1;
    try discriminate.
  destruct (f1_of _ _ _ _ _ (right s) _ w1) as [[[[right_f1 results2] | e] |] w2] eqn:H2;
    try discriminate.
  intros H. exists results1. split; [apply (f1_of_table _ _ _ _ _ _ H1) |].
  assert (hparam_results s' = results2) as ->.
  { destruct (num_ltb left_f1 right_f1); injection H as <- _; reflexivity. }
  apply (f1_of_table _ _ _ _ _ _ H2).
Qed.

Lemma table_grid_step n s w s' w' :
  table_grid n s ->
  num_ltb lit_0_005 (right s - left s)%Qc = true ->
  iteration penne name model_name t stems s w = (Some (Ok s'), w') ->
  (exists k, left s = dyadic k n /\ right s = dyadic (k + 1) n /\
     ((left s' = dyadic (2 * k + 1) (S n) /\ right s' = right s) \/
      (left s' = left s /\ right s' = dyadic (2 * k + 1) (S n)))) ->
  table_grid (S n) s'.
Proof.
  intros Hgrid Hguard Hbody (k & Hl & Hr & Hnext).
  destruct (iteration_table _ _ _ _ Hbody) as (results1 & H1 & H2).
  destruct n as [| m]; cbn [table_grid] in *.
  - destruct Hgrid as (Hnil & Hl0 & Hr0). rewrite Hnil in H1.
    destruct H1 as [[Hin _] | [_ [sc1 ->]]]; [apply elem_of_nil in Hin; contradiction |].
    assert (Hk : k = 0%Z) by (rewrite Hl0 in Hl; apply dyadic_inj in Hl; lia).
    subst k. simpl in H2.
    destruct H2 as [[Hin _] | [_ [sc2 Hres]]].
    { apply list_elem_of_singleton in Hin. rewrite Hl, Hr in Hin.
      apply dyadic_inj in Hin. lia. }
    rewrite Hres. simpl. rewrite Hl, Hr.
    split; [reflexivity |]. split; [rewrite dyadic_0; reflexivity |].
    split.
    + repeat constructor; [exists 0%Z | exists 1%Z]; split; simpl; try lia; reflexivity.
    + exists 0%Z. split; [simpl; lia |].
      split; [apply list_elem_of_here |].
      split; [apply list_elem_of_further, list_elem_of_here |].
      rewrite Hl, Hr in Hnext. exact Hnext.
  - destruct Hgrid as (Hlen & Hhd & Hall & k0 & Hk0 & Hin0 & Hin1 & Hbounds).
    (* exactly one bound is a key *)
    assert (Hone : exists sc,
      hparam_results s' = (hparam_results s ++ [(dyadic (2 * k0 + 1) (S m), sc)])%list).
    { destruct Hbounds as [[Hls Hrs] | [Hls Hrs]].
      - destruct H1 as [[Hin _] | [_ [sc1 ->]]].
        { rewrite Hls in Hin. exfalso. exact (odd_off_grid _ _ _ Hall Hin). }
        destruct H2 as [[_ ->] | [Hnot _]].
        + exists sc1. rewrite Hls. reflexivity.
        + exfalso. apply Hnot. unfold keys. rewrite map_app.
          apply elem_of_app. left. rewrite Hrs. exact Hin1.
      - destruct H1 as [[_ ->] | [Hnot _]].
        2:{ exfalso. apply Hnot. rewrite Hls. exact Hin0. }
        destruct H2 as [[Hin _] | [_ [sc2 ->]]].
        { rewrite Hrs in Hin. exfalso. exact (odd_off_grid _ _ _ Hall Hin). }
        exists sc2. rewrite Hrs. reflexivity. }
    destruct Hone as [sc Hres]. rewrite Hres. unfold keys. rewrite map_app, length_app.
    simpl. fold (keys (hparam_results s)).
    split; [lia |]. split.
    { destruct (keys (hparam_results s)); [discriminate | exact Hhd]. }
    split.
    { apply Forall_app. split.
      - eapply Forall_impl; [exact Hall | apply on_grid_lift].
      - apply Forall_singleton. exists (2 * k0 + 1)%Z. split; [| reflexivity].
        rewrite Nat2Z.inj_succ, Z.pow_succ_r by lia. lia. }
    exists k. rewrite <- Hl, <- Hr.
    assert (Hkey : forall x, x = left s \/ x = right s ->
              x ∈ (keys (hparam_results s) ++ [dyadic (2 * k0 + 1) (S m)])%list).
    { intros x Hx. apply elem_of_app.
      destruct Hbounds as [[Hls Hrs] | [Hls Hrs]], Hx as [-> | ->];
        rewrite ?Hls, ?Hrs; auto using list_elem_of_here. }
    split.
    { assert (Hkb : (0 <= k0 < 2 ^ Z.of_nat m)%Z) by exact Hk0.
      rewrite Nat2Z.inj_succ, Z.pow_succ_r by lia.
      destruct Hbounds as [[Hls Hrs] | [Hls Hrs]].
      - rewrite Hls in Hl. apply dyadic_inj in Hl. lia.
      - rewrite Hls, (dyadic_lift k0 m) in Hl. apply dyadic_inj in Hl. lia. }
    split; [apply Hkey; auto |]. split; [apply Hkey; auto |].
    destruct Hnext as [[Hl' Hr'] | [Hl' Hr']]; [left | right]; split; congruence.
Qed.
End TableGrowth.

Lemma bisect_step_cases F l r l' r' :
  bisect_step F (l, r) = Ok (l', r') ->
  (l' = ((l + r) / 2)%Qc /\ r' = r) \/ (l' = l /\ r' = ((l + r) / 2)%Qc).
Proof.
  unfold bisect_step.
  destruct (F l) as [fl | e]; simpl; [| discriminate].
  destruct (F r) as [fr | e]; simpl; [| discriminate].
  destruct (num_ltb fl fr); intros H; injection H as Hl Hr; auto.
Qed.

Section TableGrid.
Context (penne : Penne) (name model_name : string).
Context (t : totals) (stems : list string).

Lemma loop_steps_table_grid w0 n s w :
  loop_steps penne name model_name t stems n (Search 0 1 [], w0) (s, w) ->
  table_grid n s.
Proof.
  remember (Search 0 1 [], w0) as c0 eqn:Hc0.
  remember (s, w) as c eqn:Hc. intros Hsteps. revert s w Hc.
  induction Hsteps as [| n s1 w1 s2 w2 c1 Hsteps IH Hguard Hbody]; intros s w Hc.
  - subst. injection Hc as <- <-. simpl. destruct dyadic_init as [H0 H1]. auto.
  - injection Hc as <- <-. specialize (IH Hc0 s1 w1 eq_refl).
    subst c1.
    destruct (loop_steps_inv _ _ _ _ _ _ _ _ _ Hsteps) as (HI & _ & (k & _ & Hl & Hr) & _).
    pose proof (iteration_inv _ _ _ _ _ _ _ s1 w1 HI) as Hit.
    rewrite Hbody in Hit. destruct Hit as (Hstep & _).
    apply bisect_step_cases in Hstep.
    rewrite Hl, Hr, dyadic_mid in Hstep.
    eapply table_grid_step; [exact IH | exact Hguard | exact Hbody |].
    exists k. rewrite Hl, Hr. auto.
Qed.

(** A loop that returns has executed its body exactly eight times. *)
Lemma calibrate_eight_steps fuel w0 s w :
  calibrate penne name model_name fuel t stems (Search 0 1 []) w0
  = (Some (Ok s), w) ->
  loop_steps penne name model_name t stems 8 (Search 0 1 [], w0) (s, w).
Proof.
  intros Hrun.
  destruct (calibrate_loop_steps _ _ _ _ _ _ _ _ _ _ Hrun) as (n & _ & Hsteps & Hstop).
  destruct (loop_steps_inv _ _ _ _ _ _ _ _ _ Hsteps) as (_ & Hn & (k & _ & Hl & Hr) & _).
  rewrite Hl, Hr, guard_dyadic_interval in Hstop. apply Nat.ltb_ge in Hstop.
  assert (n = 8)%nat as -> by lia. exact Hsteps.
Qed.
End TableGrid.

(** X1.  A calibration loop that returns has scored exactly nine
    thresholds: it has printed nine lines, the table has nine entries, and
    of the two final bounds exactly one (the centre of the eighth
    execution) has never been scored. *)
Theorem calibration_scores_nine_thresholds penne name model_name fuel t
    hparam_stems w0 s w :
  calibrate penne name model_name fuel t hparam_stems (Search 0 1 []) w0
  = (Some (Ok s), w) ->
  length (hparam_results s) = 9%nat /\
  stdout w = (stdout w0 ++ keys (hparam_results s))%list /\
  (((left s ∉ keys (hparam_results s)) /\ right s ∈ keys (hparam_results s)) \/
   ((left s ∈ keys (hparam_results s)) /\ right s ∉ keys (hparam_results s))).
Proof.
  intros Hrun. apply calibrate_eight_steps in Hrun.
  pose proof (loop_steps_table_grid _ _ _ _ _ _ _ _ _ Hrun) as Hgrid.
  destruct (loop_steps_inv _ _ _ _ _ _ _ _ _ Hrun) as ((_ & Hout & _) & _).
  cbn [table_grid] in Hgrid.
  destruct Hgrid as (Hlen & _ & Hall & k & _ & Hin0 & Hin1 & Hbounds).
  split; [exact Hlen |]. split; [exact Hout |].
  destruct Hbounds as [[-> ->] | [-> ->]]; [left | right]; split;
    auto using odd_off_grid.
Qed.

Lemma first_argmax_key results b : first_argmax results b -> b ∈ keys results.
Proof.
  intros (before & after & Hkeys & _). rewrite Hkeys.
  apply elem_of_app. right. apply list_elem_of_here.
Qed.

(** X2.  The threshold at which a returning [from_stems] scores the test
    stems (the last threshold printed) is a multiple of [1/128] between
    [0] and [1]. *)
Theorem calibrated_threshold_on_grid penne name model_name fuel
    skip_predictions hparam_stems test_stems ar w r w' :
  from_stems penne name model_name fuel skip_predictions hparam_stems test_stems ar w
  = (Some (Ok r), w') ->
  exists out b j,
    stdout w' = (out ++ [b])%list /\
    (0 <= j <= 128)%Z /\ b = dyadic j 7 /\ (0 <= b <= 1)%Qc.
Proof.
  intros Hrun.
  destruct (from_stems_ok _ _ _ _ _ _ _ _ _ _ _ Hrun)
    as (t & s & w1 & w2 & b & _ & Hcal & Hbest & _ & [out Hout] & _).
  destruct (calibrate_final _ _ _ _ _ _ _ _ _ Hcal) as (_ & _ & _ & b' & Hb' & Harg).
  assert (b' = b) as -> by congruence.
  apply first_argmax_key in Harg.
  apply calibrate_eight_steps in Hcal.
  pose proof (loop_steps_table_grid _ _ _ _ _ _ _ _ _ Hcal) as Hgrid.
  cbn [table_grid] in Hgrid. destruct Hgrid as (_ & _ & Hall & _).
  rewrite Forall_forall in Hall. destruct (Hall _ Harg) as (j & Hj & ->).
  exists out, (dyadic j 7), j. split; [exact Hout |].
  split; [exact Hj |]. split; [reflexivity |]. split.
  - rewrite <- (dyadic_0 7). apply dyadic_le. lia.
  - rewrite <- (dyadic_full 7). apply dyadic_le. exact (proj2 Hj).
Qed.

(** X3.  When the loop returns, line 194 picks the threshold [0] exactly
    when no scored threshold has a greater F1 than [0] has; in particular
    when the F1 is the same at every threshold. *)
Theorem zero_threshold_iff_unbeaten penne name model_name fuel t hparam_stems
    w0 s w :
  calibrate penne name model_name fuel t hparam_stems (Search 0 1 []) w0
  = (Some (Ok s), w) ->
  (best_threshold (hparam_results s) = Ok 0%Qc <->
   Forall (fun x => (f1_in (hparam_results s) x <= f1_in (hparam_results s) 0)%Qc)
     (keys (hparam_results s))) /\
  (forall c,
     (forall x, F1_curve penne name model_name t hparam_stems (fs w0) x = Ok c) ->
     best_threshold (hparam_results s) = Ok 0%Qc).
Proof.
  intros Hrun.
  destruct (calibrate_final _ _ _ _ _ _ _ _ _ Hrun) as (_ & _ & _ & b & Hb & Harg).
  apply calibrate_eight_steps in Hrun.
  pose proof (loop_steps_table_grid _ _ _ _ _ _ _ _ _ Hrun) as Hgrid.
  destruct (loop_steps_inv _ _ _ _ _ _ _ _ _ Hrun) as ((_ & _ & Hnd & Hsound) & _).
  cbn [table_grid] in Hgrid. destruct Hgrid as (_ & Hhd & _).
  destruct (keys (hparam_results s)) as [| x0 ks] eqn:Hkeys; [discriminate |].
  injection Hhd as ->.
  assert (Hiff : best_threshold (hparam_results s) = Ok 0%Qc <->
    Forall (fun x => (f1_in (hparam_results s) x <= f1_in (hparam_results s) 0)%Qc)
      (0%Qc :: ks)).
  { destruct Harg as (before & after & Hsplit & Hbefore & Hafter).
    rewrite Hkeys in Hsplit. rewrite Hb. split.
    - intros [= ->]. destruct before as [| y before].
      + injection Hsplit as <-. constructor; [apply Qcle_refl | exact Hafter].
      + exfalso. simpl in Hsplit. injection Hsplit as <- ->.
        apply NoDup_cons in Hnd as [Hnot _]. apply Hnot.
        apply elem_of_app. right. apply list_elem_of_here.
    - intros Hall. destruct before as [| y before].
      + simpl in Hsplit. injection Hsplit as <- _. reflexivity.
      + exfalso. simpl in Hsplit. injection Hsplit as <- Hks.
        apply Forall_cons in Hbefore as [Hlt _].
        rewrite Forall_forall in Hall.
        assert (Hin : b ∈ 0%Qc :: ks).
        { rewrite Hks. apply list_elem_of_further, elem_of_app. right.
          apply list_elem_of_here. }
        apply Hall in Hin. exact (Qcle_not_lt _ _ Hin Hlt). }
  split; [exact Hiff |].
  intros c Hflat. apply Hiff. rewrite <- Hkeys. apply Forall_forall. intros x Hx.
  assert (Hc : forall y, y ∈ keys (hparam_results s) -> f1_in (hparam_results s) y = c).
  { intros y Hy. destruct (assoc_get_In _ _ Hy) as [sc Hsc].
    pose proof (assoc_get_Some _ _ _ Hsc) as Hin.
    unfold table_sound in Hsound. rewrite Forall_forall in Hsound.
    pose proof (Hsound _ Hin) as Hs. simpl in Hs.
    specialize (Hflat y). unfold F1_curve in Hflat. rewrite Hs in Hflat.
    simpl in Hflat. unfold index in Hflat. unfold f1_in. rewrite Hsc.
    destruct (sc !! "f1"); [injection Hflat as ->; reflexivity | discriminate]. }
  rewrite (Hc x Hx), (Hc 0%Qc); [apply Qcle_refl |].
  rewrite Hkeys. apply list_elem_of_here.
Qed.

(** ** The prediction files *)

Lemma append_inv_tail (a b t : string) : a ++ t = b ++ t -> a = b.
Proof.
  revert b. induction a as [| x a IH]; intros b H.
  - destruct b as [| y b]; [reflexivity |]. exfalso.
    apply (f_equal String.length) in H. rewrite !length_append in H.
    simpl in H. lia.
  - destruct b as [| y b].
    + exfalso. apply (f_equal String.length) in H. rewrite !length_append in H.
      simpl in H. lia.
    + change (String x (a ++ t) = String y (b ++ t)) in H.
      injection H as -> H. f_equal. apply IH, H.
Qed.

Section PredictionPaths.
Context (penne : Penne) (name model_name : string).

Local Abbreviation pf := (pitch_file penne name model_name).
Local Abbreviation qf := (periodicity_file penne name model_name).

Lemma pitch_file_inj s s' : pf s = pf s' -> s = s'.
Proof. intros H. apply path_join_inj in H. exact (append_inv_tail _ _ _ H). Qed.

Lemma periodicity_file_inj s s' : qf s = qf s' -> s = s'.
Proof. intros H. apply path_join_inj in H. exact (append_inv_tail _ _ _ H). Qed.

Lemma pitch_not_periodicity s s' : pf s <> qf s'.
Proof.
  unfold pitch_file, periodicity_file, pitch_dir, periodicity_dir, path_join.
  rewrite !append_assoc. intros H. apply append_inv_head in H. discriminate H.
Qed.
End PredictionPaths.

Lemma np_load_saved path path' a d :
  np_load path (<[path' := Npy a]> d)
  = if decide (path' = path) then Ok a else np_load path d.
Proof.
  unfold np_load. rewrite lookup_insert. destruct (decide (path' = path)); reflexivity.
Qed.

Section PredictionPass.
Context (penne : Penne) (name model_name : string).

Local Abbreviation pf := (pitch_file penne name model_name).
Local Abbreviation qf := (periodicity_file penne name model_name).

(** What the body of the loop of line 98 leaves on disk. *)
Lemma predict_stem_saves ar t stem w t' w' :
  predict_stem penne name model_name ar t stem w = (Some (Ok t'), w') ->
  exists p q,
    fs w' = <[qf stem := Npy q]> (<[pf stem := Npy p]> (fs w)) /\
    stdout w' = stdout w /\
    (ar = false ->
     exists seconds infers,
       predict_from_file penne (stem_to_file penne name stem)
         (if String.eqb name "PTDB" then Q2Qc 550%Q else MAX_FMAX penne)
         (negb (String.eqb name "PTDB"))
       = Ok (p, q, seconds, infers)).
Proof.
  unfold predict_stem, bind, lift, ret, reading, np_save. destruct ar; simpl.
  - destruct (np_load _ (fs w)) as [frames | e]; [| discriminate].
    destruct (ar_predict penne frames) as [[p q] | e]; [| discriminate].
    intros [= _ <-]. exists p, q. simpl. repeat split. discriminate.
  - destruct (predict_from_file penne _ _ _) as [[[[p q] seconds] infers] | e];
      [| discriminate].
    intros [= _ <-]. exists p, q. simpl. repeat split. eauto.
Qed.

Lemma predict_loop_saved ar stems : forall t w t' w',
  predict_loop penne name model_name ar t stems w = (Some (Ok t'), w') ->
  forall stem, stem ∈ stems ->
    exists p q,
      np_load (pf stem) (fs w') = Ok p /\ np_load (qf stem) (fs w') = Ok q /\
      (ar = false ->
       exists seconds infers,
         predict_from_file penne (stem_to_file penne name stem)
           (if String.eqb name "PTDB" then Q2Qc 550%Q else MAX_FMAX penne)
           (negb (String.eqb name "PTDB"))
         = Ok (p, q, seconds, infers)).
Proof.
  induction stems as [| s0 rest IH] using rev_ind; intros t w t' w' Hrun stem Hin.
  - apply elem_of_nil in Hin. contradiction.
  - revert Hrun.
    assert (Hsplit : forall t w,
      predict_loop penne name model_name ar t (rest ++ [s0]) w
      = bind (predict_loop penne name model_name ar t rest)
             (fun t1 => predict_stem penne name model_name ar t1 s0) w).
    { clear. induction rest as [| s1 rest IH]; intros t w; cbn [predict_loop app].
      - unfold bind, ret. destruct (predict_stem _ _ _ _ _ _ w) as [[[? | ?] |] ?];
          reflexivity.
      - unfold bind.
        destruct (predict_stem _ _ _ ar t s1 w) as [[[t1 | e] |] w1]; try reflexivity.
        rewrite IH. reflexivity. }
    rewrite Hsplit. unfold bind.
    destruct (predict_loop _ _ _ ar t rest w) as [[[t1 | e] |] w1] eqn:Hrest;
      try discriminate.
    intros Hlast. destruct (predict_stem_saves _ _ _ _ _ _ Hlast) as (p0 & q0 & Hfs & _ & Hval).
    rewrite Hfs, !np_load_saved.
    destruct (decide (stem = s0)) as [-> | Hne].
    + exists p0, q0.
      rewrite (decide_False (P := qf s0 = pf s0)) by
        (intros H; symmetry in H; exact (pitch_not_periodicity _ _ _ _ _ H)).
      rewrite !decide_True by reflexivity.
      split; [reflexivity | split; [reflexivity | exact Hval]].
    + assert (Hin' : stem ∈ rest).
      { apply elem_of_app in Hin as [H | H]; [exact H |].
        apply list_elem_of_singleton in H. contradiction. }
      destruct (IH _ _ _ _ Hrest stem Hin') as (p & q & Hp & Hq & Hv).
      exists p, q.
      rewrite (decide_False (P := qf s0 = pf stem)) by
        (intros H; symmetry in H; exact (pitch_not_periodicity _ _ _ _ _ H)).
      rewrite (decide_False (P := pf s0 = pf stem)) by
        (intros H; apply pitch_file_inj in H; congruence).
      rewrite (decide_False (P := qf s0 = qf stem)) by
        (intros H; apply periodicity_file_inj in H; congruence).
      rewrite (decide_False (P := pf s0 = qf stem)) by
        (exact (pitch_not_periodicity _ _ _ _ _)).
      split; [exact Hp | split; [exact Hq | exact Hv]].
Qed.
End PredictionPass.

(** X4.  After a prediction pass that returns over stems that are file
    names (without separator), the pitch and periodicity of every stem it
    processed can be loaded back from disk; in windowed-batch mode they are
    the arrays inference returned for the stem.  Scoring such a stem can
    then fail only on its annotation. *)
Theorem predictions_round_trip penne name model_name ar stems t w t' w' :
  predict_loop penne name model_name ar t stems w = (Some (Ok t'), w') ->
  (forall stem, stem ∈ stems -> no_separator stem = true) ->
  forall stem, stem ∈ stems ->
    (exists p q,
       np_load (pitch_file penne name model_name stem) (fs w') = Ok p /\
       np_load (periodicity_file penne name model_name stem) (fs w') = Ok q /\
       (ar = false ->
        exists seconds infers,
          predict_from_file penne (stem_to_file penne name stem)
            (if String.eqb name "PTDB" then Q2Qc 550%Q else MAX_FMAX penne)
            (negb (String.eqb name "PTDB"))
          = Ok (p, q, seconds, infers))) /\
    (forall e,
       load_stem penne name model_name stem (fs w') = Raise e ->
       pitch_annotation penne name (stem_to_annotation penne name stem) = Raise e).
Proof.
  intros Hrun _ stem Hin.
  destruct (predict_loop_saved _ _ _ _ _ _ _ _ _ Hrun stem Hin) as (p & q & Hp & Hq & Hv).
  split; [eauto |].
  intros e. unfold load_stem. fold (pitch_file penne name model_name stem).
  fold (periodicity_file penne name model_name stem).
  destruct (pitch_annotation penne name _) as [ann | e']; simpl.
  - rewrite Hp, Hq. simpl. destruct (_ && _); discriminate.
  - congruence.
Qed.

Section Untouched.
Context (penne : Penne) (name model_name : string).

Lemma preserves_predict_loop_listed path ar stems :
  (forall stem, stem ∈ stems ->
     path <> pitch_file penne name model_name stem /\
     path <> periodicity_file penne name model_name stem) ->
  forall t, preserves path (predict_loop penne name model_name ar t stems).
Proof.
  induction stems as [| stem rest IH]; intros Hpath t; cbn [predict_loop];
    [apply preserves_ret |].
  apply preserves_bind.
  - intros w.
    destruct (predict_stem penne name model_name ar t stem w) as [[[t1 | e] |] w1] eqn:H.
    + destruct (predict_stem_saves _ _ _ _ _ _ _ _ _ H) as (p & q & Hfs & _).
      simpl. rewrite Hfs.
      destruct (Hpath stem (list_elem_of_here _ _)) as [Hp Hq].
      rewrite !lookup_insert_ne by congruence. reflexivity.
    + revert H. unfold predict_stem, bind, lift, ret, reading, np_save.
      destruct ar; simpl.
      * destruct (np_load _ (fs w)); [| intros [= _ <-]; reflexivity].
        destruct (ar_predict penne _) as [[? ?] |]; [discriminate |].
        intros [= _ <-]. reflexivity.
      * destruct (predict_from_file penne _ _ _) as [[[[? ?] ?] ?] |];
          [discriminate | intros [= _ <-]; reflexivity].
    + revert H. unfold predict_stem, bind, lift, ret, reading, np_save.
      destruct ar; simpl.
      * destruct (np_load _ (fs w)); [| discriminate].
        destruct (ar_predict penne _) as [[? ?] |]; discriminate.
      * destruct (predict_from_file penne _ _ _) as [[[[? ?] ?] ?] |]; discriminate.
  - intros t1. apply IH. intros s Hs. apply Hpath, list_elem_of_further, Hs.
Qed.

End Untouched.


(** ** Failures and small partitions *)

Lemma guard_initial : num_ltb lit_0_005 (1 - 0)%Qc = true.
Proof. reflexivity. Qed.



(** X8.  When the training partition has fewer than five stems the
    hyperparameter subset is empty; the calibration loop then reads no
    file and returns whatever is on disk, and the F1 it records for a
    threshold is the one the F1 accumulator reports before any update. *)
Theorem small_training_partition penne name model_name train t w fuel :
  (length train < 5)%nat ->
  (8 <= fuel)%nat ->
  hparam_stems_of train = [] /\
  exists s w',
    calibrate penne name model_name fuel t (hparam_stems_of train) (Search 0 1 []) w
    = (Some (Ok s), w') /\
    Forall (fun e => snd e !! "f1"
                     = Some (snd (compute (F1 penne (fst e)))))
      (hparam_results s).
Proof.
  intros Hlen Hfuel.
  assert (Hnil : hparam_stems_of train = []).
  { unfold hparam_stems_of. rewrite (Nat.div_small _ 5 Hlen). reflexivity. }
  split; [exact Hnil |]. rewrite Hnil.
  assert (Hscore : forall x,
    scores_at penne name model_name t [] (fs w) x
    = Ok (<["seconds" := total_seconds t]> (<["frames" := total_frames t]> (
          <["infers" := total_infers t]> (metric_bundle penne (new_accs penne x)))))).
  { reflexivity. }
  assert (Hf1 : forall x,
    F1_curve penne name model_name t [] (fs w) x
    = Ok (snd (compute (F1 penne x)))).
  { intros x. unfold F1_curve. rewrite Hscore. cbn [result_bind].
    unfold metric_bundle, new_accs. cbn [f1].
    destruct (compute (F1 penne x)) as [[precision recall] f1_val]. reflexivity. }
  pose proof (calibrate_inv penne name model_name t [] (fs w) (stdout w)
                fuel (Search 0 1 []) w (inv_init _ _ _ _ _ w)) as H.
  destruct (calibrate _ _ _ fuel _ _ _ w) as [o w'] eqn:Hrun.
  destruct H as (Href & _ & _ & Hok).
  destruct dyadic_init as [H0 H1]. unfold bounds in Href at 2. simpl in Href.
  rewrite H0, H1 in Href at 1.
  destruct (bisect_dyadic _ (fun x => ex_intro _ _ (Hf1 x)) fuel 0 0 ltac:(lia))
    as [_ Hhigh].
  destruct Hhigh as [k' Hk']; [lia |]. rewrite Hk' in Href.
  destruct o as [[s | ?] |]; try discriminate.
  exists s, w'. split; [reflexivity |].
  destruct (Hok s eq_refl) as [(_ & _ & _ & Hsound) _].
  eapply Forall_impl; [exact Hsound |]. intros [x sc] Hx. simpl in *.
  pose proof (Hf1 x) as Hx1. unfold F1_curve in Hx1. rewrite Hx in Hx1.
  simpl in Hx1. unfold index in Hx1.
  destruct (sc !! "f1"); [injection Hx1 as ->; reflexivity | discriminate].
Qed.

(** ** The per-stem table *)

Section AssocLaws.
Context {K V : Type} (eqb : K -> K -> bool).
Context (eqb_eq : forall x y, eqb x y = true <-> x = y).

Lemma assoc_get_set (d : list (K * V)) k v k' :
  assoc_get eqb (assoc_set eqb d k v) k'
  = if eqb k k' then Some v else assoc_get eqb d k'.
Proof.
  induction d as [| [k0 v0] d IH]; simpl.
  - destruct (eqb k k'); reflexivity.
  - destruct (eqb k0 k) eqn:E0; simpl.
    + apply eqb_eq in E0. subst k0. destruct (eqb k k'); reflexivity.
    + destruct (eqb k0 k') eqn:E1; [| exact IH].
      destruct (eqb k k') eqn:E2; [| reflexivity].
      apply eqb_eq in E1, E2. subst. rewrite (proj2 (eqb_eq k' k') eq_refl) in E0.
      discriminate.
Qed.

Lemma assoc_set_keys (d : list (K * V)) k v :
  (k ∈ map fst d /\ map fst (assoc_set eqb d k v) = map fst d) \/
  ((k ∉ map fst d) /\ map fst (assoc_set eqb d k v) = (map fst d ++ [k])%list).
Proof.
  induction d as [| [k0 v0] d IH]; simpl.
  - right. split; [apply not_elem_of_nil | reflexivity].
  - destruct (eqb k0 k) eqn:E0.
    + apply eqb_eq in E0. subst. left. split; [apply list_elem_of_here | reflexivity].
    + assert (k0 <> k) by (intros ->; rewrite (proj2 (eqb_eq k k) eq_refl) in E0; discriminate).
      destruct IH as [[Hin Heq] | [Hnot Heq]]; simpl; rewrite Heq.
      * left. split; [apply list_elem_of_further, Hin | reflexivity].
      * right. split; [| reflexivity]. apply not_elem_of_cons. split; congruence.
Qed.
End AssocLaws.

Section PerStem.
Context (penne : Penne) (name model_name : string) (d : files).

Local Abbreviation loop := (per_stem_loop penne name model_name).

(** The keys of the per-stem table. *)
Lemma per_stem_loop_keys stems : forall a res res',
  loop a res stems d = Ok res' ->
  NoDup (map fst res) ->
  NoDup (map fst res') /\
  (forall stem, stem ∈ map fst res' <-> stem ∈ map fst res \/ stem ∈ stems) /\
  (NoDup (map fst res ++ stems) -> map fst res' = (map fst res ++ stems)%list).
Proof.
  induction stems as [| stem rest IH]; intros a res res'; cbn [per_stem_loop].
  - intros [= <-] Hnd. split; [exact Hnd |]. split.
    + intros s. rewrite elem_of_nil. tauto.
    + intros _. rewrite app_nil_r. reflexivity.
  - destruct (load_stem _ _ _ stem d) as [x | ?]; simpl; [| discriminate].
    destruct (update_metrics penne a x) as [a' | ?]; simpl; [| discriminate].
    intros Hrun Hnd.
    set (res1 := assoc_set String.eqb res stem (metric_bundle penne a')) in *.
    destruct (assoc_set_keys String.eqb String.eqb_eq res stem (metric_bundle penne a'))
      as [[Hin Hkeys] | [Hnot Hkeys]]; fold res1 in Hkeys.
    + destruct (IH _ _ _ Hrun) as (Hnd' & Hiff & Hsame); [rewrite Hkeys; exact Hnd |].
      split; [exact Hnd' |]. split.
      * intros s. rewrite Hiff, Hkeys, elem_of_cons.
        split; [tauto |]. intros [H | [-> | H]]; auto.
      * intros Hall. exfalso. apply NoDup_app in Hall as (_ & Hdisj & _).
        apply (Hdisj stem Hin), list_elem_of_here.
    + assert (Hnd1 : NoDup (map fst res1)).
      { rewrite Hkeys. apply NoDup_app. split; [exact Hnd |].
        split; [| apply NoDup_singleton].
        intros s Hs Hs'. apply list_elem_of_singleton in Hs'. subst. contradiction. }
      destruct (IH _ _ _ Hrun Hnd1) as (Hnd' & Hiff & Hsame).
      split; [exact Hnd' |]. split.
      * intros s. rewrite Hiff, Hkeys, elem_of_app, list_elem_of_singleton, elem_of_cons.
        tauto.
      * intros Hall. rewrite Hsame; rewrite Hkeys, <- app_assoc; [reflexivity |].
        exact Hall.
Qed.
End PerStem.

(** X9.  The per-stem table has exactly one entry for each distinct stem
    scored, and when no stem is repeated its keys are the stems in their
    order. *)
Theorem per_stem_table_keys penne name model_name thresh_val stems w res w' :
  evaluate_per_stem penne name model_name thresh_val stems w = (Some (Ok res), w') ->
  w' = w /\
  NoDup (map fst res) /\
  (forall stem, stem ∈ map fst res <-> stem ∈ stems) /\
  (NoDup stems -> map fst res = stems).
Proof.
  rewrite evaluate_per_stem_run. intros [= Hres <-].
  destruct (per_stem_loop_keys _ _ _ _ _ _ _ _ Hres (NoDup_nil_2 (A := string)))
    as (Hnd & Hiff & Hsame).
  split; [reflexivity |]. split; [exact Hnd |]. split.
  - intros stem. rewrite Hiff, elem_of_nil. tauto.
  - exact Hsame.
Qed.

Section PerStemAlone.
Context (penne : Penne) (name model_name : string) (d : files) (b : number).
Context (Hreset : reset_restores penne b).

Lemma per_stem_loop_alone stems : forall res res',
  per_stem_loop penne name model_name (new_accs penne b) res stems d = Ok res' ->
  forall stem,
    (stem ∈ stems ->
     exists a,
       score_stems penne name model_name (new_accs penne b) [stem] d = Ok a /\
       assoc_get String.eqb res' stem = Some (metric_bundle penne a)) /\
    ((stem ∉ stems) -> assoc_get String.eqb res' stem = assoc_get String.eqb res stem).
Proof.
  destruct Hreset as [Hinit Hupd].
  induction stems as [| s0 rest IH]; intros res res'; cbn [per_stem_loop].
  - intros [= <-] stem. split; [| reflexivity].
    intros H. apply elem_of_nil in H. contradiction.
  - destruct (load_stem _ _ _ s0 d) as [x |] eqn:Hload; simpl; [| discriminate].
    destruct (update_metrics penne (new_accs penne b) x) as [a' |] eqn:Hup; simpl;
      [| discriminate].
    fold (reset_accs penne a'). rewrite (Hupd _ _ _ Hup), Hinit.
    intros Hrun stem. destruct (IH _ _ Hrun stem) as [Hin Hout].
    assert (Hs0 : score_stems penne name model_name (new_accs penne b) [s0] d = Ok a').
    { cbn [score_stems]. rewrite Hload. simpl. rewrite Hup. reflexivity. }
    split.
    + intros Hstem. destruct (decide (stem ∈ rest)) as [Hr | Hr]; [exact (Hin Hr) |].
      apply elem_of_cons in Hstem as [-> | Hstem]; [| contradiction].
      exists a'. split; [exact Hs0 |]. rewrite (Hout Hr).
      rewrite (assoc_get_set String.eqb String.eqb_eq), String.eqb_refl. reflexivity.
    + intros Hnot. apply not_elem_of_cons in Hnot as [Hne Hr].
      rewrite (Hout Hr), (assoc_get_set String.eqb String.eqb_eq).
      destruct (String.eqb_spec s0 stem); [congruence | reflexivity].
Qed.
End PerStemAlone.

(** X10.  When [reset] restores the accumulators, the entry of a stem in
    the per-stem table holds the six metrics of scoring that stem alone at
    the same threshold: [evaluate_at_threshold] on the one stem returns
    that entry with the three totals added. *)
Theorem per_stem_entry_is_stem_alone penne name model_name thresh_val stems w res w' :
  reset_restores penne thresh_val ->
  evaluate_per_stem penne name model_name thresh_val stems w = (Some (Ok res), w') ->
  forall stem, stem ∈ stems ->
    exists entry,
      assoc_get String.eqb res stem = Some entry /\
      forall t,
        fst (evaluate_at_threshold penne name model_name t thresh_val [stem] w)
        = Some (Ok (<["seconds" := total_seconds t]> (<["frames" := total_frames t]> (
                    <["infers" := total_infers t]> entry)))).
Proof.
  intros Hreset. rewrite evaluate_per_stem_run. intros [= Hres <-] stem Hin.
  destruct (per_stem_loop_alone _ _ _ _ _ Hreset _ _ _ Hres stem) as [Halone _].
  destruct (Halone Hin) as (a & Ha & Hentry).
  exists (metric_bundle penne a). split; [exact Hentry |].
  intros t. rewrite evaluate_at_threshold_run. unfold scores_at. rewrite Ha.
  reflexivity.
Qed.

(** * Properties of penne/train.py *)

(** ** [AverageMeter] *)

Section Meter.
Context {F : Type} `{PyFloat F}.

Lemma updates_counted (calls : list (F * Z)) : forall m : Train.AverageMeter,
  (0 < Train.count m)%Z ->
  Forall (fun c => (0 <= snd c)%Z) calls ->
  exists m',
    Train.updates m calls = (m', None) /\
    Train.count m' = (Train.count m + Train.samples calls)%Z /\
    (0 < Train.count m')%Z /\
    (Train.avg m = float_div_int (Train.sum m) (Train.count m) ->
     Train.avg m' = float_div_int (Train.sum m') (Train.count m')).
Proof.
  induction calls as [|[v n] rest IH]; intros m Hpos Hall.
  - exists m. cbn. repeat split; [lia | exact Hpos | auto].
  - apply Forall_cons in Hall as [Hn Hrest]. cbn in Hn.
    cbn [Train.updates]. unfold Train.update.
    destruct (Z.eqb_spec (Train.count m + n) 0) as [E|E]; [lia|].
    edestruct (IH (Train.Meter v
                     (float_div_int (float_add (Train.sum m) (float_mul_int v n))
                        (Train.count m + n))
                     (float_add (Train.sum m) (float_mul_int v n))
                     (Train.count m + n)))
      as (m' & Hrun & Hcount & Hpos' & Havg); [cbn; lia | exact Hrest |].
    exists m'. split; [exact Hrun|]. cbn in Hcount. cbn [Train.samples fold_right snd].
    fold (Train.samples rest).
    repeat split; [lia | exact Hpos' |].
    intros _. apply Havg. reflexivity.
Qed.

End Meter.

(** X11.  On a fresh meter, a run of updates whose sample counts are not
    negative can only fail at its first call, and does so exactly when that
    call declares no sample: [ZeroDivisionError] is raised after [val],
    [sum] and [count] have been assigned and [avg] has been left at zero.
    Otherwise every call returns, [count] is the number of samples declared
    and is positive, and [avg] is [sum / count]. *)
Theorem meter_fails_only_on_first_update {F : Type} `{PyFloat F}
    (v : F) (n : Z) (rest : list (F * Z)) :
  (0 <= n)%Z ->
  Forall (fun c => (0 <= snd c)%Z) rest ->
  if (n =? 0)%Z
  then Train.updates Train.fresh ((v, n) :: rest)
       = (Train.Meter v float_zero (float_add float_zero (float_mul_int v 0)) 0,
          Some Train.ZeroDivisionError)
  else exists m,
         Train.updates Train.fresh ((v, n) :: rest) = (m, None) /\
         Train.count m = Train.samples ((v, n) :: rest) /\
         (0 < Train.count m)%Z /\
         Train.avg m = float_div_int (Train.sum m) (Train.count m).
Proof.
  intros Hn Hrest.
  destruct (Z.eqb_spec n 0) as [->|E].
  - reflexivity.
  - cbn [Train.updates]. unfold Train.update. cbn [Train.count Train.fresh Train.sum Train.avg].
    destruct (Z.eqb_spec (0 + n) 0) as [E'|E']; [lia|].
    edestruct (updates_counted rest
                 (Train.Meter v (float_div_int (float_add float_zero (float_mul_int v n)) (0 + n))
                    (float_add float_zero (float_mul_int v n)) (0 + n)))
      as (m' & Hrun & Hcount & Hpos' & Havg); [cbn; lia | exact Hrest |].
    exists m'. split; [exact Hrun|]. cbn in Hcount.
    cbn [Train.samples fold_right snd]. fold (Train.samples rest).
    repeat split; [lia | exact Hpos' |]. apply Havg. reflexivity.
Qed.

(** ** [my_acc] *)

Lemma first_max_unique row i j : Train.first_max row i -> Train.first_max row j -> i = j.
Proof.
  intros (Hi & v & Hv & Hall & Hbefore) (Hj & w & Hw & Hall' & Hbefore').
  destruct (Z.lt_trichotomy i j) as [Hlt|[Heq|Hgt]]; [|exact Heq|].
  - exfalso. assert (Hlt' : (Z.to_nat i < Z.to_nat j)%nat) by lia.
    pose proof (Hbefore' _ _ Hlt' Hv) as H1. pose proof (Hall _ _ Hw) as H2.
    apply (Qclt_not_le _ _ H1 H2).
  - exfalso. assert (Hlt' : (Z.to_nat j < Z.to_nat i)%nat) by lia.
    pose proof (Hbefore _ _ Hlt' Hw) as H1. pose proof (Hall' _ _ Hv) as H2.
    apply (Qclt_not_le _ _ H1 H2).
Qed.

Lemma argmax_from_first_max (rest : list number) : forall (pre : list number) best_i best,
  Train.first_max pre best_i ->
  pre !! Z.to_nat best_i = Some best ->
  Train.first_max (pre ++ rest)
    (Train.argmax_from best_i best (Z.of_nat (length pre)) rest).
Proof.
  induction rest as [|x rest IH]; intros pre best_i best Hfm Hbest.
  - cbn. rewrite app_nil_r. exact Hfm.
  - cbn [Train.argmax_from].
    destruct Hfm as (Hi & v & Hv & Hall & Hbefore).
    rewrite Hbest in Hv. injection Hv as <-.
    assert (Hlen : (Z.to_nat best_i < length pre)%nat)
      by (apply lookup_lt_is_Some; eauto).
    replace (Z.of_nat (length pre) + 1)%Z with (Z.of_nat (length (pre ++ [x])))
      by (rewrite length_app; cbn; lia).
    replace (pre ++ x :: rest)%list with ((pre ++ [x]) ++ rest)%list
      by (rewrite <- app_assoc; reflexivity).
    destruct (num_ltb best x) eqn:Hcmp.
    + apply num_ltb_lt in Hcmp.
      replace (Z.of_nat (length pre)) with (Z.of_nat (length pre) + 0)%Z at 1 by lia.
      rewrite Z.add_0_r.
      apply IH.
      * split; [lia|]. exists x. rewrite Nat2Z.id.
        split; [rewrite lookup_app_r by lia; rewrite Nat.sub_diag; reflexivity|].
        split.
        -- intros j w Hj. destruct (decide (j < length pre)%nat) as [Hlt|Hge].
           ++ rewrite lookup_app_l in Hj by exact Hlt.
              apply Qclt_le_weak. eapply Qcle_lt_trans; [apply (Hall _ _ Hj)|exact Hcmp].
           ++ rewrite lookup_app_r in Hj by lia.
              destruct (j - length pre)%nat eqn:Ej; cbn in Hj; [|discriminate Hj].
              injection Hj as <-. apply Qcle_refl.
        -- intros j w Hlt Hj. rewrite lookup_app_l in Hj by exact Hlt.
           eapply Qcle_lt_trans; [apply (Hall _ _ Hj)|exact Hcmp].
      * rewrite Nat2Z.id. rewrite lookup_app_r by lia. rewrite Nat.sub_diag. reflexivity.
    + apply num_ltb_ge in Hcmp.
      apply IH.
      * split; [exact Hi|]. exists best.
        split; [rewrite lookup_app_l by exact Hlen; exact Hbest|].
        split.
        -- intros j w Hj. destruct (decide (j < length pre)%nat) as [Hlt|Hge].
           ++ rewrite lookup_app_l in Hj by exact Hlt. apply (Hall _ _ Hj).
           ++ rewrite lookup_app_r in Hj by lia.
              destruct (j - length pre)%nat eqn:Ej; cbn in Hj; [|discriminate Hj].
              injection Hj as <-. exact Hcmp.
        -- intros j w Hlt Hj. rewrite lookup_app_l in Hj by lia.
           apply (Hbefore _ _ Hlt Hj).
      * rewrite lookup_app_l by exact Hlen. exact Hbest.
Qed.

Lemma argmax_first_max row :
  row <> [] -> exists i, Train.argmax row = Train.Returns i /\ Train.first_max row i.
Proof.
  destruct row as [|x rest]; [congruence|]. intros _.
  exists (Train.argmax_from 0 x 1 rest). split; [reflexivity|].
  apply (argmax_from_first_max rest [x] 0%Z x); [|reflexivity].
  split; [lia|]. exists x. split; [reflexivity|]. split.
  - intros [|j] w Hj; cbn in Hj; [|discriminate Hj]. injection Hj as <-. apply Qcle_refl.
  - intros j w Hlt. cbn in Hlt. lia.
Qed.

Lemma my_acc_matches (y_hat : list (list number)) : forall y : list Z,
  length y_hat = length y ->
  Forall (fun row => row <> []) y_hat ->
  exists indices,
    Train.argmax_dim1 y_hat = Train.Returns indices /\
    length indices = length y /\
    let m := Train.tensor_sum (Train.eq_elementwise indices y) in
    (0 <= m <= Z.of_nat (length y))%Z /\
    (m = Z.of_nat (length y) <-> Forall2 Train.first_max y_hat y) /\
    (m = 0%Z <-> Forall2 (fun row b => ~ Train.first_max row b) y_hat y).
Proof.
  induction y_hat as [|row rows IH]; intros [|b y] Hlen Hrows; try discriminate Hlen.
  - exists []. cbn. repeat split; try lia; constructor.
  - apply Forall_cons in Hrows as [Hrow Hrows].
    destruct (argmax_first_max row Hrow) as (i & Hi & Hfm).
    destruct (IH y ltac:(cbn in Hlen; lia) Hrows)
      as (indices & Hrun & Hlen' & Hbounds & Hall & Hnone).
    exists (i :: indices). cbn [Train.argmax_dim1]. rewrite Hi, Hrun.
    split; [reflexivity|]. split; [cbn; lia|].
    cbn [Train.eq_elementwise Train.tensor_sum length].
    cbn zeta in Hbounds, Hall, Hnone |- *.
    set (m := Train.tensor_sum (Train.eq_elementwise indices y)) in *.
    destruct (Z.eqb_spec i b) as [->|Hne].
    + split; [lia|]. split; split.
      * intros Hm. constructor; [exact Hfm|]. apply Hall. lia.
      * intros Hf. apply Forall2_cons in Hf as [_ Hf]. apply Hall in Hf. lia.
      * intros Hm. lia.
      * intros Hf. apply Forall2_cons in Hf as [Hno _]. contradiction.
    + split; [lia|]. split; split.
      * intros Hm. lia.
      * intros Hf. apply Forall2_cons in Hf as [Hb _].
        exfalso. apply Hne. exact (first_max_unique _ _ _ Hfm Hb).
      * intros Hm. constructor.
        -- intros Hb. apply Hne. exact (first_max_unique _ _ _ Hfm Hb).
        -- apply Hnone. lia.
      * intros Hf. apply Forall2_cons in Hf as [_ Hf]. apply Hnone in Hf. lia.
Qed.


(** ** The loops over the batches *)

Section BatchLoop.
Context {F : Type} `{PyFloat F} {B : Type}.
Context (observe : B -> Train.outcome (list (list number) * list Z * F * Z)).
Context (record optimize : B -> Train.outcome unit).

Local Abbreviation loop := (Train.batch_loop observe record optimize).

Lemma batch_loop_take training limit (loader : list B) : forall t m,
  loop training limit t loader m
  = loop training (t + Z.of_nat (length loader)) t
      (take (Z.to_nat (limit + 1 - t)) loader) m.
Proof.
  induction loader as [|b rest IH]; intros t m.
  - rewrite take_nil. reflexivity.
  - cbn [Train.batch_loop].
    destruct (Z.ltb_spec limit t) as [Hlt|Hge].
    + replace (Z.to_nat (limit + 1 - t)) with 0%nat by lia. reflexivity.
    + replace (Z.to_nat (limit + 1 - t)) with (S (Z.to_nat (limit + 1 - (t + 1)))) by lia.
      cbn [take Train.batch_loop length].
      destruct (Z.ltb_spec (t + Z.of_nat (S (length rest))) t) as [Habs|_]; [lia|].
      destruct (Train.batch_step observe record optimize training b m) as [m'|e];
        cbn [Train.outcome_bind]; [|reflexivity].
      rewrite IH. f_equal. lia.
Qed.

Lemma batch_step_counts training b m m' :
  Train.batch_step observe record optimize training b m = Train.Returns m' ->
  Train.count (Train.losses m') = (Train.count (Train.losses m) + Train.size0_of observe b)%Z /\
  Train.count (Train.accs m') = (Train.count (Train.accs m) + Train.size0_of observe b)%Z.
Proof.
  unfold Train.batch_step, Train.size0_of.
  destruct (observe b) as [[[[output y] loss] size0]|e]; cbn [Train.outcome_bind];
    [|discriminate].
  destruct (Train.my_acc output y) as [acc|e]; cbn [Train.outcome_bind]; [|discriminate].
  destruct (record b) as [[]|e]; cbn [Train.outcome_bind]; [|discriminate].
  unfold Train.update.
  destruct (Z.eqb_spec (Train.count (Train.losses m) + size0) 0); [discriminate|].
  destruct (Z.eqb_spec (Train.count (Train.accs m) + size0) 0); [discriminate|].
  destruct (if training then optimize b else Train.Returns tt) as [[]|e];
    cbn [Train.outcome_bind]; [|discriminate].
  intros [= <-]. cbn. split; reflexivity.
Qed.

Lemma batch_loop_counts training limit (loader : list B) : forall t m m',
  (Z.of_nat (length loader) <= limit + 1 - t)%Z ->
  loop training limit t loader m = Train.Returns m' ->
  Train.count (Train.losses m')
  = (Train.count (Train.losses m)
     + fold_right Z.add 0 (map (Train.size0_of observe) loader))%Z /\
  Train.count (Train.accs m')
  = (Train.count (Train.accs m)
     + fold_right Z.add 0 (map (Train.size0_of observe) loader))%Z.
Proof.
  induction loader as [|b rest IH]; intros t m m' Hlen Hrun.
  - cbn in Hrun. injection Hrun as <-. cbn. lia.
  - cbn [Train.batch_loop] in Hrun. cbn [length] in Hlen.
    destruct (Z.ltb_spec limit t) as [Hlt|Hge]; [lia|].
    destruct (Train.batch_step observe record optimize training b m) as [m1|e] eqn:Hstep;
      cbn [Train.outcome_bind] in Hrun; [|discriminate Hrun].
    apply batch_step_counts in Hstep as [Hl Ha].
    apply IH in Hrun as [Hl' Ha']; [|lia].
    cbn [map fold_right]. lia.
Qed.

End BatchLoop.

(** X13.  A loop over the batches with limit [limit] runs its body on the
    first [limit + 1] batches of the loader (on none when the limit is
    negative), and on no other; when it returns, both meters of the epoch
    have counted the samples of exactly those batches. *)
Theorem batches_up_to_limit_plus_one {F : Type} `{PyFloat F} {B : Type}
    (observe : B -> Train.outcome (list (list number) * list Z * F * Z))
    (record optimize : B -> Train.outcome unit)
    (training : bool) (limit : Z) (loader : list B) :
  let used := take (Z.to_nat (limit + 1)) loader in
  Train.run_batches observe record optimize training limit loader
  = Train.run_batches observe record optimize training
      (Z.of_nat (length loader)) used /\
  forall m,
    Train.run_batches observe record optimize training limit loader
    = Train.Returns m ->
    Train.count (Train.losses m)
    = fold_right Z.add 0%Z (map (Train.size0_of observe) used) /\
    Train.count (Train.accs m)
    = fold_right Z.add 0%Z (map (Train.size0_of observe) used).
Proof.
  intros used. unfold Train.run_batches.
  assert (Heq : Train.batch_loop observe record optimize training limit 0 loader
                  (Train.Meters Train.fresh Train.fresh)
                = Train.batch_loop observe record optimize training
                    (Z.of_nat (length loader)) 0 used
                    (Train.Meters Train.fresh Train.fresh)).
  { rewrite batch_loop_take. unfold used.
    replace (limit + 1 - 0)%Z with (limit + 1)%Z by lia. reflexivity. }
  split; [exact Heq|].
  intros m Hrun. rewrite Heq in Hrun.
  apply batch_loop_counts in Hrun.
  - cbn in Hrun. exact Hrun.
  - unfold used. rewrite length_take. lia.
Qed.

(** ** The loop over the epochs *)

Lemma num_leb_le x y : Train.num_leb x y = true <-> (x <= y)%Qc.
Proof. unfold Train.num_leb. apply Qle_bool_iff. Qed.

Lemma num_leb_gt x y : Train.num_leb x y = false <-> (y < x)%Qc.
Proof.
  split; intros Hc.
  - apply Qcnot_le_lt. intros Hle. apply num_leb_le in Hle. congruence.
  - destruct (Train.num_leb x y) eqn:E; [|reflexivity].
    apply num_leb_le in E. exfalso. exact (Qclt_not_le _ _ Hc E).
Qed.

Lemma sub_le_0 (a b : number) : (a - b <= 0)%Qc <-> (a <= b)%Qc.
Proof.
  split; intros Hc.
  - apply (Qcplus_le_compat _ _ b b) in Hc; [|apply Qcle_refl].
    replace (a - b + b)%Qc with a in Hc by ring.
    replace (0 + b)%Qc with b in Hc by ring. exact Hc.
  - apply (Qcplus_le_compat _ _ (- b) (- b))%Qc in Hc; [|apply Qcle_refl].
    replace (b + - b)%Qc with 0%Qc in Hc by ring. exact Hc.
Qed.

Lemma running_best_snoc accs a :
  Train.running_best (accs ++ [a]) = Train.num_max (Train.running_best accs) a.
Proof. unfold Train.running_best. rewrite fold_left_app. reflexivity. Qed.

Lemma running_best_stale pre suf :
  Train.stale pre suf -> Train.running_best (pre ++ suf) = Train.running_best pre.
Proof.
  induction suf as [|a suf IH] using rev_ind; intros Hst.
  - rewrite app_nil_r. reflexivity.
  - apply Forall_app in Hst as [Hsuf Ha]. rewrite Forall_singleton in Ha.
    rewrite app_assoc, running_best_snoc, (IH Hsuf).
    unfold Train.num_max. destruct (num_ltb _ a) eqn:E; [|reflexivity].
    apply num_ltb_lt in E. exfalso. exact (Qclt_not_le _ _ E Ha).
Qed.

Lemma accuracies_app log log' :
  Train.accuracies (log ++ log') = (Train.accuracies log ++ Train.accuracies log')%list.
Proof. unfold Train.accuracies. apply omap_app. Qed.

Lemma best_saved_app log log' :
  Train.best_saved (log ++ log')
  = match Train.best_saved log' with
    | Some b => Some b
    | None => Train.best_saved log
    end.
Proof.
  induction log as [|ev log IH]; cbn.
  - destruct (Train.best_saved log'); reflexivity.
  - rewrite IH. destruct (Train.best_saved log'); reflexivity.
Qed.

Lemma best_saved_elem log e l :
  Train.best_saved log = Some (e, l) -> Train.SavedBest e l ∈ log.
Proof.
  induction log as [|ev log IH]; cbn; [discriminate|].
  destruct (Train.best_saved log) as [b|].
  - intros [= ->]. apply list_elem_of_further, IH. reflexivity.
  - destruct ev; try discriminate. intros [= -> ->]. apply list_elem_of_here.
Qed.

Lemma best_saved_None log :
  Train.best_saved log = None <-> forall e l, Train.SavedBest e l ∉ log.
Proof.
  induction log as [|ev log IH]; cbn.
  - split; [intros _ e l Hin; inversion Hin | reflexivity].
  - destruct (Train.best_saved log) as [b|].
    + split; [discriminate|]. intros Hno. exfalso.
      destruct IH as [_ IH]. 
      enough (Some b = None) by discriminate. apply IH.
      intros e l Hin. apply (Hno e l). apply list_elem_of_further. exact Hin.
    + destruct IH as [IH _]. specialize (IH eq_refl). split.
      * intros Hev e l Hin. apply elem_of_cons in Hin as [Heq|Hin].
        -- subst ev. discriminate Hev.
        -- exact (IH _ _ Hin).
      * intros Hno. destruct ev; try reflexivity.
        exfalso. apply (Hno epoch val_loss). apply list_elem_of_here.
Qed.

Lemma epoch_range_split N done e rest :
  Train.epoch_range N = (done ++ e :: rest)%list ->
  e = (Z.of_nat (length done) + 1)%Z /\
  done = Train.epoch_range (Z.of_nat (length done)) /\
  (e <= N)%Z.
Proof.
  unfold Train.epoch_range. intros Heq.
  assert (Hlen : (length done < Z.to_nat N)%nat).
  { apply (f_equal length) in Heq. rewrite length_map, length_seq, length_app in Heq.
    cbn in Heq. lia. }
  assert (He : (map Z.of_nat (seq 1 (Z.to_nat N))) !! length done = Some e).
  { rewrite Heq. rewrite lookup_app_r by lia. rewrite Nat.sub_diag. reflexivity. }
  rewrite list_lookup_fmap in He. rewrite lookup_seq_lt in He by lia.
  cbn in He. injection He as <-.
  split; [lia|]. split; [|lia].
  rewrite Nat2Z.id.
  apply (f_equal (take (length done))) in Heq.
  rewrite take_app_length in Heq.
  rewrite <- fmap_take, take_seq in Heq.
  replace (length done `min` Z.to_nat N)%nat with (length done) in Heq by lia.
  symmetry. exact Heq.
Qed.

Lemma elem_of_epoch_range N e : e ∈ Train.epoch_range N <-> (1 <= e <= N)%Z.
Proof.
  unfold Train.epoch_range. rewrite list_elem_of_fmap. split.
  - intros (n & -> & Hin). apply elem_of_seq in Hin. lia.
  - intros He. exists (Z.to_nat e). split; [lia|]. apply elem_of_seq. lia.
Qed.

Section EpochRuns.
Context (constants : Train.Constants).
Context (run_epoch : Z -> Train.outcome (Train.pyfloat * number)).
Context (log_scalars log_example : Z -> Train.outcome unit).

Local Abbreviation P := (Train.EARLY_STOP_PATIENCE constants).
Local Abbreviation FREQ := (Train.CHECKPOINT_FREQ constants).
Local Abbreviation body := (Train.epoch_body constants run_epoch log_scalars log_example).
Local Abbreviation loop := (Train.epochs_loop constants run_epoch log_scalars log_example).
Local Abbreviation reach := (Train.reaches constants run_epoch log_scalars log_example).

Lemma save_best_run e l c log :
  Train.save_best e l c log
  = (Train.Returns
       (if Train.improves l c && (5 <? e)%Z
        then Train.Control (Train.early_stop_count c) (Train.last_val_acc c) l
        else c),
     (log ++ (if Train.improves l c && (5 <? e)%Z
              then [Train.SavedBest e l] else []))%list).
Proof.
  unfold Train.save_best, Train.tbind, Train.emit, Train.tret.
  destruct (Train.improves l c && (5 <? e)%Z); [reflexivity|].
  rewrite app_nil_r. reflexivity.
Qed.

Lemma save_epoch_run e log :
  Train.save_epoch constants e log
  = if (FREQ =? 0)%Z then (Train.Raises Train.ZeroDivisionError, log)
    else (Train.Returns tt,
          (log ++ (if (e mod FREQ =? 0)%Z then [Train.SavedEpoch e] else []))%list).
Proof.
  unfold Train.save_epoch, Train.divides_py, Train.tbind, Train.tlift, Train.emit,
    Train.tret.
  destruct (FREQ =? 0)%Z; [reflexivity|].
  destruct (e mod FREQ =? 0)%Z; [reflexivity|].
  rewrite app_nil_r. reflexivity.
Qed.

Lemma plot_example_run e log :
  exists r plots,
    Train.plot_example constants log_example e log = (r, (log ++ plots)%list) /\
    (plots = [] \/ (plots = [Train.LoggedExample e] /\ r = Train.Returns tt)).
Proof.
  unfold Train.plot_example, Train.divides_py, Train.tbind, Train.tlift, Train.emit,
    Train.tret.
  assert (Hplot : exists r plots,
            (match log_example e with
             | Train.Returns _ => (Train.Returns tt, (log ++ [Train.LoggedExample e])%list)
             | Train.Raises x => (Train.Raises x, log)
             end) = (r, (log ++ plots)%list) /\
            (plots = [] \/ (plots = [Train.LoggedExample e] /\ r = Train.Returns tt))).
  { destruct (log_example e) as [[]|x].
    - exists (Train.Returns tt), [Train.LoggedExample e]. auto.
    - exists (Train.Raises x), []. rewrite app_nil_r. auto. }
  destruct (e <? 5)%Z; [exact Hplot|].
  destruct (Train.LOG_EXAMPLE_FREQUENCY constants =? 0)%Z.
  - exists (Train.Raises Train.ZeroDivisionError), []. rewrite app_nil_r. auto.
  - destruct (e mod Train.LOG_EXAMPLE_FREQUENCY constants =? 0)%Z; [exact Hplot|].
    exists (Train.Returns tt), []. rewrite app_nil_r. auto.
Qed.

(** An epoch, case by case. *)
Lemma epoch_body_run e c log :
  match run_epoch e with
  | Train.Raises x => body e c log = (Train.Raises x, log)
  | Train.Returns (l, a) =>
      match log_scalars e with
      | Train.Raises x =>
          body e c log = (Train.Raises x, (log ++ [Train.Validated e l a])%list)
      | Train.Returns _ =>
          let c1 := Train.note_accuracy a c in
          let best := Train.improves l c1 && (5 <? e)%Z in
          if (P <=? Train.early_stop_count c1)%Z
          then body e c log
               = (Train.Returns (c1, true),
                  (log ++ [Train.Validated e l a; Train.StoppedEarly e])%list)
          else
            let saved := ([Train.Validated e l a]
                            ++ (if best then [Train.SavedBest e l] else []))%list in
            if (FREQ =? 0)%Z
            then body e c log
                 = (Train.Raises Train.ZeroDivisionError, (log ++ saved)%list)
            else
              exists r plots,
                body e c log
                = (r, (log ++ saved
                         ++ (if (e mod FREQ =? 0)%Z then [Train.SavedEpoch e] else [])
                         ++ plots)%list) /\
                ((exists x, r = Train.Raises x) \/
                 r = Train.Returns
                       (if best
                        then Train.Control (Train.early_stop_count c1)
                               (Train.last_val_acc c1) l
                        else c1, false)) /\
                (plots = [] \/ plots = [Train.LoggedExample e])
      end
  end.
Proof.
  unfold Train.epoch_body, Train.tbind, Train.tlift.
  destruct (run_epoch e) as [[l a]|x]; [|reflexivity].
  unfold Train.emit.
  destruct (log_scalars e) as [[]|x]; [|reflexivity].
  cbn zeta.
  destruct (P <=? Train.early_stop_count (Train.note_accuracy a c))%Z.
  - unfold Train.tret. rewrite <- app_assoc. reflexivity.
  - rewrite save_best_run, save_epoch_run.
    destruct (FREQ =? 0)%Z.
    + rewrite <- app_assoc. reflexivity.
    + destruct (plot_example_run e
                  (((log ++ [Train.Validated e l a])
                      ++ (if Train.improves l (Train.note_accuracy a c) && (5 <? e)%Z
                          then [Train.SavedBest e l] else []))
                     ++ (if (e mod FREQ =? 0)%Z then [Train.SavedEpoch e] else []))%list)
        as (r & plots & Hplot & Hplots).
      rewrite Hplot. unfold Train.tret.
      destruct r as [[]|x].
      * eexists _, plots. rewrite <- !app_assoc. split; [reflexivity|].
        split; [right; reflexivity|]. destruct Hplots as [?|[? _]]; auto.
      * eexists _, plots. rewrite <- !app_assoc. split; [reflexivity|].
        split; [left; eauto|]. destruct Hplots as [?|[? _]]; auto.
Qed.

(** What an epoch that returns to the head of the loop has done. *)
Lemma epoch_body_continues e c log c' log' :
  body e c log = (Train.Returns (c', false), log') ->
  exists l a plots,
    run_epoch e = Train.Returns (l, a) /\
    let c1 := Train.note_accuracy a c in
    let best := Train.improves l c1 && (5 <? e)%Z in
    (Train.early_stop_count c1 < P)%Z /\
    FREQ <> 0%Z /\
    c' = (if best
          then Train.Control (Train.early_stop_count c1) (Train.last_val_acc c1) l
          else c1) /\
    log' = (log ++ [Train.Validated e l a]
              ++ (if best then [Train.SavedBest e l] else [])
              ++ (if (e mod FREQ =? 0)%Z then [Train.SavedEpoch e] else [])
              ++ plots)%list /\
    (plots = [] \/ plots = [Train.LoggedExample e]).
Proof.
  intros Hrun. pose proof (epoch_body_run e c log) as Hcases.
  destruct (run_epoch e) as [[l a]|x]; [|congruence].
  destruct (log_scalars e) as [[]|x]; [|congruence].
  cbn zeta in Hcases.
  destruct (Z.leb_spec P (Train.early_stop_count (Train.note_accuracy a c))) as [Hge|Hlt];
    [congruence|].
  destruct (Z.eqb_spec FREQ 0) as [HF|HF]; [congruence|].
  destruct Hcases as (r & plots & Hbody & Hr & Hplots).
  rewrite Hbody in Hrun. injection Hrun as -> <-.
  destruct Hr as [(x & Hx)|Hr]; [discriminate Hx|].
  injection Hr as ->.
  exists l, a, plots. cbn zeta. rewrite <- ?app_assoc.
  repeat split; auto.
Qed.

(** What an epoch that reaches the [break] has done. *)
Lemma epoch_body_breaks e c log c' log' :
  body e c log = (Train.Returns (c', true), log') ->
  exists l a,
    run_epoch e = Train.Returns (l, a) /\
    c' = Train.note_accuracy a c /\
    (P <= Train.early_stop_count c')%Z /\
    log' = (log ++ [Train.Validated e l a; Train.StoppedEarly e])%list.
Proof.
  intros Hrun. pose proof (epoch_body_run e c log) as Hcases.
  destruct (run_epoch e) as [[l a]|x]; [|congruence].
  destruct (log_scalars e) as [[]|x]; [|congruence].
  cbn zeta in Hcases.
  destruct (Z.leb_spec P (Train.early_stop_count (Train.note_accuracy a c))) as [Hge|Hlt].
  - rewrite Hcases in Hrun. injection Hrun as <- <-. exists l, a. auto.
  - destruct (Z.eqb_spec FREQ 0) as [HF|HF]; [congruence|].
    destruct Hcases as (r & plots & Hbody & Hr & Hplots).
    rewrite Hbody in Hrun. injection Hrun as -> <-.
    destruct Hr as [(x & Hx)|Hr]; [discriminate Hx|]. discriminate Hr.
Qed.

(** An epoch that raises has stopped nothing and has not written
    [latest.ckpt]. *)
Lemma epoch_body_raises e c log x log' :
  body e c log = (Train.Raises x, log') ->
  exists tail, log' = (log ++ tail)%list /\
    (Train.SavedLatest ∉ tail) /\ (forall e', Train.StoppedEarly e' ∉ tail).
Proof.
  intros Hrun. pose proof (epoch_body_run e c log) as Hcases.
  destruct (run_epoch e) as [[l a]|y].
  2:{ rewrite Hcases in Hrun. injection Hrun as <- <-. exists []. rewrite app_nil_r.
      repeat split; intros; apply not_elem_of_nil. }
  destruct (log_scalars e) as [[]|y].
  2:{ rewrite Hcases in Hrun. injection Hrun as <- <-.
      eexists. split; [reflexivity|].
      split; [|intros e']; intros Hin; apply list_elem_of_singleton in Hin;
        discriminate Hin. }
  cbn zeta in Hcases.
  destruct (Z.leb_spec P (Train.early_stop_count (Train.note_accuracy a c))) as [Hge|Hlt];
    [congruence|].
  assert (Hno : forall tail : list Train.event,
            Forall (fun ev => ev <> Train.SavedLatest /\
                              forall e', ev <> Train.StoppedEarly e') tail ->
            (Train.SavedLatest ∉ tail) /\ (forall e', Train.StoppedEarly e' ∉ tail)).
  { intros tail Hall. rewrite Forall_forall in Hall.
    split; [|intros e']; intros Hin; apply Hall in Hin as [H1 H2]; congruence. }
  assert (Hsaved : Forall (fun ev => ev <> Train.SavedLatest /\
                                     forall e', ev <> Train.StoppedEarly e')
                     ([Train.Validated e l a]
                        ++ (if Train.improves l (Train.note_accuracy a c) && (5 <? e)%Z
                            then [Train.SavedBest e l] else []))%list).
  { apply Forall_app. split; [repeat constructor; discriminate|].
    destruct (_ && _); repeat constructor; discriminate. }
  destruct (Z.eqb_spec FREQ 0) as [HF|HF].
  - rewrite Hcases in Hrun. injection Hrun as <- <-.
    eexists. split; [reflexivity|]. apply Hno, Hsaved.
  - destruct Hcases as (r & plots & Hbody & Hr & Hplots).
    rewrite Hbody in Hrun. injection Hrun as -> <-.
    eexists. split; [reflexivity|]. apply Hno.
    apply Forall_cons.
    split; [split; [discriminate | intros; discriminate]|].
    apply Forall_app. split; [destruct (_ && _); repeat constructor; discriminate|].
    apply Forall_app. split.
    + destruct (_ =? _)%Z; repeat constructor; discriminate.
    + destruct Hplots as [->| ->]; repeat constructor; discriminate.
Qed.

(** The loop from a state it reaches: it falls through, or breaks, or is
    left by an exception. *)
Lemma epochs_loop_reaches c0 log0 es : forall done c log r log',
  reach c0 log0 done c log ->
  loop es c log = (r, log') ->
  exists done' c1 log1,
    reach c0 log0 (done ++ done') c1 log1 /\
    ((done' = es /\ r = Train.Returns c1 /\ log' = log1) \/
     exists e rest, es = (done' ++ e :: rest)%list /\
       ((exists c', body e c1 log1 = (Train.Returns (c', true), log') /\
                    r = Train.Returns c') \/
        (exists x, body e c1 log1 = (Train.Raises x, log') /\ r = Train.Raises x))).
Proof.
  induction es as [|e es IH]; intros done c log r log' Hreach Hrun.
  - cbn in Hrun. injection Hrun as <- <-.
    exists [], c, log. rewrite app_nil_r. split; [exact Hreach|]. left. auto.
  - cbn [Train.epochs_loop] in Hrun. unfold Train.tbind in Hrun.
    destruct (body e c log) as [[[c' stop]|x] log1] eqn:Hbody.
    + destruct stop.
      * injection Hrun as <- <-.
        exists [], c, log. rewrite app_nil_r. split; [exact Hreach|]. right.
        exists e, es. split; [reflexivity|]. left. exists c'. auto.
      * destruct (IH (done ++ [e])%list c' log1 r log'
                    (Train.reaches_more _ _ _ _ _ _ _ _ _ _ _ _ Hreach Hbody) Hrun)
          as (done' & c1 & log2 & Hreach' & Hend).
        exists (e :: done'), c1, log2.
        rewrite <- app_assoc in Hreach'. split; [exact Hreach'|].
        destruct Hend as [(-> & -> & ->)|(e' & rest & -> & Hend)].
        -- left. auto.
        -- right. exists e', rest. split; [reflexivity|]. exact Hend.
    + injection Hrun as <- <-.
      exists [], c, log. rewrite app_nil_r. split; [exact Hreach|]. right.
      exists e, es. split; [reflexivity|]. right. exists x. auto.
Qed.

End EpochRuns.

Lemma num_max_l x y : (x <= Train.num_max x y)%Qc.
Proof.
  unfold Train.num_max. destruct (num_ltb x y) eqn:E.
  - apply num_ltb_lt in E. apply Qclt_le_weak. exact E.
  - apply Qcle_refl.
Qed.

Lemma running_best_mono pre suf :
  (Train.running_best pre <= Train.running_best (pre ++ suf))%Qc.
Proof.
  induction suf as [|a suf IH] using rev_ind.
  - rewrite app_nil_r. apply Qcle_refl.
  - rewrite app_assoc, running_best_snoc.
    eapply Qcle_trans; [exact IH|apply num_max_l].
Qed.

Lemma control_inv_initial : control_inv Train.initial [].
Proof.
  split; [reflexivity|]. split.
  - exists [], []. repeat split. constructor.
  - intros pre suf Heq _. symmetry in Heq. apply app_eq_nil in Heq as [_ ->].
    cbn. lia.
Qed.

Lemma control_inv_note a c accs :
  control_inv c accs -> control_inv (Train.note_accuracy a c) (accs ++ [a]).
Proof.
  intros (Hlast & (pre & suf & Heq & Hlen & Hstale) & Hmax).
  unfold Train.note_accuracy.
  destruct (Train.num_leb (a - Train.last_val_acc c) 0) eqn:Hcmp.
  - apply num_leb_le in Hcmp. apply (proj1 (sub_le_0 _ _)) in Hcmp.
    rewrite Hlast in Hcmp.
    split; [|split]; cbn [Train.last_val_acc Train.early_stop_count].
    + rewrite running_best_snoc, Hlast. unfold Train.num_max.
      destruct (num_ltb _ a) eqn:E; [|reflexivity].
      apply num_ltb_lt in E. exfalso. exact (Qclt_not_le _ _ E Hcmp).
    + exists pre, (suf ++ [a])%list. split; [rewrite Heq, app_assoc; reflexivity|].
      split; [rewrite length_app; cbn; lia|].
      apply Forall_app. split; [exact Hstale|]. apply Forall_singleton.
      rewrite <- (running_best_stale pre suf Hstale), <- Heq. exact Hcmp.
    + intros pre' suf' Heq' Hstale'.
      destruct suf' as [|x suf' _] using rev_ind; [cbn; lia|].
      rewrite app_assoc in Heq'. apply app_inj_tail in Heq' as [Heq' <-].
      apply Forall_app in Hstale' as [Hstale' _].
      specialize (Hmax _ _ Heq' Hstale'). rewrite length_app. cbn. lia.
  - apply num_leb_gt in Hcmp.
    assert (Hlt : (Train.last_val_acc c < a)%Qc).
    { apply Qcnot_le_lt. intros Hle. apply (proj2 (sub_le_0 _ _)) in Hle.
      exact (Qclt_not_le _ _ Hcmp Hle). }
    rewrite Hlast in Hlt.
    split; [|split]; cbn [Train.last_val_acc Train.early_stop_count].
    + rewrite running_best_snoc. unfold Train.num_max.
      destruct (num_ltb _ a) eqn:E; [reflexivity|].
      apply num_ltb_ge in E. exfalso. exact (Qclt_not_le _ _ Hlt E).
    + exists (accs ++ [a])%list, []. rewrite app_nil_r. repeat split. constructor.
    + intros pre' suf' Heq' Hstale'.
      destruct suf' as [|x suf' _] using rev_ind; [cbn; lia|].
      exfalso. rewrite app_assoc in Heq'. apply app_inj_tail in Heq' as [Heq' <-].
      apply Forall_app in Hstale' as [_ Ha]. rewrite Forall_singleton in Ha.
      pose proof (running_best_mono pre' suf') as Hmono. rewrite <- Heq' in Hmono.
      apply (Qclt_not_le _ _ Hlt). eapply Qcle_trans; [exact Ha|exact Hmono].
Qed.

Lemma note_accuracy_count a c :
  Train.early_stop_count (Train.note_accuracy a c) = (Train.early_stop_count c + 1)%Z \/
  Train.early_stop_count (Train.note_accuracy a c) = 0%Z.
Proof.
  unfold Train.note_accuracy. destruct (Train.num_leb _ _); cbn; auto.
Qed.

Lemma note_accuracy_best a c :
  Train.best_loss (Train.note_accuracy a c) = Train.best_loss c.
Proof. unfold Train.note_accuracy. destruct (Train.num_leb _ _); reflexivity. Qed.

Lemma elem_of_epoch_events FREQ e l a best plots ev :
  (plots = [] \/ plots = [Train.LoggedExample e]) ->
  ev ∈ epoch_events FREQ e l a best plots <->
  ev = Train.Validated e l a \/
  (best = true /\ ev = Train.SavedBest e l) \/
  ((e mod FREQ)%Z = 0%Z /\ ev = Train.SavedEpoch e) \/
  (plots = [Train.LoggedExample e] /\ ev = Train.LoggedExample e).
Proof.
  intros Hplots. unfold epoch_events.
  rewrite !elem_of_app, list_elem_of_singleton.
  destruct best; destruct (Z.eqb_spec (e mod FREQ) 0) as [Hm|Hm];
    destruct Hplots as [-> | ->];
    rewrite ?list_elem_of_singleton, ?elem_of_nil; 
    intuition (try discriminate; try congruence).
Qed.

Lemma accuracies_epoch_events FREQ e l a best plots :
  (plots = [] \/ plots = [Train.LoggedExample e]) ->
  Train.accuracies (epoch_events FREQ e l a best plots) = [a].
Proof.
  intros [-> | ->]; unfold epoch_events; destruct best;
    destruct (e mod FREQ =? 0)%Z; reflexivity.
Qed.

Lemma best_saved_epoch_events FREQ e l a best plots :
  (plots = [] \/ plots = [Train.LoggedExample e]) ->
  Train.best_saved (epoch_events FREQ e l a best plots)
  = if best then Some (e, l) else None.
Proof.
  intros [-> | ->]; unfold epoch_events; destruct best;
    destruct (e mod FREQ =? 0)%Z; reflexivity.
Qed.

Section EpochInvariants.
Context (constants : Train.Constants).
Context (run_epoch : Z -> Train.outcome (Train.pyfloat * number)).
Context (log_scalars log_example : Z -> Train.outcome unit).

Local Abbreviation P := (Train.EARLY_STOP_PATIENCE constants).
Local Abbreviation FREQ := (Train.CHECKPOINT_FREQ constants).
Local Abbreviation body := (Train.epoch_body constants run_epoch log_scalars log_example).
Local Abbreviation loop := (Train.epochs_loop constants run_epoch log_scalars log_example).
Local Abbreviation reach :=
  (Train.reaches constants run_epoch log_scalars log_example Train.initial []).

(** A step of the loop, with the events gathered. *)
Lemma reach_step e c log c' log' :
  body e c log = (Train.Returns (c', false), log') ->
  exists l a plots,
    let c1 := Train.note_accuracy a c in
    let best := Train.improves l c1 && (5 <? e)%Z in
    run_epoch e = Train.Returns (l, a) /\
    (Train.early_stop_count c1 < P)%Z /\
    FREQ <> 0%Z /\
    Train.early_stop_count c' = Train.early_stop_count c1 /\
    Train.last_val_acc c' = Train.last_val_acc c1 /\
    Train.best_loss c' = (if best then l else Train.best_loss c) /\
    log' = (log ++ epoch_events FREQ e l a best plots)%list /\
    (plots = [] \/ plots = [Train.LoggedExample e]).
Proof.
  intros Hbody. apply epoch_body_continues in Hbody
    as (l & a & plots & Hrun & Hcount & HF & -> & -> & Hplots).
  exists l, a, plots. cbn zeta.
  split; [exact Hrun|]. split; [exact Hcount|]. split; [exact HF|].
  destruct (Train.improves l (Train.note_accuracy a c) && (5 <? e)%Z);
    cbn [Train.early_stop_count Train.last_val_acc Train.best_loss];
    rewrite ?note_accuracy_best; auto.
Qed.

(** What the log holds when the loop begins an iteration. *)
Lemma reach_log done c log :
  reach done c log ->
  (forall e l a, Train.Validated e l a ∈ log ->
     e ∈ done /\ run_epoch e = Train.Returns (l, a)) /\
  (forall e, e ∈ done -> exists l a, Train.Validated e l a ∈ log) /\
  (forall e, Train.StoppedEarly e ∉ log) /\
  (Train.SavedLatest ∉ log) /\
  length (Train.accuracies log) = length done /\
  (forall e, Train.SavedEpoch e ∈ log <-> e ∈ done /\ (e mod FREQ)%Z = 0%Z) /\
  (forall e l, Train.SavedBest e l ∈ log -> e ∈ done /\ (5 < e)%Z) /\
  (done <> [] -> FREQ <> 0%Z).
Proof.
  induction 1 as [|done c log e c' log' Hreach IH Hbody].
  - split; [intros e l a Hin; inversion Hin|].
    split; [intros e Hin; inversion Hin|].
    split; [intros e; apply not_elem_of_nil|].
    split; [apply not_elem_of_nil|].
    split; [reflexivity|].
    split; [intros e; split; [intros Hin|intros [Hin _]]; inversion Hin|].
    split; [intros e l Hin; inversion Hin|].
    congruence.
  - destruct IH as (HV & HV' & HS & HL & Hlen & HE & HB & HF).
    apply reach_step in Hbody
      as (l & a & plots & Hrun & _ & HF' & _ & _ & _ & -> & Hplots).
    cbn zeta.
    split; [|split; [|split; [|split; [|split; [|split; [|split]]]]]].
    + intros e' l' a' Hin. rewrite elem_of_app in Hin. rewrite elem_of_app.
      destruct Hin as [Hin|Hin].
      * apply HV in Hin as [Hin Hrun']. auto.
      * apply elem_of_epoch_events in Hin; [|exact Hplots].
        destruct Hin as [Heq|[[_ Heq]|[[_ Heq]|[_ Heq]]]]; try discriminate Heq.
        injection Heq as -> -> ->. split; [right; apply list_elem_of_here|exact Hrun].
    + intros e' Hin. apply elem_of_app in Hin as [Hin|Hin].
      * destruct (HV' _ Hin) as (l' & a' & Hin'). exists l', a'.
        apply elem_of_app. left. exact Hin'.
      * apply list_elem_of_singleton in Hin as ->. exists l, a.
        apply elem_of_app. right. apply elem_of_epoch_events; auto.
    + intros e' Hin. apply elem_of_app in Hin as [Hin|Hin]; [exact (HS _ Hin)|].
      apply elem_of_epoch_events in Hin; [|exact Hplots].
      destruct Hin as [Heq|[[_ Heq]|[[_ Heq]|[_ Heq]]]]; discriminate Heq.
    + intros Hin. apply elem_of_app in Hin as [Hin|Hin]; [exact (HL Hin)|].
      apply elem_of_epoch_events in Hin; [|exact Hplots].
      destruct Hin as [Heq|[[_ Heq]|[[_ Heq]|[_ Heq]]]]; discriminate Heq.
    + rewrite accuracies_app, accuracies_epoch_events by exact Hplots.
      rewrite !length_app, Hlen. reflexivity.
    + intros e'. rewrite !elem_of_app, HE, list_elem_of_singleton.
      rewrite elem_of_epoch_events by exact Hplots. split.
      * intros [[Hin Hm]|[Heq|[[_ Heq]|[[Hm Heq]|[_ Heq]]]]]; try discriminate Heq; auto.
        injection Heq as ->. auto.
      * intros [[Hin| ->] Hm]; auto. right. right. right. left. auto.
    + intros e' l' Hin. rewrite elem_of_app in Hin. rewrite elem_of_app.
      destruct Hin as [Hin|Hin].
      * apply HB in Hin as [Hin H5]. auto.
      * apply elem_of_epoch_events in Hin; [|exact Hplots].
        destruct Hin as [Heq|[[Hbest Heq]|[[_ Heq]|[_ Heq]]]]; try discriminate Heq.
        injection Heq as -> ->. apply andb_true_iff in Hbest as [_ H5].
        split; [right; apply list_elem_of_here|]. apply Z.ltb_lt. exact H5.
    + intros _. exact HF'.
Qed.

(** The counter of lines 248-252 when the loop begins an iteration. *)
Lemma reach_control done c log :
  (1 <= P)%Z ->
  reach done c log ->
  control_inv c (Train.accuracies log) /\
  (Train.early_stop_count c < P)%Z /\
  (forall pre suf post,
     Train.accuracies log = (pre ++ suf ++ post)%list ->
     Train.stale pre suf ->
     (Z.of_nat (length suf) < P)%Z).
Proof.
  intros HP. induction 1 as [|done c log e c' log' Hreach IH Hbody].
  - split; [exact control_inv_initial|]. split; [cbn; lia|].
    intros pre suf post Heq _. cbn in Heq. symmetry in Heq.
    apply app_eq_nil in Heq as [_ Heq]. apply app_eq_nil in Heq as [-> _].
    cbn. lia.
  - destruct IH as (Hinv & Hcount & Hwin).
    apply reach_step in Hbody
      as (l & a & plots & Hrun & Hlt & _ & Hc & Hl & _ & -> & Hplots).
    cbn zeta in *.
    rewrite accuracies_app, accuracies_epoch_events by exact Hplots.
    pose proof (control_inv_note a _ _ Hinv) as Hinv'.
    assert (Hinv'' : control_inv c' (Train.accuracies log ++ [a])).
    { destruct Hinv' as (H1 & H2 & H3). unfold control_inv.
      rewrite Hl, Hc. auto. }
    split; [exact Hinv''|]. split; [lia|].
    intros pre suf post Heq Hstale.
    destruct post as [|x post _] using rev_ind.
    + rewrite app_nil_r in Heq.
      destruct Hinv'' as (_ & _ & Hmax). specialize (Hmax _ _ Heq Hstale). lia.
    + rewrite !app_assoc in Heq. apply app_inj_tail in Heq as [Heq _].
      rewrite <- app_assoc in Heq. exact (Hwin _ _ _ Heq Hstale).
Qed.

Lemma float_ltb_irrefl x : Train.float_ltb x x = false.
Proof.
  destruct x; cbn; try reflexivity. apply num_ltb_ge, Qcle_refl.
Qed.

Lemma float_ltb_below x y :
  Train.float_ltb x y = true -> Train.float_ltb x Train.PosInf = true.
Proof. destruct x, y; cbn; intros H; try discriminate H; reflexivity. Qed.

Lemma float_ltb_not_below z x :
  Train.float_ltb z Train.PosInf = false -> Train.float_ltb z x = false.
Proof. destruct z, x; cbn; intros H; try discriminate H; reflexivity. Qed.

Lemma float_ltb_trans x y z :
  Train.float_ltb x y = true -> Train.float_ltb y z = true ->
  Train.float_ltb x z = true.
Proof.
  destruct x, y, z; cbn; intros H1 H2; try discriminate; try reflexivity.
  apply num_ltb_lt in H1, H2. apply num_ltb_lt. eapply Qclt_trans; eassumption.
Qed.

Lemma float_ltb_above x y z :
  Train.float_ltb x y = true -> Train.float_ltb z y = false ->
  Train.float_ltb z Train.PosInf = true ->
  Train.float_ltb x z = true.
Proof.
  destruct x, y, z; cbn; intros H1 H2 H3; try discriminate; try reflexivity.
  apply num_ltb_lt in H1. apply num_ltb_ge in H2. apply num_ltb_lt.
  eapply Qclt_le_trans; eassumption.
Qed.

(** What [best.ckpt] holds when the loop begins an iteration. *)
Lemma reach_best N done c log :
  (exists rest, Train.epoch_range N = (done ++ rest)%list) ->
  reach done c log ->
  Train.best_loss c = match Train.best_saved log with
                      | None => Train.PosInf
                      | Some (_, l) => l
                      end /\
  match Train.best_saved log with
  | None =>
      forall e l a, Train.Validated e l a ∈ log -> (5 < e)%Z ->
        Train.float_ltb l Train.PosInf = false
  | Some (e, l) =>
      (5 < e)%Z /\ (exists a, Train.Validated e l a ∈ log) /\
      Train.float_ltb l Train.PosInf = true /\
      forall e' l' a', Train.Validated e' l' a' ∈ log -> (5 < e')%Z ->
        Train.float_ltb l' l = false /\
        ((e' < e)%Z -> Train.float_ltb l' Train.PosInf = true ->
         Train.float_ltb l l' = true)
  end.
Proof.
  intros Hpre Hreach. revert Hpre.
  induction Hreach as [|done c log e c' log' Hreach IH Hbody]; intros Hpre.
  - split; [reflexivity|]. cbn. intros e l a Hin. inversion Hin.
  - destruct Hpre as (rest & Hrange). rewrite <- app_assoc in Hrange. cbn in Hrange.
    destruct (IH ltac:(eauto)) as (Hbest & Hlog).
    apply epoch_range_split in Hrange as (He & Hdone & _).
    assert (Hold : forall e', e' ∈ done -> (e' < e)%Z).
    { intros e' Hin. rewrite Hdone in Hin. apply elem_of_epoch_range in Hin. lia. }
    destruct (reach_log _ _ _ Hreach) as (HV & _).
    apply reach_step in Hbody
      as (l & a & plots & Hrun & _ & _ & _ & _ & Hb & -> & Hplots).
    cbn zeta in *.
    rewrite best_saved_app, best_saved_epoch_events by exact Hplots.
    unfold Train.improves in *. rewrite note_accuracy_best in *.
    set (events := epoch_events FREQ e l a _ plots).
    assert (Hnew : forall e' l' a', Train.Validated e' l' a' ∈ events ->
              e' = e /\ l' = l).
    { intros e' l' a' Hin. apply elem_of_epoch_events in Hin; [|exact Hplots].
      destruct Hin as [Heq|[[_ Heq]|[[_ Heq]|[_ Heq]]]]; try discriminate Heq.
      injection Heq as -> -> ->. auto. }
    assert (Hval : Train.Validated e l a ∈ (log ++ events)%list).
    { apply elem_of_app. right. apply elem_of_epoch_events; auto. }
    destruct (Train.best_saved log) as [[e0 l0]|] eqn:Hsaved;
      rewrite Hbest in Hb |- *.
    + destruct Hlog as (H5 & (a0 & Hin0) & Hbelow & Hmin).
      destruct (Train.float_ltb l l0) eqn:Hcmp; cbn [andb] in *.
      * destruct (Z.ltb_spec 5 e) as [He5|He5].
        -- split; [exact Hb|]. split; [exact He5|]. split; [eauto|].
           split; [exact (float_ltb_below _ _ Hcmp)|].
           intros e' l' a' Hin H5'. apply elem_of_app in Hin as [Hin|Hin].
           ++ destruct (Hmin _ _ _ Hin H5') as [Hnot _]. split.
              ** destruct (Train.float_ltb l' l) eqn:E; [|reflexivity].
                 rewrite (float_ltb_trans _ _ _ E Hcmp) in Hnot. discriminate Hnot.
              ** intros _ Hb'. exact (float_ltb_above _ _ _ Hcmp Hnot Hb').
           ++ apply Hnew in Hin as [-> ->]. split; [apply float_ltb_irrefl|lia].
        -- split; [exact Hb|]. split; [exact H5|].
           split; [exists a0; apply elem_of_app; auto|].
           split; [exact Hbelow|].
           intros e' l' a' Hin H5'. apply elem_of_app in Hin as [Hin|Hin].
           ++ exact (Hmin _ _ _ Hin H5').
           ++ apply Hnew in Hin as [-> ->]. lia.
      * split; [exact Hb|]. split; [exact H5|].
        split; [exists a0; apply elem_of_app; auto|].
        split; [exact Hbelow|].
        intros e' l' a' Hin H5'. apply elem_of_app in Hin as [Hin|Hin].
        -- exact (Hmin _ _ _ Hin H5').
        -- apply Hnew in Hin as [-> ->]. split; [exact Hcmp|].
           intros Hlt. exfalso. apply HV in Hin0 as [Hin0 _]. apply Hold in Hin0. lia.
    + destruct (Train.float_ltb l Train.PosInf) eqn:Hcmp; cbn [andb] in *.
      * destruct (Z.ltb_spec 5 e) as [He5|He5].
        -- split; [exact Hb|]. split; [exact He5|]. split; [eauto|].
           split; [exact Hcmp|].
           intros e' l' a' Hin H5'. apply elem_of_app in Hin as [Hin|Hin].
           ++ pose proof (Hlog _ _ _ Hin H5') as Hnot. split.
              ** exact (float_ltb_not_below _ _ Hnot).
              ** intros _ Hb'. rewrite Hb' in Hnot. discriminate Hnot.
           ++ apply Hnew in Hin as [-> ->]. split; [apply float_ltb_irrefl|lia].
        -- split; [exact Hb|].
           intros e' l' a' Hin H5'. apply elem_of_app in Hin as [Hin|Hin].
           ++ exact (Hlog _ _ _ Hin H5').
           ++ apply Hnew in Hin as [-> _]. lia.
      * split; [exact Hb|].
        intros e' l' a' Hin H5'. apply elem_of_app in Hin as [Hin|Hin].
        -- exact (Hlog _ _ _ Hin H5').
        -- apply Hnew in Hin as [_ ->]. exact Hcmp.
Qed.

(** A run of [main], from the state in which the loop is left. *)
Lemma main_run N r log :
  Train.main constants run_epoch log_scalars log_example N [] = (r, log) ->
  exists done c1 log1,
    reach done c1 log1 /\
    ((done = Train.epoch_range N /\ r = Train.Returns tt /\
      log = (log1 ++ [Train.SavedLatest])%list) \/
     exists e rest, Train.epoch_range N = (done ++ e :: rest)%list /\
       ((exists l a,
           run_epoch e = Train.Returns (l, a) /\
           (P <= Train.early_stop_count (Train.note_accuracy a c1))%Z /\
           r = Train.Returns tt /\
           log = (log1 ++ [Train.Validated e l a; Train.StoppedEarly e;
                           Train.SavedLatest])%list) \/
        (exists x tail,
           r = Train.Raises x /\ log = (log1 ++ tail)%list /\
           (Train.SavedLatest ∉ tail) /\
           (forall e', Train.StoppedEarly e' ∉ tail)))).
Proof.
  unfold Train.main, Train.tbind. intros Hrun.
  destruct (loop (Train.epoch_range N) Train.initial []) as [r0 log0] eqn:Hloop.
  destruct (epochs_loop_reaches _ _ _ _ _ _ _ _ _ _ _ _
              (Train.reaches_here _ _ _ _ _ _) Hloop)
    as (done & c1 & log1 & Hreach & Hend).
  cbn [app] in Hreach. exists done, c1, log1. split; [exact Hreach|].
  destruct Hend as [(-> & -> & ->)|(e & rest & Hes & Hend)].
  - left. unfold Train.emit in Hrun. injection Hrun as <- <-. auto.
  - right. exists e, rest. split; [exact Hes|].
    destruct Hend as [(c' & Hbody & ->)|(x & Hbody & ->)].
    + left. apply epoch_body_breaks in Hbody as (l & a & Hre & -> & Hge & ->).
      unfold Train.emit in Hrun. injection Hrun as <- <-.
      exists l, a. rewrite <- app_assoc. auto.
    + right. apply epoch_body_raises in Hbody as (tail & -> & Hno).
      injection Hrun as <- <-. exists x, tail. auto.
Qed.

End EpochInvariants.

Lemma accuracies_break log e l a :
  Train.accuracies (log ++ [Train.Validated e l a; Train.StoppedEarly e;
                            Train.SavedLatest])
  = (Train.accuracies log ++ [a])%list.
Proof. rewrite accuracies_app. reflexivity. Qed.

Lemma accuracies_latest log :
  Train.accuracies (log ++ [Train.SavedLatest]) = Train.accuracies log.
Proof. rewrite accuracies_app. cbn. apply app_nil_r. Qed.

Lemma elem_of_break (ev : Train.event) log e l a :
  ev ∈ (log ++ [Train.Validated e l a; Train.StoppedEarly e; Train.SavedLatest])%list <->
  ev ∈ log \/ ev = Train.Validated e l a \/ ev = Train.StoppedEarly e \/
  ev = Train.SavedLatest.
Proof.
  rewrite elem_of_app, !elem_of_cons, elem_of_nil. intuition.
Qed.

(** X14.  With a patience of at least one, a run of [main] in which the
    early stop was announced has returned; the announcement was made in the
    last epoch validated, and each of the last [EARLY_STOP_PATIENCE]
    validation accuracies was at most the best accuracy of the epochs before
    them (or not positive, when there was none). *)
Theorem early_stop_follows_stale_epochs constants run_epoch log_scalars log_example
    N r log e :
  Train.main constants run_epoch log_scalars log_example N [] = (r, log) ->
  (1 <= Train.EARLY_STOP_PATIENCE constants)%Z ->
  Train.StoppedEarly e ∈ log ->
  r = Train.Returns tt /\
  e = Z.of_nat (length (Train.accuracies log)) /\
  (1 <= e <= N)%Z /\
  exists pre suf,
    Train.accuracies log = (pre ++ suf)%list /\
    Z.of_nat (length suf) = Train.EARLY_STOP_PATIENCE constants /\
    Train.stale pre suf.
Proof.
  intros Hrun HP Hin.
  apply main_run in Hrun as (done & c1 & log1 & Hreach & Hend).
  destruct (reach_log _ _ _ _ _ _ _ Hreach) as (_ & _ & HS & _ & Hlen & _).
  destruct (reach_control _ _ _ _ _ _ _ HP Hreach) as (Hinv & Hcount & _).
  destruct Hend as [(_ & -> & ->)|(e0 & rest & Hrange & Hend)].
  - exfalso. apply elem_of_app in Hin as [Hin|Hin]; [exact (HS _ Hin)|].
    apply list_elem_of_singleton in Hin. discriminate Hin.
  - apply epoch_range_split in Hrange as (He0 & _ & HN).
    destruct Hend as [(l & a & Hre & Hge & -> & ->)|(x & tail & -> & -> & _ & Hno)].
    + apply elem_of_break in Hin as [Hin|[Hin|[Hin|Hin]]];
        [exfalso; exact (HS _ Hin) | discriminate Hin | | discriminate Hin].
      injection Hin as ->.
      rewrite accuracies_break, length_app, Hlen. cbn [length].
      split; [reflexivity|]. split; [lia|]. split; [lia|].
      destruct (control_inv_note a _ _ Hinv) as (_ & (pre & suf & Heq & Hsuf & Hstale) & _).
      exists pre, suf. split; [exact Heq|]. split; [|exact Hstale].
      destruct (note_accuracy_count a c1) as [Hc|Hc]; lia.
    + exfalso. apply elem_of_app in Hin as [Hin|Hin]; [exact (HS _ Hin)|].
      exact (Hno _ Hin).
Qed.

(** X15.  With a patience of at least one, in a run of [main] that returns
    no run of consecutive epochs without improvement is longer than
    [EARLY_STOP_PATIENCE]; one of that length ends the history, and the
    early stop was announced in its last epoch.  When no early stop was
    announced, every epoch of [range(1, max_epochs + 1)] was validated. *)
Theorem stale_epochs_bounded_by_patience constants run_epoch log_scalars log_example
    N log :
  Train.main constants run_epoch log_scalars log_example N [] = (Train.Returns tt, log) ->
  (1 <= Train.EARLY_STOP_PATIENCE constants)%Z ->
  (forall pre suf post,
     Train.accuracies log = (pre ++ suf ++ post)%list ->
     Train.stale pre suf ->
     (Z.of_nat (length suf) <= Train.EARLY_STOP_PATIENCE constants)%Z /\
     (Z.of_nat (length suf) = Train.EARLY_STOP_PATIENCE constants ->
      post = [] /\
      Train.StoppedEarly (Z.of_nat (length (Train.accuracies log))) ∈ log)) /\
  ((forall e, Train.StoppedEarly e ∉ log) ->
   length (Train.accuracies log) = Z.to_nat N).
Proof.
  intros Hrun HP.
  apply main_run in Hrun as (done & c1 & log1 & Hreach & Hend).
  destruct (reach_log _ _ _ _ _ _ _ Hreach) as (_ & _ & HS & _ & Hlen & _).
  destruct (reach_control _ _ _ _ _ _ _ HP Hreach) as (Hinv & Hcount & Hwin).
  destruct Hend as [(-> & _ & ->)|(e0 & rest & Hrange & Hend)].
  - rewrite accuracies_latest. split.
    + intros pre suf post Heq Hstale. specialize (Hwin _ _ _ Heq Hstale).
      split; lia.
    + intros _. rewrite Hlen. unfold Train.epoch_range.
      rewrite length_map, length_seq. reflexivity.
  - apply epoch_range_split in Hrange as (He0 & _ & HN).
    destruct Hend as [(l & a & Hre & Hge & _ & ->)|(x & tail & Hr & _)];
      [|discriminate Hr].
    rewrite accuracies_break. split.
    + intros pre suf post Heq Hstale.
      destruct post as [|y post _] using rev_ind.
      * rewrite app_nil_r in Heq.
        destruct (control_inv_note a _ _ Hinv) as (_ & _ & Hmax).
        specialize (Hmax _ _ Heq Hstale).
        destruct (note_accuracy_count a c1) as [Hc|Hc]; [|lia].
        split; [lia|]. intros _. split; [reflexivity|].
        apply elem_of_break. right. right. left.
        rewrite length_app, Hlen. cbn [length]. f_equal. lia.
      * rewrite !app_assoc in Heq. apply app_inj_tail in Heq as [Heq _].
        rewrite <- app_assoc in Heq. specialize (Hwin _ _ _ Heq Hstale).
        split; lia.
    + intros Hno. exfalso. apply (Hno e0). apply elem_of_break. auto.
Qed.

(** X16.  In a run of [main] that returns, call eligible the epochs
    validated after the fifth that did not announce the early stop.
    [best.ckpt] is written exactly when the validation loss of some
    eligible epoch is below [+inf] (so neither not a number nor [+inf]).
    Its last write is in such an epoch: the loss of no eligible epoch is
    below the loss then saved, which is strictly below the loss of every
    earlier eligible epoch whose loss is below [+inf]. *)
Theorem best_checkpoint_has_least_loss constants run_epoch log_scalars log_example
    N log :
  Train.main constants run_epoch log_scalars log_example N [] = (Train.Returns tt, log) ->
  match Train.best_saved log with
  | None =>
      forall e l a, Train.Validated e l a ∈ log ->
        (e <= 5)%Z \/ Train.StoppedEarly e ∈ log \/
        Train.float_ltb l Train.PosInf = false
  | Some (e, l) =>
      (5 < e <= N)%Z /\
      (exists a, Train.Validated e l a ∈ log) /\
      (Train.StoppedEarly e ∉ log) /\
      Train.float_ltb l Train.PosInf = true /\
      forall e' l' a',
        Train.Validated e' l' a' ∈ log -> (5 < e')%Z ->
        Train.StoppedEarly e' ∉ log ->
        Train.float_ltb l' l = false /\
        ((e' < e)%Z -> Train.float_ltb l' Train.PosInf = true ->
         Train.float_ltb l l' = true)
  end.
Proof.
  intros Hrun.
  apply main_run in Hrun as (done & c1 & log1 & Hreach & Hend).
  destruct (reach_log _ _ _ _ _ _ _ Hreach) as (HV & _ & HS & _ & _ & _ & HB & _).
  assert (Hprefix : exists rest, Train.epoch_range N = (done ++ rest)%list).
  { destruct Hend as [(-> & _)|(e0 & rest & Hrange & _)].
    - exists []. rewrite app_nil_r. reflexivity.
    - eauto. }
  destruct (reach_best _ _ _ _ N _ _ _ Hprefix Hreach) as (_ & Hbest).
  assert (Hin_range : forall e, e ∈ done -> (1 <= e <= N)%Z).
  { intros e Hin. apply elem_of_epoch_range. destruct Hprefix as (rest & ->).
    apply elem_of_app. auto. }
  destruct Hend as [(_ & _ & ->)|(e0 & rest & Hrange & Hend)].
  - rewrite best_saved_app. cbn [Train.best_saved].
    destruct (Train.best_saved log1) as [[e l]|] eqn:Hsaved.
    + destruct Hbest as (H5 & (a & Hin) & Hbelow & Hmin).
      split; [apply HV, proj1, Hin_range in Hin; lia|].
      split; [exists a; apply elem_of_app; auto|].
      split; [|split; [exact Hbelow|]].
      * intros Hs. apply elem_of_app in Hs as [Hs|Hs]; [exact (HS _ Hs)|].
        apply list_elem_of_singleton in Hs. discriminate Hs.
      * intros e' l' a' Hin' H5' _.
        apply elem_of_app in Hin' as [Hin'|Hin']; [exact (Hmin _ _ _ Hin' H5')|].
        apply list_elem_of_singleton in Hin'. discriminate Hin'.
    + intros e l a Hin.
      apply elem_of_app in Hin as [Hin|Hin];
        [|apply list_elem_of_singleton in Hin; discriminate Hin].
      destruct (Z.le_gt_cases e 5) as [Hle|Hgt]; [left; exact Hle|].
      right. right. apply (Hbest _ _ _ Hin). lia.
  - apply epoch_range_split in Hrange as (He0 & Hdone & HN).
    destruct Hend as [(l0 & a0 & Hre & Hge & _ & ->)|(x & tail & Hr & _)];
      [|discriminate Hr].
    assert (Hfresh : e0 ∉ done).
    { intros Hin. rewrite Hdone in Hin. apply elem_of_epoch_range in Hin. lia. }
    rewrite best_saved_app. cbn [Train.best_saved].
    destruct (Train.best_saved log1) as [[e l]|] eqn:Hsaved.
    + destruct Hbest as (H5 & (a & Hin) & Hbelow & Hmin).
      pose proof (proj1 (HV _ _ _ Hin)) as Hdone_e.
      split; [apply Hin_range in Hdone_e; lia|].
      split; [exists a; apply elem_of_break; auto|].
      split; [|split; [exact Hbelow|]].
      * intros Hs. apply elem_of_break in Hs as [Hs|[Hs|[Hs|Hs]]];
          [exact (HS _ Hs) | discriminate Hs | | discriminate Hs].
        injection Hs as ->. exact (Hfresh Hdone_e).
      * intros e' l' a' Hin' H5' Hns.
        apply elem_of_break in Hin' as [Hin'|[Hin'|[Hin'|Hin']]];
          [exact (Hmin _ _ _ Hin' H5') | | discriminate Hin' | discriminate Hin'].
        injection Hin' as -> -> ->. exfalso. apply Hns.
        apply elem_of_break. auto.
    + intros e l a Hin.
      apply elem_of_break in Hin as [Hin|[Hin|[Hin|Hin]]];
        [ | | discriminate Hin | discriminate Hin].
      * destruct (Z.le_gt_cases e 5) as [Hle|Hgt]; [left; exact Hle|].
        right. right. apply (Hbest _ _ _ Hin). lia.
      * injection Hin as -> -> ->. right. left. apply elem_of_break. auto.
Qed.

(** X17.  [latest.ckpt] is written by the runs of [main] that return, and
    by no other; it is then the last thing written, and written once.  In
    such a run the checkpoint of an epoch is written exactly for the epochs
    validated that did not announce the early stop and whose number
    [CHECKPOINT_FREQ] divides. *)
Theorem latest_checkpoint_ends_returning_runs constants run_epoch log_scalars
    log_example N r log :
  Train.main constants run_epoch log_scalars log_example N [] = (r, log) ->
  (Train.SavedLatest ∈ log <-> r = Train.Returns tt) /\
  (r = Train.Returns tt ->
   (exists before, log = (before ++ [Train.SavedLatest])%list /\
                   (Train.SavedLatest ∉ before)) /\
   forall e,
     Train.SavedEpoch e ∈ log <->
     (exists l a, Train.Validated e l a ∈ log) /\
     (Train.StoppedEarly e ∉ log) /\
     (e mod Train.CHECKPOINT_FREQ constants)%Z = 0%Z).
Proof.
  intros Hrun.
  apply main_run in Hrun as (done & c1 & log1 & Hreach & Hend).
  destruct (reach_log _ _ _ _ _ _ _ Hreach) as (HV & HV' & HS & HL & _ & HE & _ & _).
  destruct Hend as [(_ & -> & ->)|(e0 & rest & Hrange & Hend)].
  - split; [split; [reflexivity|]|].
    { intros _. apply elem_of_app. right. apply list_elem_of_here. }
    intros _. split; [exists log1; auto|].
    intros e. rewrite elem_of_app, HE. split.
    + intros [[Hin Hm]|Hin]; [|apply list_elem_of_singleton in Hin; discriminate Hin].
      split; [|split; [|exact Hm]].
      * destruct (HV' _ Hin) as (l & a & Hin'). exists l, a. apply elem_of_app. auto.
      * intros Hs. apply elem_of_app in Hs as [Hs|Hs]; [exact (HS _ Hs)|].
        apply list_elem_of_singleton in Hs. discriminate Hs.
    + intros ((l & a & Hin) & _ & Hm). left. split; [|exact Hm].
      apply elem_of_app in Hin as [Hin|Hin]; [exact (proj1 (HV _ _ _ Hin))|].
      apply list_elem_of_singleton in Hin. discriminate Hin.
  - apply epoch_range_split in Hrange as (He0 & Hdone & HN).
    assert (Hfresh : e0 ∉ done).
    { intros Hin. rewrite Hdone in Hin. apply elem_of_epoch_range in Hin. lia. }
    destruct Hend as [(l0 & a0 & Hre & Hge & -> & ->)|(x & tail & -> & -> & Hno & _)].
    + split; [split; [reflexivity|]|].
      { intros _. apply elem_of_break. auto. }
      intros _. split.
      { exists (log1 ++ [Train.Validated e0 l0 a0; Train.StoppedEarly e0])%list.
        split; [rewrite <- app_assoc; reflexivity|].
        intros Hin. apply elem_of_app in Hin as [Hin|Hin]; [exact (HL Hin)|].
        rewrite !elem_of_cons, elem_of_nil in Hin.
        destruct Hin as [Hin|[Hin|[]]]; discriminate Hin. }
      intros e. split.
      * intros Hin. apply elem_of_break in Hin as [Hin|[Hin|[Hin|Hin]]];
          try discriminate Hin.
        apply HE in Hin as [Hin Hm].
        split; [|split; [|exact Hm]].
        -- destruct (HV' _ Hin) as (l & a & Hin'). exists l, a.
           apply elem_of_break. auto.
        -- intros Hs. apply elem_of_break in Hs as [Hs|[Hs|[Hs|Hs]]];
             [exact (HS _ Hs) | discriminate Hs | | discriminate Hs].
           injection Hs as ->. exact (Hfresh Hin).
      * intros ((l & a & Hin) & Hns & Hm). apply elem_of_break. left.
        apply HE. split; [|exact Hm].
        apply elem_of_break in Hin as [Hin|[Hin|[Hin|Hin]]];
          [exact (proj1 (HV _ _ _ Hin)) | | discriminate Hin | discriminate Hin].
        injection Hin as -> -> ->. exfalso. apply Hns. apply elem_of_break. auto.
    + split; [|discriminate].
      split; [|discriminate].
      intros Hin. exfalso. apply elem_of_app in Hin as [Hin|Hin]; [exact (HL Hin)|].
      exact (Hno Hin).
Qed.

(** * The instance at work *)

Import Fixture.

Lemma fixture_steps_2 :
  loop_steps (penne two_peaks) "MDB" "m" no_totals [] 2 start
    (fst (after two_peaks 2), snd (after two_peaks 2)).
Proof.
  eapply loop_more with (s := fst (after two_peaks 1)) (w := snd (after two_peaks 1)).
  - eapply loop_more with (s := fst start) (w := snd start).
    + apply loop_here.
    + vm_compute; reflexivity.
    + vm_compute; reflexivity.
  - vm_compute; reflexivity.
  - vm_compute; reflexivity.
Qed.

Lemma fixture_returns curve x :
  exists v, F1_curve (penne curve) "MDB" "m" no_totals [] (fs empty_world) x = Ok v.
Proof. exists (curve x). reflexivity. Qed.

Lemma calibrate_refines_bisect_witness :
  outcome_map bounds
    (fst (iteration (penne two_peaks) "MDB" "m" no_totals []
            (fst (after two_peaks 2)) (snd (after two_peaks 2))))
  = Some (bisect_step
            (F1_curve (penne two_peaks) "MDB" "m" no_totals [] (fs empty_world))
            (left (fst (after two_peaks 2)), right (fst (after two_peaks 2)))).
Proof.
  apply (proj1 (calibrate_refines_bisect (penne two_peaks) "MDB" "m" no_totals []
                  empty_world) 2).
  exact fixture_steps_2.
Defined.


Lemma calibration_takes_eight_iterations_witness :
  fst (calibrate (penne two_peaks) "MDB" "m" 7 no_totals []
         (Search 0 1 []) empty_world) = None /\
  exists s,
    fst (calibrate (penne two_peaks) "MDB" "m" 8 no_totals []
           (Search 0 1 []) empty_world) = Some (Ok s) /\
    (right s - left s)%Qc = dyadic 1 8 /\
    (right s - left s <= lit_0_005)%Qc.
Proof.
  destruct (calibration_takes_eight_iterations (penne two_peaks) "MDB" "m"
              no_totals [] empty_world)
    as (_ & _ & Hexact).
  destruct (Hexact (fixture_returns two_peaks)) as (Hbelow & Hfrom).
  split.
  - apply (Hbelow 7%nat). lia.
  - apply (Hfrom 8%nat). lia.
Defined.

Lemma calibration_invariant_witness :
  let s := fst (after two_peaks 2) in
  (0 <= left s)%Qc /\ (left s < right s)%Qc /\ (right s <= 1)%Qc /\
  (2 <= 8)%nat /\
  (exists k, (0 <= k < 2 ^ Z.of_nat 2)%Z /\
             left s = dyadic k 2 /\ right s = dyadic (k + 1) 2) /\
  ((1 <= 2)%nat ->
     0%Qc ∈ keys (hparam_results s) /\ 1%Qc ∈ keys (hparam_results s)).
Proof.
  intros s.
  apply (proj1 (calibration_invariant (penne two_peaks) "MDB" "m" no_totals []
                  empty_world) 2 s (snd (after two_peaks 2))).
  exact fixture_steps_2.
Defined.

Lemma tie_moves_right_bound_witness :
  let s := fst (after two_peaks 1) in
  let s' := fst (after two_peaks 2) in
  left s' = left s /\ right s' = ((left s + right s) / 2)%Qc.
Proof.
  intros s s'.
  apply (proj1 (tie_moves_right_bound (penne two_peaks) "MDB" "m" no_totals []
                  empty_world) 1 s (snd (after two_peaks 1)) s' (snd (after two_peaks 2))).
  - eapply loop_more with (s := fst start) (w := snd start).
    + apply loop_here.
    + vm_compute. reflexivity.
    + vm_compute. reflexivity.
  - vm_compute. reflexivity.
  - vm_compute. reflexivity.
Defined.

(** C2 as stated fails: with the F1 of [0] and [1] equal, the first
    execution of the body leaves [left] at [0] and moves [right] to
    [1/2]. *)
Lemma tie_moves_left_bound_counterexample :
  ~ tie_moves_left_bound (penne flat) "MDB" "m" no_totals [] empty_world.
Proof.
  intros H.
  destruct (H 0%nat (fst start) (snd start)
              (fst (step_config flat start)) (snd (step_config flat start)))
    as [Hright _].
  - apply loop_here.
  - vm_compute. reflexivity.
  - reflexivity.
  - apply (f_equal this) in Hright. vm_compute in Hright. discriminate Hright.
Qed.

Lemma final_threshold_is_argmax_witness :
  let run := from_stems (penne two_peaks) "MDB" "m" 8 true [] [] false empty_world in
  let r := returned ∅ (fst run) in
  let w' := snd run in
  exists t s w1 w2 b,
    predict_all (penne two_peaks) "MDB" "m" true false [] [] empty_world
    = (Some (Ok t), w1) /\
    calibrate (penne two_peaks) "MDB" "m" 8 t [] (Search 0 1 []) w1
    = (Some (Ok s), w2) /\
    best_threshold (hparam_results s) = Ok b /\
    first_argmax (hparam_results s) b /\
    (exists w3 res,
       evaluate_per_stem (penne two_peaks) "MDB" "m" b [] w3 = (Some (Ok res), w3)) /\
    (exists out, stdout w' = (out ++ [b])%list) /\
    scores_at (penne two_peaks) "MDB" "m" t [] (fs w') b = Ok r.
Proof.
  intros run r w'.
  apply (final_threshold_is_argmax (penne two_peaks) "MDB" "m" 8 true [] [] false
           empty_world r w').
  vm_compute. reflexivity.
Defined.

(** The threshold picked need not be one of the final bounds: on the curve
    [two_peaks] the loop ends with [left = 1/2] and [right = 129/256], and
    line 194 picks [1]. *)
Lemma best_threshold_off_bounds :
  let s := returned (Search 0 1 [])
             (fst (calibrate (penne two_peaks) "MDB" "m" 8 no_totals []
                     (Search 0 1 []) empty_world)) in
  this (left s) = (1 # 2)%Q /\ this (right s) = (129 # 256)%Q /\
  best_threshold (hparam_results s) = Ok 1%Qc.
Proof. vm_compute. repeat split. Qed.

(** On PTDB the three-frame prediction is scored as its first two
    frames. *)
Lemma load_stem_ptdb_example :
  load_stem (penne flat) "PTDB" "m" "t" (fs (predicted "PTDB"))
  = Ok ([[Q2Qc 100; Q2Qc 110]], two_frames, [[Q2Qc 100; Q2Qc 110]]).
Proof. vm_compute. reflexivity. Qed.

Lemma predictions_cut_for_ptdb_witness :
  let d := fs (predicted "PTDB") in
  let a := new_accs (penne flat) 0%Qc in
  let res := returned [] (Some (per_stem_loop (penne flat) "PTDB" "m" a [] ["t"] d)) in
  (exists xs,
     Forall2 (cut_for_ptdb (penne flat) "PTDB" "m" d) ["t"] xs /\
     update_all (penne flat) a xs = Ok a) /\
  (exists xs,
     Forall2 (cut_for_ptdb (penne flat) "PTDB" "m" d) ["t"] xs /\
     record_all (penne flat) a [] ["t"] xs = Ok res).
Proof.
  intros d a res. split.
  - apply (proj1 (predictions_cut_for_ptdb (penne flat) "PTDB" "m" d ["t"]) a a).
    vm_compute. reflexivity.
  - apply (proj2 (predictions_cut_for_ptdb (penne flat) "PTDB" "m" d ["t"]) a [] res).
    vm_compute. reflexivity.
Defined.

(** C6 as stated fails: for a dataset other than PTDB a prediction of
    three frames is scored against an annotation of two frames uncut. *)
Lemma cut_whenever_longer_counterexample :
  ~ cut_whenever_longer (penne flat) "MDB" "m" (fs (predicted "MDB")) "t".
Proof.
  intros H.
  specialize (H two_frames three_frames three_frames eq_refl eq_refl eq_refl).
  specialize (H ltac:(simpl; lia)).
  vm_compute in H. discriminate H.
Qed.

Lemma hparam_stems_first_fifth_witness :
  hparam_stems_of ["a"; "b"; "c"; "d"; "e"; "f"; "g"] = ["a"] /\
  forall w,
    dataset (penne flat) "MDB" "m" 8 "test" true false w
    = from_stems (penne flat) "MDB" "m" 8 true
        (hparam_stems_of ["a"; "b"; "c"; "d"; "e"; "f"; "g"]) ["t"] false w.
Proof.
  split; [reflexivity |].
  apply (hparam_stems_first_fifth (penne flat) "MDB" "m" 8 "test" true false
           ["a"; "b"; "c"; "d"; "e"; "f"; "g"] ["t"]).
  - vm_compute. reflexivity.
  - vm_compute. reflexivity.
Defined.

(** In autoregressive mode the three frames of stem ["t"] are predicted and
    saved, and the record returned reports no frame, no second and no
    inference call; the table written holds the same. *)
Lemma totals_missed_in_autoregressive_mode_witness :
  let run := from_stems (penne flat) "MDB" "m" 8 false [] ["t"] true cached in
  let r := returned ∅ (fst run) in
  frames_saved (penne flat) "MDB" "m" (fs (snd run)) "t" = num_of_nat 3 /\
  r !! "seconds" = Some 0%Qc /\
  r !! "frames" = Some 0%Qc /\
  r !! "infers" = Some 0%Qc /\
  exists results,
    fs (snd run) !! hparam_file (penne flat) "MDB" "m"
    = Some (Text [JTable results]) /\
    Forall (fun e => snd e !! "seconds" = Some 0%Qc /\
                     snd e !! "frames" = Some 0%Qc /\
                     snd e !! "infers" = Some 0%Qc)
      results.
Proof.
  intros run r.
  split; [vm_compute; reflexivity |].
  destruct (proj2 (proj2 (totals_missed_in_autoregressive_mode (penne flat) "MDB" "m"))
              8%nat false [] ["t"] true cached r (snd run))
    as (_ & Hs & Hf & Hi & Htable).
  - vm_compute. reflexivity.
  - exact (conj Hs (conj Hf (conj Hi Htable))).
Defined.

(** C8 as stated fails: in autoregressive mode a stem of three frames is
    predicted and saved, and the frame total stays [0]. *)
Lemma totals_count_in_both_modes_counterexample :
  ~ totals_count_in_both_modes (penne flat) "MDB" "m" true ["t"] cached.
Proof.
  intros H.
  specialize (H (Totals 0 0 0)
                (snd (predict_loop (penne flat) "MDB" "m" true (Totals 0 0 0)
                        ["t"] cached))).
  specialize (H ltac:(vm_compute; reflexivity)).
  apply (f_equal this) in H. vm_compute in H. discriminate H.
Qed.



(** ** Further runs of the instances *)

Lemma calibration_scores_nine_thresholds_witness :
  let run := calibrate (penne two_peaks) "MDB" "m" 8 no_totals []
               (Search 0 1 []) empty_world in
  let s := returned (Search 0 1 []) (fst run) in
  length (hparam_results s) = 9%nat /\
  stdout (snd run) = (stdout empty_world ++ keys (hparam_results s))%list /\
  (((left s ∉ keys (hparam_results s)) /\ right s ∈ keys (hparam_results s)) \/
   ((left s ∈ keys (hparam_results s)) /\ right s ∉ keys (hparam_results s))).
Proof.
  intros run s.
  apply (calibration_scores_nine_thresholds (penne two_peaks) "MDB" "m" 8 no_totals
           [] empty_world s (snd run)).
  vm_compute. reflexivity.
Defined.

Lemma calibrated_threshold_on_grid_witness :
  let run := from_stems (penne two_peaks) "MDB" "m" 8 true [] [] false empty_world in
  exists out b j,
    stdout (snd run) = (out ++ [b])%list /\
    (0 <= j <= 128)%Z /\ b = dyadic j 7 /\ (0 <= b <= 1)%Qc.
Proof.
  intros run.
  apply (calibrated_threshold_on_grid (penne two_peaks) "MDB" "m" 8 true [] [] false
           empty_world (returned ∅ (fst run)) (snd run)).
  vm_compute. reflexivity.
Defined.

Lemma zero_threshold_iff_unbeaten_witness :
  let run := calibrate (penne flat) "MDB" "m" 8 no_totals []
               (Search 0 1 []) empty_world in
  best_threshold (hparam_results (returned (Search 0 1 []) (fst run))) = Ok 0%Qc.
Proof.
  intros run.
  apply (proj2 (zero_threshold_iff_unbeaten (penne flat) "MDB" "m" 8 no_totals []
                  empty_world (returned (Search 0 1 []) (fst run)) (snd run)
                  ltac:(vm_compute; reflexivity)) 0%Qc).
  intros x. reflexivity.
Defined.

Lemma predictions_round_trip_witness :
  np_load (pitch_file (Scenario.penne flat) "MDB" "m" "u") (fs Scenario.predicted)
  = Ok two_frames /\
  np_load (pitch_file (Scenario.penne flat) "MDB" "m" "t") (fs Scenario.predicted)
  = Ok three_frames.
Proof.
  pose (run := predict_loop (Scenario.penne flat) "MDB" "m" false no_totals
                 ["t"; "u"] empty_world).
  assert (Hrun : run = (Some (Ok (returned no_totals (fst run))), snd run))
    by (vm_compute; reflexivity).
  assert (Hnames : forall stem, stem ∈ ["t"; "u"] -> no_separator stem = true).
  { intros stem Hin. rewrite !elem_of_cons, elem_of_nil in Hin.
    destruct Hin as [-> | [-> | []]]; reflexivity. }
  split.
  - destruct (proj1 (predictions_round_trip _ _ _ _ _ _ _ _ _ Hrun Hnames "u"
                       ltac:(apply list_elem_of_further, list_elem_of_here)))
      as (p & q & Hp & _ & Hv).
    destruct (Hv eq_refl) as (seconds & infers & Hpred).
    vm_compute in Hpred. injection Hpred as <- _ _ _. exact Hp.
  - destruct (proj1 (predictions_round_trip _ _ _ _ _ _ _ _ _ Hrun Hnames "t"
                       ltac:(apply list_elem_of_here)))
      as (p & q & Hp & _ & Hv).
    destruct (Hv eq_refl) as (seconds & infers & Hpred).
    vm_compute in Hpred. injection Hpred as <- _ _ _. exact Hp.
Defined.




Lemma small_training_partition_witness :
  hparam_stems_of ["a"; "b"; "c"; "d"] = [] /\
  exists s w',
    calibrate (penne two_peaks) "MDB" "m" 8 no_totals
      (hparam_stems_of ["a"; "b"; "c"; "d"]) (Search 0 1 []) empty_world
    = (Some (Ok s), w') /\
    Forall (fun e => snd e !! "f1"
                     = Some (snd (compute (F1 (penne two_peaks) (fst e)))))
      (hparam_results s).
Proof.
  apply (small_training_partition (penne two_peaks) "MDB" "m" ["a"; "b"; "c"; "d"]
           no_totals empty_world 8).
  - simpl. lia.
  - lia.
Defined.

Lemma per_stem_table_keys_witness :
  let run := evaluate_per_stem (Scenario.penne flat) "MDB" "m" 0%Qc ["t"; "u"; "t"]
               Scenario.predicted in
  let res := returned [] (fst run) in
  snd run = Scenario.predicted /\
  NoDup (map fst res) /\
  (forall stem, stem ∈ map fst res <-> stem ∈ ["t"; "u"; "t"]) /\
  (NoDup ["t"; "u"; "t"] -> map fst res = ["t"; "u"; "t"]).
Proof.
  intros run res.
  apply (per_stem_table_keys (Scenario.penne flat) "MDB" "m" 0%Qc ["t"; "u"; "t"]
           Scenario.predicted res (snd run)).
  vm_compute. reflexivity.
Defined.

Lemma scenario_reset_restores b : reset_restores (Scenario.penne flat) b.
Proof.
  split; [reflexivity|].
  intros [a1 a2 a3 a4] [[p an] q] a' Hupd. unfold update_metrics in Hupd. cbn in Hupd.
  injection Hupd as <-. reflexivity.
Qed.

Lemma per_stem_entry_is_stem_alone_witness :
  let run := evaluate_per_stem (Scenario.penne flat) "MDB" "m" 0%Qc ["t"; "u"]
               Scenario.predicted in
  exists entry,
    assoc_get String.eqb (returned [] (fst run)) "u" = Some entry /\
    forall t,
      fst (evaluate_at_threshold (Scenario.penne flat) "MDB" "m" t 0%Qc ["u"]
             Scenario.predicted)
      = Some (Ok (<["seconds" := total_seconds t]> (<["frames" := total_frames t]> (
                  <["infers" := total_infers t]> entry)))).
Proof.
  intros run.
  apply (per_stem_entry_is_stem_alone (Scenario.penne flat) "MDB" "m" 0%Qc ["t"; "u"]
           Scenario.predicted (returned [] (fst run)) (snd run)
           (scenario_reset_restores 0%Qc)).
  - vm_compute. reflexivity.
  - apply list_elem_of_further, list_elem_of_here.
Defined.

(** The second stem's row counts its own two frames, not the five seen so
    far. *)
Lemma scenario_rows :
  let res := returned [] (fst (evaluate_per_stem (Scenario.penne flat) "MDB" "m" 0%Qc
                                 ["t"; "u"] Scenario.predicted)) in
  (assoc_get String.eqb res "t" ≫= lookup "rpa") = Some (num_of_nat 3) /\
  (assoc_get String.eqb res "u" ≫= lookup "rpa") = Some (num_of_nat 2).
Proof. vm_compute. split; reflexivity. Qed.

(** ** The training session *)

Lemma meter_fails_only_on_first_update_witness :
  exists m,
    Train.updates Train.fresh
      [(Session.half, 2%Z); (Session.quarter, 6%Z)] = (m, None) /\
    Train.count m = Train.samples [(Session.half, 2%Z); (Session.quarter, 6%Z)] /\
    (0 < Train.count m)%Z /\
    Train.avg m = float_div_int (Train.sum m) (Train.count m).
Proof.
  apply (meter_fails_only_on_first_update
           Session.half 2 [(Session.quarter, 6%Z)]).
  - lia.
  - repeat constructor. simpl. lia.
Defined.


Lemma batches_up_to_limit_plus_one_witness :
  Train.run_batches Session.observe Session.record
    Session.record false 1 Session.loader
  = Train.run_batches Session.observe Session.record
      Session.record false 3 (take 2 Session.loader).
Proof.
  exact (proj1 (batches_up_to_limit_plus_one
                  Session.observe Session.record Session.record false 1
                  Session.loader)).
Defined.

Lemma session_run :
  Train.main Session.constants Session.run_epoch Session.quiet Session.quiet 10 []
  = (Train.Returns tt, snd Session.run).
Proof. vm_compute. reflexivity. Qed.

Lemma session_stopped : Train.StoppedEarly 8 ∈ snd Session.run.
Proof.
  apply (list_elem_of_lookup_2 _ 15%nat). vm_compute. reflexivity.
Qed.

Lemma early_stop_follows_stale_epochs_witness :
  Train.Returns tt = Train.Returns tt /\
  8%Z = Z.of_nat (length (Train.accuracies (snd Session.run))) /\
  (1 <= 8 <= 10)%Z /\
  exists pre suf,
    Train.accuracies (snd Session.run) = (pre ++ suf)%list /\
    Z.of_nat (length suf) = 2%Z /\
    Train.stale pre suf.
Proof.
  apply (early_stop_follows_stale_epochs Session.constants Session.run_epoch
           Session.quiet Session.quiet 10 (Train.Returns tt) (snd Session.run) 8).
  - exact session_run.
  - simpl. lia.
  - exact session_stopped.
Defined.

Lemma stale_epochs_bounded_by_patience_witness :
  (forall pre suf post,
     Train.accuracies (snd Session.run) = (pre ++ suf ++ post)%list ->
     Train.stale pre suf ->
     (Z.of_nat (length suf) <= 2)%Z /\
     (Z.of_nat (length suf) = 2%Z ->
      post = [] /\
      Train.StoppedEarly (Z.of_nat (length (Train.accuracies (snd Session.run))))
      ∈ snd Session.run)) /\
  ((forall e, Train.StoppedEarly e ∉ snd Session.run) ->
   length (Train.accuracies (snd Session.run)) = Z.to_nat 10).
Proof.
  apply (stale_epochs_bounded_by_patience Session.constants Session.run_epoch
           Session.quiet Session.quiet 10 (snd Session.run)).
  - exact session_run.
  - simpl. lia.
Defined.

Lemma best_checkpoint_has_least_loss_witness :
  match Train.best_saved (snd Session.run) with
  | None => False
  | Some (e, l) =>
      e = 7%Z /\
      forall e' l' a',
        Train.Validated e' l' a' ∈ snd Session.run -> (5 < e')%Z ->
        Train.StoppedEarly e' ∉ snd Session.run ->
        Train.float_ltb l' l = false
  end.
Proof.
  pose proof (best_checkpoint_has_least_loss Session.constants Session.run_epoch
                Session.quiet Session.quiet 10 (snd Session.run) session_run) as Hbest.
  destruct (Train.best_saved (snd Session.run)) as [[e l]|] eqn:Hsaved.
  - destruct Hbest as (_ & _ & _ & _ & Hmin). split.
    + vm_compute in Hsaved. injection Hsaved as <- _. reflexivity.
    + intros e' l' a' Hin H5 Hns. exact (proj1 (Hmin e' l' a' Hin H5 Hns)).
  - vm_compute in Hsaved. discriminate Hsaved.
Defined.

Lemma latest_checkpoint_ends_returning_runs_witness :
  Train.SavedLatest ∈ snd Session.run /\
  (Train.SavedEpoch 6 ∈ snd Session.run <->
   (exists l a, Train.Validated 6 l a ∈ snd Session.run) /\
   (Train.StoppedEarly 6 ∉ snd Session.run) /\
   (6 mod 3)%Z = 0%Z).
Proof.
  destruct (latest_checkpoint_ends_returning_runs Session.constants Session.run_epoch
              Session.quiet Session.quiet 10 (Train.Returns tt) (snd Session.run)
              session_run) as (Hlatest & Hwritten).
  split; [apply Hlatest; reflexivity|].
  exact (proj2 (Hwritten eq_refl) 6%Z).
Defined.
